(** * auto_backup.py: the backup orchestration pipeline

  A shallow embedding of [BackupSystem] (src/auto_backup.py) and the
  properties of it that the specification states.

  - Python exceptions are results [Raise e] ([e] is [str(e)]); the state
    survives a raise, as an object mutated before the fault does.
  - Everything behind [subprocess], [shutil] and the file system that the
    script cannot decide by itself is read from a record of externals.
  - [hashlib.sha256] is FIPS 180-4, written out so that digests evaluate. *)

From Stdlib Require Import ZArith NArith QArith Lqa Ascii String List.
From Stdlib.Strings Require Import Byte.
From stdpp Require Import base tactics option list sorting gmap strings pretty.

#[local] Set Warnings "-clear-no-such-hyp,-register-all".

Local Open Scope string_scope.
Local Open Scope list_scope.

(* ===================================================================== *)
(** ** hashlib.sha256 *)
(* ===================================================================== *)

Module SHA256.
Local Open Scope Z_scope.

Definition mask32 : Z := 0xFFFFFFFF.
Definition add32 (a b : Z) : Z := Z.land (a + b) mask32.
Definition not32 (a : Z) : Z := Z.lxor a mask32.
Definition rotr (n x : Z) : Z :=
  Z.lor (Z.shiftr x n) (Z.land (Z.shiftl x (32 - n)) mask32).

Definition Ch (x y z : Z) : Z := Z.lxor (Z.land x y) (Z.land (not32 x) z).
Definition Maj (x y z : Z) : Z :=
  Z.lxor (Z.lxor (Z.land x y) (Z.land x z)) (Z.land y z).
Definition bsig0 (x : Z) : Z := Z.lxor (Z.lxor (rotr 2 x) (rotr 13 x)) (rotr 22 x).
Definition bsig1 (x : Z) : Z := Z.lxor (Z.lxor (rotr 6 x) (rotr 11 x)) (rotr 25 x).
Definition ssig0 (x : Z) : Z := Z.lxor (Z.lxor (rotr 7 x) (rotr 18 x)) (Z.shiftr x 3).
Definition ssig1 (x : Z) : Z := Z.lxor (Z.lxor (rotr 17 x) (rotr 19 x)) (Z.shiftr x 10).

(** The constants, as FIPS 180-4 defines them: the first 32 bits of the
    fractional parts of the cube roots (for [K]) and of the square roots
    (for [H0]) of the first primes. *)
Definition is_prime (n : Z) : bool :=
  (1 <? n) && forallb (fun d => negb (n mod d =? 0)) (seqZ 2 (n - 2)).

Definition first_primes (count : nat) : list Z :=
  take count (List.filter is_prime (seqZ 2 400)).

(** The largest [x] below [2 ^ bits] with [x ^ k <= n], found bit by bit. *)
Fixpoint int_root (k n : Z) (bits : nat) (x : Z) : Z :=
  match bits with
  | O => x
  | S b =>
      let y := x + 2 ^ Z.of_nat b in
      int_root k n b (if y ^ k <=? n then y else x)
  end.

Definition fractional_root (k p : Z) : Z :=
  Z.land (int_root k (p * 2 ^ (32 * k)) 40 0) mask32.

Definition K : list Z := Eval vm_compute in map (fractional_root 3) (first_primes 64).
Definition H0 : list Z := Eval vm_compute in map (fractional_root 2) (first_primes 8).

(** Big-endian bytes of a word, and back. *)
Fixpoint be_bytes (n : nat) (x : Z) : list Z :=
  match n with
  | O => []
  | S n' => Z.land (Z.shiftr x (8 * Z.of_nat n')) 0xFF :: be_bytes n' x
  end.

Definition be_word (bs : list Z) : Z :=
  fold_left (fun acc b => Z.lor (Z.shiftl acc 8) b) bs 0.

(** Padding: one 0x80 byte, zeros up to 56 modulo 64, the bit length on
    eight bytes. *)
Definition pad (msg : list Z) : list Z :=
  let len := Z.of_nat (length msg) in
  let zeros := Z.to_nat ((55 - len) mod 64) in
  msg ++ 0x80 :: repeat 0 zeros ++ be_bytes 8 (8 * len).

Fixpoint chunks {A} (size count : nat) (l : list A) : list (list A) :=
  match count with
  | O => []
  | S c => take size l :: chunks size c (drop size l)
  end.

Definition words_of_block (blk : list Z) : list Z :=
  map be_word (chunks 4 16 blk).

(** The message schedule, kept newest word first while it grows. *)
Fixpoint extend (n : nat) (rev_w : list Z) : list Z :=
  match n with
  | O => rev_w
  | S n' =>
      let w := add32 (add32 (ssig1 (nth 1 rev_w 0)) (nth 6 rev_w 0))
                     (add32 (ssig0 (nth 14 rev_w 0)) (nth 15 rev_w 0)) in
      extend n' (w :: rev_w)
  end.

Definition schedule (blk : list Z) : list Z :=
  rev (extend 48 (rev (words_of_block blk))).

Record regs := Regs { ra : Z; rb : Z; rc : Z; rd : Z; re : Z; rf : Z; rg : Z; rh : Z }.

Definition round (r : regs) (kw : Z * Z) : regs :=
  let t1 := add32 (add32 (add32 (rh r) (bsig1 (re r))) (Ch (re r) (rf r) (rg r)))
                  (add32 (fst kw) (snd kw)) in
  let t2 := add32 (bsig0 (ra r)) (Maj (ra r) (rb r) (rc r)) in
  Regs (add32 t1 t2) (ra r) (rb r) (rc r) (add32 (rd r) t1) (re r) (rf r) (rg r).

Definition regs_of (h : list Z) : regs :=
  Regs (nth 0 h 0) (nth 1 h 0) (nth 2 h 0) (nth 3 h 0)
       (nth 4 h 0) (nth 5 h 0) (nth 6 h 0) (nth 7 h 0).

Definition list_of (r : regs) : list Z :=
  [ra r; rb r; rc r; rd r; re r; rf r; rg r; rh r].

Definition compress (h : list Z) (blk : list Z) : list Z :=
  let r := fold_left round (combine K (schedule blk)) (regs_of h) in
  map (fun p => add32 (fst p) (snd p)) (combine h (list_of r)).

Definition digest_words (msg : list Z) : list Z :=
  let p := pad msg in
  fold_left compress (chunks 64 (length p / 64) p) H0.

Definition digest (msg : list Byte.byte) : list Z :=
  flat_map (be_bytes 4) (digest_words (map (fun b => Z.of_N (Byte.to_N b)) msg)).

Definition hex_digit (d : Z) : ascii :=
  ascii_of_N (Z.to_N (if d <? 10 then 48 + d else 87 + d)).

Fixpoint hex (bs : list Z) : string :=
  match bs with
  | [] => EmptyString
  | b :: bs' => String (hex_digit (Z.shiftr b 4)) (String (hex_digit (Z.land b 0xF)) (hex bs'))
  end.

Definition hexdigest (msg : list Byte.byte) : string := hex (digest msg).

(** The characters of a lowercase hexadecimal numeral. *)
Definition lower_hex (c : ascii) : bool :=
  existsb (Ascii.eqb c) (list_ascii_of_string "0123456789abcdef").
End SHA256.

(* ===================================================================== *)
(** ** Python's order on [str], and [list.sort()] *)
(* ===================================================================== *)

(** [str] compares by code point, which on UTF-8 bytes is the byte-wise
    lexicographic order [String.compare]. *)
Definition str_le (a b : string) : Prop := String.leb a b = true.
Definition str_lt (a b : string) : Prop := String.ltb a b = true.

#[global] Instance str_le_dec (a b : string) : Decision (str_le a b).
Proof. unfold str_le. apply _. Defined.

(** [list.sort()] on names: the sorted arrangement of the list. *)
Definition py_sort (l : list string) : list string := merge_sort str_le l.

(* ===================================================================== *)
(** ** Results of fallible calls, and the monad of the methods *)
(* ===================================================================== *)

(** A call returns, or raises an [Exception] whose [str()] is [e].  What
    is not an [Exception] ([KeyboardInterrupt], [SystemExit]) is not
    modelled: every handler of the script is [except Exception] or wider. *)
Inductive result (A : Type) : Type :=
  | Ok (a : A)
  | Raise (e : string).
Arguments Ok {A} a.
Arguments Raise {A} e.

(** A method runs on a state and leaves a state behind, also when it
    raises: what was mutated before the fault stays mutated. *)
Definition M (S A : Type) : Type := S → result A * S.

Definition ret {S A} (a : A) : M S A := λ s, (Ok a, s).

Definition bind {S A B} (m : M S A) (k : A → M S B) : M S B :=
  λ s, match m s with
       | (Ok a, s') => k a s'
       | (Raise e, s') => (Raise e, s')
       end.

Definition lift {S A} (r : result A) : M S A := λ s, (r, s).
Definition gets {S A} (f : S → A) : M S A := λ s, (Ok (f s), s).
Definition modify {S} (f : S → S) : M S unit := λ s, (Ok tt, f s).

(** [try: body except Exception as e: handler(e)] *)
Definition try_except {S A} (body : M S A) (handler : string → M S A) : M S A :=
  λ s, match body s with
       | (Ok a, s') => (Ok a, s')
       | (Raise e, s') => handler e s'
       end.

Declare Scope py_scope.
Delimit Scope py_scope with py.
Notation "'let*' x ':=' m 'in' k" := (bind m (λ x, k))
  (at level 10, x pattern, m at level 100, k at level 200) : py_scope.
Local Open Scope py_scope.

(** [for x in l: body(x)] *)
Fixpoint for_each {S A} (l : list A) (body : A → M S unit) : M S unit :=
  match l with
  | [] => ret tt
  | x :: l' => let* _ := body x in for_each l' body
  end.

(** A method body with a local variable [L] next to [self]. *)
Definition on_self {L S A} (m : M S A) : M (L * S) A :=
  λ '(l, s), let '(r, s') := m s in (r, (l, s')).
Definition local {L S} (f : L → L) : M (L * S) unit :=
  λ '(l, s), (Ok tt, (f l, s)).
Definition with_local {L S} (init : L) (m : M (L * S) unit) : M S L :=
  λ s, match m (init, s) with
       | (Ok _, (l, s')) => (Ok l, s')
       | (Raise e, (_, s')) => (Raise e, s')
       end.

(* ===================================================================== *)
(** ** Directory trees and [calculate_checksum] *)
(* ===================================================================== *)

(** What is on disk below a path.  A directory holds its entries in the
    order the file system lists them ([os.scandir]); a file that cannot be
    opened or read has no content. *)
Inductive node : Type :=
  | File (content : option (list Byte.byte))
  | Dir (entries : list (string * node)).

Definition is_dir (t : node) : bool :=
  match t with Dir _ => true | File _ => false end.

(** The [dirs] and [files] lists [os.walk] yields for a directory. *)
Definition scandir_dirs (es : list (string * node)) : list string :=
  (filter (λ e, is_dir e.2) es).*1.
Definition scandir_files (es : list (string * node)) : list string :=
  (filter (λ e, ¬ is_dir e.2) es).*1.

(** Resolving [Path(root) / name]. *)
Fixpoint entry (name : string) (es : list (string * node)) : option node :=
  match es with
  | [] => None
  | (n, c) :: es' => if decide (n = name) then Some c else entry name es'
  end.

(** [open(filepath, 'rb')] followed by [f.read()]. *)
Definition open_read (es : list (string * node)) (filename : string)
  : result (list Byte.byte) :=
  match entry filename es with
  | Some (File (Some data)) => Ok data
  | Some (File None) => Raise "[Errno 13] Permission denied"
  | Some (Dir _) => Raise "[Errno 21] Is a directory"
  | None => Raise "[Errno 2] No such file or directory"
  end.

(** The [hashlib] object: the bytes fed to it so far. *)
Definition hasher : Type := list Byte.byte.
Definition sha256_new : hasher := [].
Definition update (h : hasher) (data : list Byte.byte) : hasher := h ++ data.
Definition hexdigest (h : hasher) : string := SHA256.hexdigest h.

(** The inner loop: [try: hasher.update(f.read()) except: pass]. *)
Definition hash_file (es : list (string * node)) (h : hasher) (filename : string) : hasher :=
  match open_read es filename with
  | Ok data => update h data
  | Raise _ => h
  end.

(** The loop over [os.walk(directory)], top-down: at a directory both lists
    are sorted in place, the files are hashed, and the walk then descends
    into the sub-directories in the order [dirs] was left in.  Descending
    resolves each name below the directory again, here in the list [below]
    of the walks of its entries.  A path that is not a directory yields
    nothing. *)
Fixpoint walk (t : node) (h : hasher) : hasher :=
  match t with
  | File _ => h
  | Dir es =>
      let dirs := py_sort (scandir_dirs es) in
      let files := py_sort (scandir_files es) in
      let h := foldl (hash_file es) h files in
      let below :=
        (fix each (l : list (string * node)) : list (string * (hasher → hasher)) :=
           match l with
           | [] => []
           | (n, c) :: l' => (n, walk c) :: each l'
           end) es in
      foldl (λ h d,
               match (fix find (l : list (string * (hasher → hasher))) :=
                        match l with
                        | [] => None
                        | (n, k) :: l' => if decide (n = d) then Some k else find l'
                        end) below with
               | Some k => k h
               | None => h
               end) h dirs
  end.

Definition calculate_checksum (directory : node) : string :=
  hexdigest (walk directory sha256_new).

(** Descending into a sub-directory, by name. *)
Definition descend (es : list (string * node)) (h : hasher) (d : string) : hasher :=
  match entry d es with
  | Some c => walk c h
  | None => h
  end.

(** Names are unique within a directory, at every level. *)
Fixpoint well_formed (t : node) : bool :=
  match t with
  | File _ => true
  | Dir es =>
      bool_decide (NoDup es.*1)
      && (fix all (l : list (string * node)) : bool :=
            match l with
            | [] => true
            | (_, c) :: l' => well_formed c && all l'
            end) es
  end.

(** The same tree, its entries listed in another order at any level. *)
Inductive relisted : node → node → Prop :=
  | relisted_file c : relisted (File c) (File c)
  | relisted_dir es shuffled es' :
      es ≡ₚ shuffled →
      Forall2 (λ e e', e.1 = e'.1 ∧ relisted e.2 e'.2) shuffled es' →
      relisted (Dir es) (Dir es').

(** The same tree under other names. *)
Fixpoint rename (f : string → string) (t : node) : node :=
  match t with
  | File c => File c
  | Dir es =>
      Dir ((fix each (l : list (string * node)) : list (string * node) :=
              match l with
              | [] => []
              | (n, c) :: l' => (f n, rename f c) :: each l'
              end) es)
  end.

(** No file of the tree can be read. *)
Fixpoint no_readable_file (t : node) : bool :=
  match t with
  | File None => true
  | File (Some _) => false
  | Dir es =>
      (fix all (l : list (string * node)) : bool :=
         match l with
         | [] => true
         | (_, c) :: l' => no_readable_file c && all l'
         end) es
  end.

(** *** The reference the specification words

    "The concatenation of the raw byte contents of the readable regular
    files, taken in sorted traversal order": every directory's listing is
    put in the order of its names; the files of the listing come first,
    then what lies below its sub-directories. *)
Definition by_name {A} (e e' : string * A) : Prop := str_le e.1 e'.1.

#[global] Instance by_name_dec {A} (e e' : string * A) : Decision (by_name e e').
Proof. unfold by_name. apply _. Defined.

Definition readable_content (t : node) : option (list Byte.byte) :=
  match t with File (Some data) => Some data | _ => None end.

Fixpoint sorted_contents (t : node) : list (list Byte.byte) :=
  match t with
  | File _ => []
  | Dir es =>
      let listing :=
        merge_sort by_name
          ((fix each (l : list (string * node))
              : list (string * (node * list (list Byte.byte))) :=
              match l with
              | [] => []
              | (n, c) :: l' => (n, (c, sorted_contents c)) :: each l'
              end) es) in
      omap (λ e, readable_content e.2.1) listing
      ++ concat (omap (λ e, if is_dir e.2.1 then Some e.2.2 else None) listing)
  end.

Definition reference_checksum (t : node) : string :=
  SHA256.hexdigest (concat (sorted_contents t)).

(* ===================================================================== *)
(** ** The data of a run *)
(* ===================================================================== *)

(** [backup_info], the dictionary of one repository. *)
Module Info.
Record t : Type := mk {
  name : string;
  timestamp : string;
  status : string;
  checksum : option string;
  size_bytes : N;
  archive_path : option string;
  error : option string            (* the key is absent until a fault is caught *)
}.
Definition set_status (v : string) (i : t) : t :=
  mk (name i) (timestamp i) v (checksum i) (size_bytes i) (archive_path i) (error i).
Definition set_checksum (v : option string) (i : t) : t :=
  mk (name i) (timestamp i) (status i) v (size_bytes i) (archive_path i) (error i).
Definition set_size_bytes (v : N) (i : t) : t :=
  mk (name i) (timestamp i) (status i) (checksum i) v (archive_path i) (error i).
Definition set_archive_path (v : option string) (i : t) : t :=
  mk (name i) (timestamp i) (status i) (checksum i) (size_bytes i) v (error i).
Definition set_error (v : option string) (i : t) : t :=
  mk (name i) (timestamp i) (status i) (checksum i) (size_bytes i) (archive_path i) v.
End Info.

(** [backup_log["summary"]]. *)
Module Summary.
Record t : Type := mk { total : Z; success : Z; failed : Z }.
End Summary.

(** [self.backup_log]. *)
Module Log.
Record t : Type := mk {
  timestamp : string;
  repositories : list Info.t;
  status : string;
  errors : list string;
  summary : option Summary.t       (* the key is absent until the run ends *)
}.
Definition add_repository (i : Info.t) (l : t) : t :=
  mk (timestamp l) (repositories l ++ [i]) (status l) (errors l) (summary l).
Definition add_error (e : string) (l : t) : t :=
  mk (timestamp l) (repositories l) (status l) (errors l ++ [e]) (summary l).
Definition set_status (v : string) (l : t) : t :=
  mk (timestamp l) (repositories l) v (errors l) (summary l).
Definition set_summary (v : Summary.t) (l : t) : t :=
  mk (timestamp l) (repositories l) (status l) (errors l) (Some v).
End Log.

(** What [Path.stat()] reads of a regular file. *)
Record FileStat : Type := { st_size : N; st_mtime : Q }.

(** A [BackupSystem] object together with the part of the machine it
    acts on.  Files directly in [backup_dir] are known by their names,
    the workspaces [backup_dir/temp/<key>] by their keys; [sink] is the
    directory [backups/<timestamp>] of the durable repository. *)
Record System : Type := mkSystem {
  backup_dir : string;
  timestamp : string;
  backup_log : Log.t;
  store : gmap string FileStat;
  workspaces : gmap string node;
  sink : gmap string FileStat;
  stdout : list string
}.

Definition with_log (f : Log.t → Log.t) (s : System) : System :=
  mkSystem (backup_dir s) (timestamp s) (f (backup_log s)) (store s) (workspaces s) (sink s) (stdout s).
Definition with_store (f : gmap string FileStat → gmap string FileStat) (s : System) : System :=
  mkSystem (backup_dir s) (timestamp s) (backup_log s) (f (store s)) (workspaces s) (sink s) (stdout s).
Definition with_workspaces (f : gmap string node → gmap string node) (s : System) : System :=
  mkSystem (backup_dir s) (timestamp s) (backup_log s) (store s) (f (workspaces s)) (sink s) (stdout s).
Definition with_sink (f : gmap string FileStat → gmap string FileStat) (s : System) : System :=
  mkSystem (backup_dir s) (timestamp s) (backup_log s) (store s) (workspaces s) (f (sink s)) (stdout s).
Definition with_stdout (f : list string → list string) (s : System) : System :=
  mkSystem (backup_dir s) (timestamp s) (backup_log s) (store s) (workspaces s) (sink s) (f (stdout s)).

(** [BackupSystem.__init__], on a machine whose backup directory holds
    [files] and [temp]. *)
Definition new_system (backup_dir stamp iso : string)
    (files : gmap string FileStat) (temp : gmap string node) : System :=
  mkSystem backup_dir stamp (Log.mk iso [] "in_progress" [] None) files temp ∅ [].

(** What the outside decides: the [gh] and [git] commands, the calls into
    [shutil], [json] and [os], and the clock.  Each call is known by its
    arguments: the command line, or the path as [str()] shows it.
    [json_loads] yields the descriptors [gh repo list --json name] prints,
    a list of objects with string fields.  Times are exact numbers of
    seconds. *)
Record Archived : Type := {
  written : option FileStat;       (* the archive file the call left on disk *)
  outcome : result unit
}.

Record Externals : Type := {
  subprocess_run : list string → result string;     (* [check=True]; the captured stdout *)
  json_loads : string → result (list (gmap string string));
  checkout : string → node;                         (* what a clone of the repository holds *)
  mkdir : string → result unit;
  make_archive : string → node → Archived;
  rmtree : string → result unit;
  unlink : string → result unit;
  copy2 : string → result unit;
  chdir : string → result unit;
  utcnow_timestamp : Q                              (* [datetime.utcnow().timestamp()] *)
}.

(** Paths, as [str()] shows them. *)
Definition file_path (s : System) (file : string) : string :=
  backup_dir s +:+ "/" +:+ file.
Definition temp_path (s : System) (key : string) : string :=
  backup_dir s +:+ "/temp/" +:+ key.

Definition log_error (msg : string) : M System unit :=
  modify (with_log (Log.add_error msg)).
Definition print (line : string) : M System unit :=
  modify (with_stdout (λ out, out ++ [line])).

(** [Path.stat()] and [Path.exists()] of a file of the backup directory. *)
Definition stat (file : string) : M System FileStat :=
  λ s, match store s !! file with
       | Some st => (Ok st, s)
       | None => (Raise ("[Errno 2] No such file or directory: '" +:+ file_path s file +:+ "'"), s)
       end.
Definition path_exists (file : string) : M System bool :=
  gets (λ s, bool_decide (is_Some (store s !! file))).

(** [f"{n:,}"] *)
Fixpoint group3 (rev_digits : list ascii) : list ascii :=
  match rev_digits with
  | a :: b :: c :: rest =>
      match rest with
      | [] => [a; b; c]
      | _ => a :: b :: c :: ","%char :: group3 rest
      end
  | _ => rev_digits
  end.
Definition format_thousands (n : N) : string :=
  string_of_list_ascii (rev (group3 (rev (list_ascii_of_string (pretty n))))).

(* ===================================================================== *)
(** ** The methods of [BackupSystem] *)
(* ===================================================================== *)

Definition gh_list_argv : list string :=
  ["gh"; "repo"; "list"; "InfinityXOneSystems"; "--limit"; "100"; "--json"; "name"].

(** The value that follows an option on a command line. *)
Fixpoint option_value (opt : string) (argv : list string) : option string :=
  match argv with
  | a :: rest =>
      if decide (a = opt) then head rest else option_value opt rest
  | [] => None
  end.

(** [[repo["name"] for repo in repos if repo["name"] != "backup"]];
    a descriptor without the key raises [KeyError]. *)
Fixpoint listed_names (repos : list (gmap string string)) : result (list string) :=
  match repos with
  | [] => Ok []
  | repo :: rest =>
      match repo !! "name" with
      | None => Raise "'name'"
      | Some n =>
          match listed_names rest with
          | Ok names => Ok (if decide (n ≠ "backup") then n :: names else names)
          | Raise e => Raise e
          end
      end
  end.

Definition get_all_repositories (E : Externals) : M System (list string) :=
  try_except
    (let* result := lift (subprocess_run E gh_list_argv) in
     let* repos := lift (json_loads E result) in
     lift (listed_names repos))
    (λ e,
     let* _ := log_error ("Failed to list repositories: " +:+ e) in
     ret []).

Definition gh_clone_argv (repo_name dest_path : string) : list string :=
  ["gh"; "repo"; "clone"; "InfinityXOneSystems/" +:+ repo_name; dest_path].

(** The clone command: on success the destination holds the checkout. *)
Definition run_clone (E : Externals) (repo_name dest : string) : M System unit :=
  λ s, match subprocess_run E (gh_clone_argv repo_name (temp_path s dest)) with
       | Ok _ => (Ok tt, with_workspaces (insert dest (checkout E repo_name)) s)
       | Raise e => (Raise e, s)
       end.

Definition clone_repository (E : Externals) (repo_name dest_path : string) : M System bool :=
  try_except
    (let* _ := run_clone E repo_name dest_path in
     ret true)
    (λ e,
     let* _ := log_error ("Failed to clone " +:+ repo_name +:+ ": " +:+ e) in
     ret false).

(** [calculate_checksum] on a workspace; a path that does not exist is
    walked as an empty one. *)
Definition workspace (s : System) (key : string) : node :=
  default (Dir []) (workspaces s !! key).
Definition checksum_of (directory : string) : M System string :=
  gets (λ s, calculate_checksum (workspace s directory)).

(** [shutil.make_archive(base_name, 'gztar', source_dir)]. *)
Definition shutil_make_archive (E : Externals) (base_name source_dir : string) : M System unit :=
  λ s, let a := make_archive E (file_path s base_name) (workspace s source_dir) in
       (outcome a,
        match written a with
        | Some st => with_store (insert (base_name +:+ ".tar.gz") st) s
        | None => s
        end).

Definition create_archive (E : Externals) (source_dir archive_name : string) : M System string :=
  let* stamp := gets timestamp in
  let archive_path := archive_name +:+ "_" +:+ stamp in
  let* _ := shutil_make_archive E archive_path source_dir in
  ret (archive_path +:+ ".tar.gz").

(** [temp_dir.mkdir(parents=True, exist_ok=True)] and [shutil.rmtree(temp_dir)]. *)
Definition mkdir_temp (E : Externals) (key : string) : M System unit :=
  λ s, match mkdir E (temp_path s key) with
       | Ok _ => (Ok tt, match workspaces s !! key with
                         | Some _ => s
                         | None => with_workspaces (insert key (Dir [])) s
                         end)
       | Raise e => (Raise e, s)
       end.
Definition shutil_rmtree (E : Externals) (key : string) : M System unit :=
  λ s, match rmtree E (temp_path s key) with
       | Ok _ => (Ok tt, with_workspaces (delete key) s)
       | Raise e => (Raise e, s)
       end.

Definition backup_repository (E : Externals) (repo_name : string) : M System Info.t :=
  let* stamp := gets timestamp in
  let backup_info := Info.mk repo_name stamp "failed" None 0 None None in
  (* Create temporary directory for cloning *)
  let temp_dir := repo_name in
  let* _ := mkdir_temp E temp_dir in
  with_local backup_info
    (try_except
       ((* Clone repository *)
        let* cloned := on_self (clone_repository E repo_name temp_dir) in
        if negb cloned then ret tt            (* return backup_info *)
        else
          (* Calculate checksum *)
          let* checksum := on_self (checksum_of temp_dir) in
          let* _ := local (Info.set_checksum (Some checksum)) in
          (* Create archive *)
          let* archive_path := on_self (create_archive E temp_dir repo_name) in
          let* archive_str := on_self (gets (λ s, file_path s archive_path)) in
          let* _ := local (Info.set_archive_path (Some archive_str)) in
          let* st := on_self (stat archive_path) in
          let* _ := local (Info.set_size_bytes (st_size st)) in
          (* Verify archive *)
          let* found := on_self (path_exists archive_path) in
          let* verified :=
            if found then
              let* st := on_self (stat archive_path) in ret (0 <? st_size st)%N
            else ret false in
          let* _ := if verified then local (Info.set_status "success") else ret tt in
          (* Cleanup temp directory *)
          on_self (shutil_rmtree E temp_dir))
       (λ e,
        let* _ := local (Info.set_error (Some e)) in
        on_self (log_error ("Backup failed for " +:+ repo_name +:+ ": " +:+ e))))
  (* return backup_info *).

Definition is_success (r : Info.t) : bool := bool_decide (Info.status r = "success").

(** The body of the loop of [backup_all_repositories]. *)
Definition backup_one (E : Externals) (repo_name : string) : M System unit :=
  let* _ := print ("Backing up " +:+ repo_name +:+ "...") in
  let* backup_info := backup_repository E repo_name in
  let* _ := modify (with_log (Log.add_repository backup_info)) in
  if is_success backup_info
  then print ("  ✓ Success: " +:+ format_thousands (Info.size_bytes backup_info) +:+ " bytes")
  else print "  ✗ Failed".

Definition backup_all_repositories (E : Externals) : M System Log.t :=
  let* repos := get_all_repositories E in
  let* _ := print ("Starting backup of " +:+ pretty (length repos) +:+ " repositories...") in
  let* _ := for_each repos (backup_one E) in
  (* Update final status *)
  let* records := gets (λ s, Log.repositories (backup_log s)) in
  let success_count := Z.of_nat (length (List.filter is_success records)) in
  let total := Z.of_nat (length repos) in
  let* _ := modify (with_log (Log.set_status
                      (if decide (success_count = total) then "completed" else "partial"))) in
  let* _ := modify (with_log (Log.set_summary
                      (Summary.mk total success_count (total - success_count)%Z))) in
  gets backup_log.

(** [backup_dir.glob("*" + suffix)], over the regular files of the
    directory. *)
Definition ends_with (suffix name : string) : bool :=
  bool_decide (list_ascii_of_string suffix `suffix_of` list_ascii_of_string name).
Definition glob (suffix : string) (s : System) : list string :=
  filter (λ name, ends_with suffix name) (map_to_list (store s)).*1.

Definition path_unlink (E : Externals) (file : string) : M System unit :=
  λ s, match unlink E (file_path s file) with
       | Ok _ => (Ok tt, with_store (delete file) s)
       | Raise e => (Raise e, s)
       end.

(** The body of the loop of [cleanup_old_backups]. *)
Definition prune (E : Externals) (cutoff_time : Q) (archive : string) : M System unit :=
  let* st := stat archive in
  if Qlt_le_dec (st_mtime st) cutoff_time then
    try_except
      (let* _ := path_unlink E archive in
       print ("Removed old backup: " +:+ archive))
      (λ e, print ("Failed to remove " +:+ archive +:+ ": " +:+ e))
  else ret tt.

Definition cleanup_old_backups (E : Externals) (retention_days : Z) : M System unit :=
  let cutoff_time := (utcnow_timestamp E - inject_Z (retention_days * 86400))%Q in
  let* archives := gets (glob ".tar.gz") in
  for_each archives (prune E cutoff_time).

(** [shutil.copy2(item, backups_dir)]: the copy keeps the size and the
    modification time. *)
Definition shutil_copy2 (E : Externals) (item : string) : M System unit :=
  let* st := stat item in
  λ s, match copy2 E (file_path s item) with
       | Ok _ => (Ok tt, with_sink (insert item st) s)
       | Raise e => (Raise e, s)
       end.

Definition backup_repo : string := "/home/ubuntu/repo_evaluation/backup".

Definition upload_to_backup_repo (E : Externals) : M System unit :=
  let* stamp := gets timestamp in
  (* Create backups directory in repo *)
  let backups_dir := backup_repo +:+ "/backups/" +:+ stamp in
  let* _ := lift (mkdir E backups_dir) in
  (* Copy archives and logs *)
  let* items := gets (λ s, (map_to_list (store s)).*1) in
  let* _ := for_each items (shutil_copy2 E) in
  (* Commit and push *)
  try_except
    (let* _ := lift (chdir E backup_repo) in
     let* _ := lift (subprocess_run E ["git"; "add"; "."]) in
     let* _ := lift (subprocess_run E ["git"; "commit"; "-m"; "Automated backup " +:+ stamp]) in
     let* _ := lift (subprocess_run E ["git"; "push"]) in
     print "✓ Backup uploaded to GitHub")
    (λ e, print ("✗ Failed to upload backup: " +:+ e)).

(* ===================================================================== *)
(** ** The constructor, the log file and [main] *)
(* ===================================================================== *)

(** [open(log_file, 'w')] followed by [json.dump(self.backup_log, f,
    indent=2)]: the file is written, or a fault is raised and what was
    created of the file stays. *)
Inductive Dumped : Type :=
  | Dumped_file (st : FileStat)
  | Dumped_fault (e : string) (partial : option FileStat).

(** The clock of [__init__] and the writing of text files. *)
Record Host : Type := {
  strftime_now : string;                            (* [utcnow().strftime("%Y%m%d_%H%M%S")] *)
  isoformat_now : string;                           (* [utcnow().isoformat()] *)
  json_dump : string → Log.t → Dumped
}.

(** [BackupSystem.__init__]: the object is bound to the directory whose
    files and workspaces the machine holds. *)
Definition BackupSystem_init (E : Externals) (H : Host) (backup_dir : string) : M System unit :=
  λ s, match mkdir E backup_dir with
       | Ok _ =>
           (Ok tt,
            mkSystem backup_dir (strftime_now H)
              (Log.mk (isoformat_now H) [] "in_progress" [] None)
              (store s) (workspaces s) (sink s) (stdout s))
       | Raise e => (Raise e, s)
       end.

Definition nl : string := String (ascii_of_nat 10) "".

Definition log_file_name (s : System) : string :=
  "backup_log_" +:+ timestamp s +:+ ".json".

Definition save_backup_log (H : Host) : M System unit :=
  let* stamp := gets timestamp in
  let log_file := "backup_log_" +:+ stamp +:+ ".json" in
  let* _ :=
    (λ s, match json_dump H (file_path s log_file) (backup_log s) with
          | Dumped_file st => (Ok tt, with_store (insert log_file st) s)
          | Dumped_fault e (Some st) => (Raise e, with_store (insert log_file st) s)
          | Dumped_fault e None => (Raise e, s)
          end) in
  let* path := gets (λ s, file_path s log_file) in
  print (nl +:+ "Backup log saved: " +:+ path).

(** [str.upper()], on ASCII text: the statuses are ASCII. *)
Definition ascii_upper (c : ascii) : ascii :=
  let n := N_of_ascii c in
  if ((97 <=? n) && (n <=? 122))%N then ascii_of_N (n - 32) else c.
Fixpoint str_upper (s : string) : string :=
  match s with
  | EmptyString => EmptyString
  | String c s' => String (ascii_upper c) (str_upper s')
  end.

(** ["=" * 80] *)
Definition rule : string := string_of_list_ascii (replicate 80 "="%char).

(** The summary block at the end of [main]. *)
Definition print_summary (result : Log.t) : M System unit :=
  let* _ := print (nl +:+ rule) in
  let* _ := print "BACKUP SUMMARY" in
  let* _ := print rule in
  let* summary := lift (match Log.summary result with
                        | Some sm => Ok sm
                        | None => Raise "'summary'"
                        end) in
  let* _ := print ("Total repositories: " +:+ pretty (Summary.total summary)) in
  let* _ := print ("Successful backups: " +:+ pretty (Summary.success summary)) in
  let* _ := print ("Failed backups: " +:+ pretty (Summary.failed summary)) in
  let* _ := print ("Status: " +:+ str_upper (Log.status result)) in
  let* _ :=
    match Log.errors result with
    | [] => ret tt
    | _ =>
        let* _ := print (nl +:+ "Errors: " +:+ pretty (length (Log.errors result))) in
        for_each (take 5 (Log.errors result)) (λ error, print ("  - " +:+ error))
    end in
  print (nl +:+ "✓ Backup process completed").

Definition main (E : Externals) (H : Host) : M System unit :=
  let* _ := print rule in
  let* _ := print "InfinityXOneSystems Automated Backup System" in
  let* _ := print "110% Protocol - FAANG Enterprise-Grade Standards" in
  let* _ := print rule in
  let* _ := print "" in
  let* _ := BackupSystem_init E H "/home/ubuntu/backups" in
  (* Execute backup *)
  let* result := backup_all_repositories E in
  (* Save log *)
  let* _ := save_backup_log H in
  (* Cleanup old backups *)
  let* _ := cleanup_old_backups E 30 in
  (* Upload to backup repository *)
  let* _ := upload_to_backup_repo E in
  (* Print summary *)
  print_summary result.

(* ===================================================================== *)
(** ** Vocabulary of the properties *)
(* ===================================================================== *)

(** The name of the archive of a repository in the backup directory. *)
Definition archive_base (s : System) (name : string) : string :=
  name +:+ "_" +:+ timestamp s.
Definition archive_file (s : System) (name : string) : string :=
  archive_base s name +:+ ".tar.gz".

(** What the [try] of [get_all_repositories] computes. *)
Definition listing (E : Externals) : result (list string) :=
  match subprocess_run E gh_list_argv with
  | Raise e => Raise e
  | Ok out =>
      match json_loads E out with
      | Raise e => Raise e
      | Ok repos => listed_names repos
      end
  end.

(** The workspace of every repository of the list can be created. *)
Definition workspaces_allocated (E : Externals) (s : System) (repos : list string) : Prop :=
  ∀ name, name ∈ repos → mkdir E (temp_path s name) = Ok tt.

(** Two outsides that treat a repository alike. *)
Definition same_behaviour (s : System) (name : string) (E E' : Externals) : Prop :=
  mkdir E (temp_path s name) = mkdir E' (temp_path s name)
  ∧ subprocess_run E (gh_clone_argv name (temp_path s name))
    = subprocess_run E' (gh_clone_argv name (temp_path s name))
  ∧ checkout E name = checkout E' name
  ∧ (∀ t, make_archive E (file_path s (archive_base s name)) t
          = make_archive E' (file_path s (archive_base s name)) t)
  ∧ rmtree E (temp_path s name) = rmtree E' (temp_path s name).

(** The ways the processing of a repository fails: the clone command
    fails; the archive call raises after the clone; the archive call
    returns and leaves an empty archive, which the verification rejects. *)
Definition clone_fails (E : Externals) (s : System) (name e : string) : Prop :=
  subprocess_run E (gh_clone_argv name (temp_path s name)) = Raise e.
Definition archive_fails (E : Externals) (s : System) (name e : string) : Prop :=
  (∃ out, subprocess_run E (gh_clone_argv name (temp_path s name)) = Ok out)
  ∧ outcome (make_archive E (file_path s (archive_base s name)) (checkout E name)) = Raise e.
Definition archive_empty (E : Externals) (s : System) (name : string) : Prop :=
  (∃ out, subprocess_run E (gh_clone_argv name (temp_path s name)) = Ok out)
  ∧ ∃ st, make_archive E (file_path s (archive_base s name)) (checkout E name)
          = {| written := Some st; outcome := Ok tt |}
          ∧ st_size st = 0%N.

(** What each path of [backup_repository] records: the status of the
    record, and the diagnostic, if any, appended to the errors of the run. *)
Definition recorded_outcome (E : Externals) (name : string) (s : System)
    (info : Info.t) (s' : System) : Prop :=
  match subprocess_run E (gh_clone_argv name (temp_path s name)) with
  | Raise e =>
      Info.status info = "failed"
      ∧ Log.errors (backup_log s')
        = Log.errors (backup_log s) ++ ["Failed to clone " +:+ name +:+ ": " +:+ e]
  | Ok _ =>
      match outcome (make_archive E (file_path s (archive_base s name)) (checkout E name)) with
      | Raise e =>
          Info.status info = "failed"
          ∧ Log.errors (backup_log s')
            = Log.errors (backup_log s) ++ ["Backup failed for " +:+ name +:+ ": " +:+ e]
      | Ok _ =>
          match store s' !! archive_file s name with
          | None =>
              Info.status info = "failed"
              ∧ Log.errors (backup_log s')
                = Log.errors (backup_log s)
                  ++ ["Backup failed for " +:+ name
                      +:+ ": [Errno 2] No such file or directory: '"
                      +:+ file_path s (archive_file s name) +:+ "'"]
          | Some st =>
              Info.status info = (if (0 <? st_size st)%N then "success" else "failed")
              ∧ match rmtree E (temp_path s name) with
                | Ok _ => Log.errors (backup_log s') = Log.errors (backup_log s)
                | Raise e =>
                    Log.errors (backup_log s')
                    = Log.errors (backup_log s)
                      ++ ["Backup failed for " +:+ name +:+ ": " +:+ e]
                end
          end
      end
  end.

(** The records of the repositories other than [name]. *)
Definition records_except (name : string) (records : list Info.t) : list Info.t :=
  filter (λ r, Info.name r ≠ name) records.

(** A record that is complete and whose archive is on disk: the checksum
    and the path are present, the path is that of the archive of the
    repository, a file is there, and the recorded size is positive. *)
Definition archived (s : System) (r : Info.t) : Prop :=
  is_Some (Info.checksum r)
  ∧ Info.archive_path r = Some (file_path s (archive_file s (Info.name r)))
  ∧ is_Some (store s !! archive_file s (Info.name r))
  ∧ (0 < Info.size_bytes r)%N.

(** Two machines that differ only in what a method may touch keep the same
    directory and run identifier. *)
Definition same_run (s s' : System) : Prop :=
  backup_dir s' = backup_dir s ∧ timestamp s' = timestamp s.


(** What the [try] of [upload_to_backup_repo] computes. *)
Definition commit_and_push (E : Externals) (s : System) : result unit :=
  match chdir E backup_repo with
  | Raise e => Raise e
  | Ok _ =>
      match subprocess_run E ["git"; "add"; "."] with
      | Raise e => Raise e
      | Ok _ =>
          match subprocess_run E ["git"; "commit"; "-m"; "Automated backup " +:+ timestamp s] with
          | Raise e => Raise e
          | Ok _ =>
              match subprocess_run E ["git"; "push"] with
              | Raise e => Raise e
              | Ok _ => Ok tt
              end
          end
      end
  end.


(** A record that came without a diagnostic: nothing was caught while it
    was made. *)
Definition quiet (rec : Info.t) : Prop :=
  Info.error rec = None
  ∧ is_Some (Info.checksum rec)
  ∧ is_Some (Info.archive_path rec)
  ∧ (Info.status rec = "failed" → Info.size_bytes rec = 0%N).

(* ===================================================================== *)
(** ** Concrete machines *)
(* ===================================================================== *)

Definition bytes_of (s : string) : list Byte.byte := list_byte_of_string s.

(** A small checkout, listed in two different orders. *)
Definition checkout_a : node :=
  Dir [ ("src", Dir [ ("main.py", File (Some (bytes_of "print(1)")));
                      ("lib.py", File (Some (bytes_of "x = 2"))) ]);
        ("README.md", File (Some (bytes_of "# demo")));
        ("secret.key", File None) ].

Definition checkout_b : node :=
  Dir [ ("secret.key", File None);
        ("README.md", File (Some (bytes_of "# demo")));
        ("src", Dir [ ("lib.py", File (Some (bytes_of "x = 2")));
                      ("main.py", File (Some (bytes_of "print(1)"))) ]) ].

(** A checkout none of whose files can be read. *)
Definition checkout_locked : node :=
  Dir [ ("secret.key", File None);
        ("keys", Dir [ ("id_rsa", File None) ]);
        ("empty", Dir []) ].

(** An organisation with the repositories alpha and beta, and the sink. *)
Definition descriptor (name : string) : gmap string string := {[ "name" := name ]}.

Definition fleet_at (now : Q) : Externals := {|
  subprocess_run argv := Ok (if decide (argv = gh_list_argv) then "<json>" else "");
  json_loads _ := Ok [descriptor "alpha"; descriptor "backup"; descriptor "beta"];
  checkout _ := checkout_a;
  mkdir _ := Ok tt;
  make_archive _ _ := {| written := Some {| st_size := 2048; st_mtime := now |}; outcome := Ok tt |};
  rmtree _ := Ok tt;
  unlink _ := Ok tt;
  copy2 _ := Ok tt;
  chdir _ := Ok tt;
  utcnow_timestamp := now
|}.

Definition fleet : Externals := fleet_at 1000.

Definition machine : System :=
  new_system "/home/ubuntu/backups" "20240101_000000" "2024-01-01T00:00:00" ∅ ∅.

(** A backup directory on day 100 of the clock, with an archive written on
    day 60, one written on day 90, and a log of day 60. *)
Definition days (n : Z) : Q := inject_Z (n * 86400).

Definition aged_machine : System :=
  new_system "/home/ubuntu/backups" "20240101_000000" "2024-01-01T00:00:00"
    (<["alpha_20231122_000000.tar.gz" := {| st_size := 2048; st_mtime := days 60 |}]>
       (<["alpha_20231222_000000.tar.gz" := {| st_size := 4096; st_mtime := days 90 |}]>
          (<["backup_log_20231122_000000.json" := {| st_size := 512; st_mtime := days 60 |}]> ∅)))
    ∅.

(** The same organisation when the files of the backup directory cannot
    be removed, when the sink has no room left, and when the push is
    rejected. *)
Definition read_only_store : Externals := {|
  subprocess_run := subprocess_run (fleet_at (days 100));
  json_loads := json_loads fleet;
  checkout := checkout fleet;
  mkdir := mkdir fleet;
  make_archive := make_archive fleet;
  rmtree := rmtree fleet;
  unlink _ := Raise "[Errno 13] Permission denied";
  copy2 := copy2 fleet;
  chdir := chdir fleet;
  utcnow_timestamp := days 100
|}.



(** A machine on which the [gh] command is not installed. *)
Definition gh_missing : Externals := {|
  subprocess_run _ := Raise "[Errno 2] No such file or directory: 'gh'";
  json_loads := json_loads fleet;
  checkout := checkout fleet;
  mkdir := mkdir fleet;
  make_archive := make_archive fleet;
  rmtree := rmtree fleet;
  unlink := unlink fleet;
  copy2 := copy2 fleet;
  chdir := chdir fleet;
  utcnow_timestamp := utcnow_timestamp fleet
|}.

(** The same organisation when the clone of beta fails. *)
Definition beta_unreachable : Externals := {|
  subprocess_run argv :=
    if decide (argv = gh_clone_argv "beta" "/home/ubuntu/backups/temp/beta")
    then Raise "Command returned non-zero exit status 1."
    else subprocess_run fleet argv;
  json_loads := json_loads fleet;
  checkout := checkout fleet;
  mkdir := mkdir fleet;
  make_archive := make_archive fleet;
  rmtree := rmtree fleet;
  unlink := unlink fleet;
  copy2 := copy2 fleet;
  chdir := chdir fleet;
  utcnow_timestamp := utcnow_timestamp fleet
|}.

(** The same organisation when the archive of beta comes out empty. *)
Definition beta_empty_archive : Externals := {|
  subprocess_run := subprocess_run fleet;
  json_loads := json_loads fleet;
  checkout := checkout fleet;
  mkdir := mkdir fleet;
  make_archive base tree :=
    if decide (base = "/home/ubuntu/backups/beta_20240101_000000")
    then {| written := Some {| st_size := 0; st_mtime := 1000 |}; outcome := Ok tt |}
    else make_archive fleet base tree;
  rmtree := rmtree fleet;
  unlink := unlink fleet;
  copy2 := copy2 fleet;
  chdir := chdir fleet;
  utcnow_timestamp := utcnow_timestamp fleet
|}.

(** The same organisation when the workspaces cannot be removed, and when
    the workspace of beta cannot be created. *)
Definition rmtree_denied : Externals := {|
  subprocess_run := subprocess_run fleet;
  json_loads := json_loads fleet;
  checkout := checkout fleet;
  mkdir := mkdir fleet;
  make_archive := make_archive fleet;
  rmtree _ := Raise "[Errno 13] Permission denied";
  unlink := unlink fleet;
  copy2 := copy2 fleet;
  chdir := chdir fleet;
  utcnow_timestamp := utcnow_timestamp fleet
|}.


(** A host whose clock reads the first of January and on which the log
    is written. *)
Definition host : Host := {|
  strftime_now := "20240101_000000";
  isoformat_now := "2024-01-01T00:00:00";
  json_dump _ _ := Dumped_file {| st_size := 700; st_mtime := days 100 |}
|}.

(* ===================================================================== *)
(** * Properties *)
(* ===================================================================== *)

(** The two usual test vectors (FIPS 180-4, appendix B.1, and the empty
    message). *)
Example sha256_abc :
  SHA256.hexdigest (list_byte_of_string "abc")
  = "ba7816bf8f01cfea414140de5dae2223b00361a396177a9cb410ff61f20015ad".
Proof. vm_compute. reflexivity. Qed.

Example sha256_empty :
  SHA256.hexdigest []
  = "e3b0c44298fc1c149afbf4c8996fb92427ae41e4649b934ca495991b7852b855".
Proof. vm_compute. reflexivity. Qed.

(** ** The order on names *)

Section StringOrder.

Lemma ascii_compare_refl (c : ascii) : Ascii.compare c c = Eq.
Proof. unfold Ascii.compare. apply N.compare_refl. Qed.

Lemma string_compare_refl (s : string) : String.compare s s = Eq.
Proof. induction s as [|c s IH]; simpl; [done|]. by rewrite ascii_compare_refl. Qed.

Lemma ascii_compare_trans (a b c : ascii) (o : comparison) :
  Ascii.compare a b = o → Ascii.compare b c = o → Ascii.compare a c = o.
Proof.
  unfold Ascii.compare.
  destruct o; rewrite ?N.compare_eq_iff, ?N.compare_lt_iff, ?N.compare_gt_iff; lia.
Qed.

Lemma string_compare_lt_trans (a b c : string) :
  String.compare a b = Lt → String.compare b c = Lt → String.compare a c = Lt.
Proof.
  revert b c. induction a as [|x a IH]; intros [|y b] [|z c]; simpl; try done.
  destruct (Ascii.compare x y) eqn:Hxy; try done;
    destruct (Ascii.compare y z) eqn:Hyz; try done; intros H1 H2.
  - apply Ascii.compare_eq_iff in Hxy, Hyz. subst.
    rewrite ascii_compare_refl. eauto.
  - apply Ascii.compare_eq_iff in Hxy. subst. by rewrite Hyz.
  - apply Ascii.compare_eq_iff in Hyz. subst. by rewrite Hxy.
  - by rewrite (ascii_compare_trans x y z Lt).
Qed.

Lemma str_le_lt_eq (a b : string) : str_le a b ↔ str_lt a b ∨ a = b.
Proof.
  unfold str_le, str_lt, String.leb, String.ltb.
  destruct (String.compare a b) eqn:Hc; split; intros Hx; try done.
  - right. by apply String.compare_eq_iff.
  - by left.
  - destruct Hx as [?| ->]; [done|]. by rewrite string_compare_refl in Hc.
Qed.

Lemma str_lt_trans (a b c : string) : str_lt a b → str_lt b c → str_lt a c.
Proof.
  unfold str_lt, String.ltb. intros H1 H2.
  destruct (String.compare a b) eqn:Hab; try done.
  destruct (String.compare b c) eqn:Hbc; try done.
  by rewrite (string_compare_lt_trans a b c).
Qed.

Lemma str_lt_irrefl (a : string) : ¬ str_lt a a.
Proof. unfold str_lt, String.ltb. by rewrite string_compare_refl. Qed.

#[global] Instance str_le_refl : Reflexive str_le.
Proof. intros a. apply str_le_lt_eq. by right. Qed.

#[global] Instance str_le_trans : Transitive str_le.
Proof.
  intros a b c [Hab| ->]%str_le_lt_eq [Hbc| ->]%str_le_lt_eq;
    apply str_le_lt_eq; eauto using str_lt_trans.
Qed.

#[global] Instance str_le_antisym : AntiSymm (=) str_le.
Proof. intros a b. apply String.leb_antisym. Qed.

#[global] Instance str_le_total : Total str_le.
Proof. intros a b. apply String.leb_total. Qed.

(** [py_sort] is characterised by its result: the one sorted
    arrangement of the names. *)
Lemma py_sort_sorted (l : list string) : Sorted str_le (py_sort l).
Proof. apply Sorted_merge_sort, _. Qed.

Lemma py_sort_perm (l : list string) : py_sort l ≡ₚ l.
Proof. apply merge_sort_Permutation. Qed.

Lemma py_sort_unique (l l' : list string) :
  Sorted str_le l' → l' ≡ₚ l → py_sort l = l'.
Proof.
  intros Hs Hp. apply (Sorted_unique str_le); auto using py_sort_sorted.
  by rewrite py_sort_perm.
Qed.

Lemma py_sort_permutation (l l' : list string) : l ≡ₚ l' → py_sort l = py_sort l'.
Proof.
  intros Hp. apply py_sort_unique; [apply py_sort_sorted|].
  by rewrite py_sort_perm.
Qed.

Lemma py_sort_elem (x : string) (l : list string) : x ∈ py_sort l ↔ x ∈ l.
Proof. by rewrite py_sort_perm. Qed.

End StringOrder.

Example py_sort_names : py_sort ["src"; "README.md"; ".git"; "docs"] = [".git"; "README.md"; "docs"; "src"].
Proof. vm_compute. reflexivity. Qed.

(** ** The walk of a tree *)

Section NodeInduction.
Variable P : node → Prop.
Hypothesis P_file : ∀ c, P (File c).
Hypothesis P_dir : ∀ es, Forall (λ e, P e.2) es → P (Dir es).

Fixpoint node_rect_entries (t : node) : P t :=
  match t with
  | File c => P_file c
  | Dir es =>
      P_dir es
        ((fix all (l : list (string * node)) : Forall (λ e, P e.2) l :=
            match l with
            | [] => List.Forall_nil _
            | (n, c) :: l' => List.Forall_cons _ (n, c) l' (node_rect_entries c) (all l')
            end) es)
  end.
End NodeInduction.

Lemma walk_Dir (es : list (string * node)) (h : hasher) :
  walk (Dir es) h
  = foldl (descend es) (foldl (hash_file es) h (py_sort (scandir_files es)))
          (py_sort (scandir_dirs es)).
Proof.
  simpl. generalize (foldl (hash_file es) h (py_sort (scandir_files es))).
  induction (py_sort (scandir_dirs es)) as [|d dirs IH]; intros h0; simpl; [done|].
  rewrite IH. f_equal. unfold descend. clear.
  induction es as [|[n c] es IH]; simpl; [done|].
  by destruct (decide (n = d)).
Qed.

Example walk_checkout_a : walk checkout_a sha256_new = bytes_of "# demox = 2print(1)".
Proof. vm_compute. reflexivity. Qed.

Example checksum_checkout_a :
  calculate_checksum checkout_a
  = "147041dc916751f5dfff722fcf3109d58028221c0c01b9067d000ee771ccfbcd".
Proof. vm_compute. reflexivity. Qed.

Section Traversal.
Implicit Types (es : list (string * node)) (h : hasher) (n : string).

Lemma well_formed_Dir es :
  well_formed (Dir es) = true
  ↔ NoDup es.*1 ∧ Forall (λ e, well_formed e.2 = true) es.
Proof.
  simpl. rewrite andb_true_iff, bool_decide_eq_true.
  apply and_iff_compat_l.
  induction es as [|[n c] es IH]; simpl.
  - split; [constructor | done].
  - rewrite andb_true_iff, IH, Forall_cons. done.
Qed.

Lemma foldl_ext_in {A B} (f g : A → B → A) (l : list B) (a : A) :
  (∀ x, x ∈ l → ∀ a, f a x = g a x) → foldl f a l = foldl g a l.
Proof.
  revert a. induction l as [|x l IH]; intros a Hfg; simpl; [done|].
  rewrite Hfg by left. apply IH. intros y Hy. apply Hfg. by right.
Qed.

Lemma entry_None n es : entry n es = None ↔ n ∉ es.*1.
Proof.
  induction es as [|[m c] es IH]; simpl.
  - split; [intros _; apply not_elem_of_nil | done].
  - rewrite not_elem_of_cons. destruct (decide (m = n)); naive_solver.
Qed.

Lemma entry_Some n c es : NoDup es.*1 → entry n es = Some c ↔ (n, c) ∈ es.
Proof.
  induction es as [|[m c'] es IH]; simpl; intros Hnd.
  - split; [done | intros []%elem_of_nil].
  - apply NoDup_cons in Hnd as [Hm Hnd]. rewrite elem_of_cons.
    destruct (decide (m = n)) as [->|Hne].
    + split; [intros [= ->]; by left|].
      intros [[= ->]|Hin]; [done|].
      destruct Hm. apply list_elem_of_fmap. by exists (n, c).
    + rewrite IH by done. naive_solver.
Qed.

Lemma entry_Permutation n es es' :
  NoDup es.*1 → es ≡ₚ es' → entry n es = entry n es'.
Proof.
  intros Hnd Hp.
  assert (NoDup es'.*1) as Hnd' by (by rewrite <- Hp).
  destruct (entry n es) as [c|] eqn:He.
  - symmetry. apply entry_Some; [done|]. rewrite <- Hp. by apply entry_Some.
  - symmetry. apply entry_None. rewrite <- Hp. by apply entry_None.
Qed.

Lemma relisted_is_dir t t' : relisted t t' → is_dir t = is_dir t'.
Proof. by destruct 1. Qed.

Lemma scandir_dirs_Forall2 es es' :
  Forall2 (λ e e', e.1 = e'.1 ∧ relisted e.2 e'.2) es es' →
  scandir_dirs es = scandir_dirs es' ∧ scandir_files es = scandir_files es'.
Proof.
  unfold scandir_dirs, scandir_files.
  induction 1 as [|[n c] [n' c'] es es' [Hn Hc] _ [IH1 IH2]]; [done|].
  simpl in Hn, Hc. subst n'. apply relisted_is_dir in Hc.
  rewrite !filter_cons. simpl. rewrite <- Hc.
  destruct (is_dir c); simpl; split;
    first [exact IH1 | exact IH2 | f_equal; first [exact IH1 | exact IH2]].
Qed.

Lemma entry_Forall2 n es es' :
  Forall2 (λ e e', e.1 = e'.1 ∧ relisted e.2 e'.2) es es' →
  option_Forall2 relisted (entry n es) (entry n es').
Proof.
  induction 1 as [|[m c] [m' c'] es es' [Hn Hc] _ IH]; simpl; [constructor|].
  simpl in Hn, Hc. subst m'. destruct (decide (m = n)); [by constructor | done].
Qed.

Lemma entry_elem n c es : entry n es = Some c → (n, c) ∈ es.
Proof.
  induction es as [|[m c'] es IH]; simpl; [done|].
  destruct (decide (m = n)) as [->|]; [intros [= ->]; left | right; auto].
Qed.

(** The walk of a tree does not depend on the order its directories
    list their entries in. *)
Lemma walk_relisted t :
  ∀ t' h, well_formed t = true → relisted t t' → walk t h = walk t' h.
Proof.
  induction t as [c|es IH] using node_rect_entries; intros t' h Hwf Hrel.
  - by inversion Hrel.
  - inversion Hrel as [|? shuffled es' Hp Hall]; subst.
    apply well_formed_Dir in Hwf as [Hnd Hsub].
    destruct (scandir_dirs_Forall2 _ _ Hall) as [Hd Hf].
    rewrite !walk_Dir, <- Hd, <- Hf.
    assert (scandir_dirs es ≡ₚ scandir_dirs shuffled) as Hpd
        by (unfold scandir_dirs; by rewrite Hp).
    assert (scandir_files es ≡ₚ scandir_files shuffled) as Hpf
        by (unfold scandir_files; by rewrite Hp).
    rewrite <- (py_sort_permutation _ _ Hpd), <- (py_sort_permutation _ _ Hpf).
    assert (∀ n, option_Forall2 relisted (entry n es) (entry n es')) as Hent.
    { intros n. rewrite (entry_Permutation n es shuffled) by done.
      by apply entry_Forall2. }
    rewrite (foldl_ext_in (hash_file es) (hash_file es')).
    2:{ intros fn _ a. unfold hash_file, open_read.
        destruct (Hent fn) as [c c' Hc|]; [|done]. by destruct Hc. }
    apply foldl_ext_in. intros d _ a. unfold descend.
    specialize (Hent d). destruct (entry d es) as [c|] eqn:Hc.
    + apply entry_elem in Hc. rewrite Forall_forall in IH, Hsub.
      inversion Hent as [? c' Hcc'|]; subst.
      apply (IH _ Hc); [apply (Hsub _ Hc) | done].
    + by inversion Hent.
Qed.

End Traversal.

(** ** The digest is 64 lowercase hexadecimal characters *)

Section HexDigest.
Local Open Scope Z_scope.

Lemma hex_digit_lower (d : Z) : 0 ≤ d < 16 → SHA256.lower_hex (SHA256.hex_digit d) = true.
Proof.
  intros Hd.
  assert (d = 0 ∨ d = 1 ∨ d = 2 ∨ d = 3 ∨ d = 4 ∨ d = 5 ∨ d = 6 ∨ d = 7 ∨ d = 8
          ∨ d = 9 ∨ d = 10 ∨ d = 11 ∨ d = 12 ∨ d = 13 ∨ d = 14 ∨ d = 15) as Hcases by lia.
  repeat (destruct Hcases as [->|Hcases]; [reflexivity|]). by subst.
Qed.

Lemma be_bytes_range (n : nat) (x : Z) : Forall (λ b, 0 ≤ b < 256) (SHA256.be_bytes n x).
Proof.
  induction n as [|n IH]; simpl; constructor; [|done].
  change 255 with (Z.ones 8). rewrite Z.land_ones by lia.
  apply Z.mod_pos_bound. lia.
Qed.

Lemma hex_lower (bs : list Z) :
  Forall (λ b, 0 ≤ b < 256) bs →
  forallb SHA256.lower_hex (list_ascii_of_string (SHA256.hex bs)) = true
  ∧ String.length (SHA256.hex bs) = (2 * length bs)%nat.
Proof.
  induction 1 as [|b bs Hb _ [IH1 IH2]]; [done|].
  cbn [SHA256.hex list_ascii_of_string forallb String.length length].
  rewrite IH1, IH2, !hex_digit_lower; [split; [done | lia] | |].
  - change 15 with (Z.ones 4). rewrite Z.land_ones by lia.
    apply Z.mod_pos_bound. lia.
  - rewrite Z.shiftr_div_pow2 by lia. change (2 ^ 4) with 16.
    split; [apply Z.div_pos; lia | apply Z.div_lt_upper_bound; lia].
Qed.

Lemma compress_length (h blk : list Z) :
  length h = 8%nat → length (SHA256.compress h blk) = 8%nat.
Proof.
  intros Hh. unfold SHA256.compress.
  rewrite length_map, length_combine, Hh. reflexivity.
Qed.

Lemma digest_words_length (msg : list Z) : length (SHA256.digest_words msg) = 8%nat.
Proof.
  unfold SHA256.digest_words.
  generalize (SHA256.chunks 64 (length (SHA256.pad msg) / 64) (SHA256.pad msg)).
  assert (length SHA256.H0 = 8%nat) as Hlen by reflexivity.
  revert Hlen. generalize SHA256.H0.
  intros h Hh blocks. revert h Hh.
  induction blocks as [|blk blocks IH]; intros h Hh; simpl; [done|].
  apply IH. by apply compress_length.
Qed.

Lemma digest_bytes (msg : list Byte.byte) :
  Forall (λ b, 0 ≤ b < 256) (SHA256.digest msg) ∧ length (SHA256.digest msg) = 32%nat.
Proof.
  unfold SHA256.digest.
  pose proof (digest_words_length (map (λ b, Z.of_N (Byte.to_N b)) msg)) as Hlen.
  revert Hlen. generalize (SHA256.digest_words (map (λ b, Z.of_N (Byte.to_N b)) msg)).
  intros ws Hws. split.
  - apply List.Forall_flat_map, Forall_forall. intros w _. apply be_bytes_range.
  - assert (∀ l, length (flat_map (SHA256.be_bytes 4) l) = (4 * length l)%nat) as Hflat.
    { induction l as [|w l IH]; [done|].
      cbn [flat_map]. rewrite length_app, IH. simpl. lia. }
    rewrite Hflat, Hws. reflexivity.
Qed.

(** [hexdigest()] is a numeral of 64 characters among [0-9a-f]. *)
Lemma hexdigest_lower (h : hasher) :
  forallb SHA256.lower_hex (list_ascii_of_string (hexdigest h)) = true
  ∧ String.length (hexdigest h) = 64%nat.
Proof.
  unfold hexdigest, SHA256.hexdigest.
  destruct (digest_bytes h) as [Hrange Hlen].
  destruct (hex_lower _ Hrange) as [H1 H2]. by rewrite H1, H2, Hlen.
Qed.

End HexDigest.

(** C6 — checksum determinism.  For every directory tree (names unique
    within each directory), the digest [calculate_checksum] returns is the
    same whatever order the file system lists the entries in, at every
    level: the names are sorted before they are visited.  The digest is
    written in lowercase hexadecimal. *)
Theorem calculate_checksum_order_independent (t t' : node) :
  well_formed t = true →
  relisted t t' →
  calculate_checksum t = calculate_checksum t'
  ∧ forallb SHA256.lower_hex (list_ascii_of_string (calculate_checksum t)) = true.
Proof.
  intros Hwf Hrel. unfold calculate_checksum. split; [|apply hexdigest_lower].
  by rewrite (walk_relisted t t' sha256_new Hwf Hrel).
Qed.

Lemma calculate_checksum_order_independent_witness :
  well_formed checkout_a = true
  ∧ relisted checkout_a checkout_b
  ∧ calculate_checksum checkout_a = calculate_checksum checkout_b.
Proof.
  assert (relisted checkout_a checkout_b) as Hrel.
  { unfold checkout_a, checkout_b.
    eapply relisted_dir.
    - etransitivity; [apply Permutation_swap|].
      etransitivity; [apply Permutation_skip, Permutation_swap|].
      apply Permutation_swap.
    - repeat first [apply Forall2_cons | apply Forall2_nil | split | reflexivity
                   | apply relisted_file ].
      eapply relisted_dir; [apply Permutation_swap|].
      repeat first [apply Forall2_cons | apply Forall2_nil | split | reflexivity
                   | apply relisted_file ]. }
  split; [reflexivity|]. split; [exact Hrel|].
  apply (proj1 (calculate_checksum_order_independent checkout_a checkout_b
                  eq_refl Hrel)).
Defined.

(** ** The walk against the reference of the specification *)

Section Reference.
Implicit Types (es : list (string * node)) (h : hasher) (n : string).

#[local] Instance by_name_trans {A} : Transitive (@by_name A).
Proof. intros x y z. unfold by_name. apply str_le_trans. Qed.

#[local] Instance by_name_total {A} : Total (@by_name A).
Proof. intros x y. unfold by_name. apply str_le_total. Qed.

Lemma sorted_contents_Dir es :
  sorted_contents (Dir es)
  = let listing :=
      merge_sort by_name ((λ e, (e.1, (e.2, sorted_contents e.2))) <$> es) in
    omap (λ e, readable_content e.2.1) listing
    ++ concat (omap (λ e, if is_dir e.2.1 then Some e.2.2 else None) listing).
Proof.
  simpl.
  assert ((fix each (l : list (string * node)) :=
             match l with
             | [] => []
             | (n, c) :: l' => (n, (c, sorted_contents c)) :: each l'
             end) es
          = (λ e, (e.1, (e.2, sorted_contents e.2))) <$> es) as ->; [|done].
  induction es as [|[n c] es IH]; [done|]. rewrite fmap_cons. simpl. by f_equal.
Qed.

Lemma StronglySorted_filter {A} (R : relation A) (P : A → Prop)
    `{∀ x, Decision (P x)} (l : list A) :
  StronglySorted R l → StronglySorted R (filter P l).
Proof.
  induction 1 as [|x l Hl IH Hx]; [constructor|].
  rewrite filter_cons. destruct (decide (P x)); [|done].
  constructor; [done|].
  rewrite Forall_forall in Hx |- *. intros y [_ Hy]%list_elem_of_filter. auto.
Qed.

Lemma sorted_names_of_listing {A} (P : string * A → Prop) `{∀ x, Decision (P x)}
    (listing : list (string * A)) :
  StronglySorted by_name listing → Sorted str_le (filter P listing).*1.
Proof.
  intros Hs. apply StronglySorted_Sorted.
  apply (StronglySorted_fmap fst by_name str_le); [done|].
  by apply StronglySorted_filter.
Qed.

Lemma scandir_files_annotated {B} (g : node → B) es :
  (filter (λ x : string * (node * B), ¬ is_dir x.2.1) ((λ e, (e.1, (e.2, g e.2))) <$> es)).*1
  = scandir_files es.
Proof.
  unfold scandir_files. induction es as [|[n c] es IH]; [done|].
  rewrite fmap_cons, !filter_cons. cbn [fst snd].
  destruct (decide (¬ is_dir c)); [rewrite !fmap_cons; cbn [fst]; f_equal|]; exact IH.
Qed.

Lemma scandir_dirs_annotated {B} (g : node → B) es :
  (filter (λ x : string * (node * B), is_dir x.2.1) ((λ e, (e.1, (e.2, g e.2))) <$> es)).*1
  = scandir_dirs es.
Proof.
  unfold scandir_dirs. induction es as [|[n c] es IH]; [done|].
  rewrite fmap_cons, !filter_cons. cbn [fst snd].
  destruct (decide (is_dir c)); [rewrite !fmap_cons; cbn [fst]; f_equal|]; exact IH.
Qed.

Lemma hash_listing es (listing : list (string * (node * list (list Byte.byte)))) h :
  (∀ x, x ∈ listing → entry x.1 es = Some x.2.1) →
  foldl (hash_file es) h (filter (λ x, ¬ is_dir x.2.1) listing).*1
  = h ++ concat (omap (λ e, readable_content e.2.1) listing).
Proof.
  revert h. induction listing as [|[n [c st]] listing IH]; intros h Hent.
  - simpl. by rewrite app_nil_r.
  - assert (entry n es = Some c) as Hn by (apply (Hent (n, (c, st))); left).
    assert (∀ x, x ∈ listing → entry x.1 es = Some x.2.1) as Hrest
        by (intros x Hx; apply Hent; by right).
    rewrite filter_cons. simpl.
    destruct c as [[data|]|sub]; simpl.
    + rewrite IH by done. unfold hash_file, open_read, update. rewrite Hn.
      by rewrite app_assoc.
    + rewrite IH by done. unfold hash_file, open_read. by rewrite Hn.
    + by apply IH.
Qed.

Lemma descend_listing es (listing : list (string * (node * list (list Byte.byte)))) h :
  (∀ x, x ∈ listing →
        entry x.1 es = Some x.2.1 ∧ ∀ h, walk x.2.1 h = h ++ concat x.2.2) →
  foldl (descend es) h (filter (λ x, is_dir x.2.1) listing).*1
  = h ++ concat (concat (omap (λ e, if is_dir e.2.1 then Some e.2.2 else None) listing)).
Proof.
  revert h. induction listing as [|[n [c st]] listing IH]; intros h Hent.
  - simpl. by rewrite app_nil_r.
  - destruct (Hent (n, (c, st))) as [Hn Hw]; [left|]. simpl in Hn, Hw.
    assert (∀ x, x ∈ listing →
              entry x.1 es = Some x.2.1 ∧ ∀ h, walk x.2.1 h = h ++ concat x.2.2) as Hrest
        by (intros x Hx; apply Hent; by right).
    rewrite filter_cons. simpl.
    destruct (is_dir c) eqn:Hc; simpl.
    + rewrite IH by done. unfold descend. rewrite Hn, Hw.
      by rewrite concat_app, app_assoc.
    + by apply IH.
Qed.

(** On a tree whose names are unique, the walk feeds the hasher the
    contents the reference lists, in that order. *)
Lemma walk_sorted_contents t :
  ∀ h, well_formed t = true → walk t h = h ++ concat (sorted_contents t).
Proof.
  induction t as [c|es IH] using node_rect_entries; intros h Hwf.
  - simpl. by rewrite app_nil_r.
  - apply well_formed_Dir in Hwf as [Hnd Hsub].
    rewrite walk_Dir, sorted_contents_Dir. cbv zeta.
    set (ann := (λ e, (e.1, (e.2, sorted_contents e.2))) <$> es).
    set (listing := merge_sort by_name ann).
    assert (listing ≡ₚ ann) as Hp by apply merge_sort_Permutation.
    assert (StronglySorted by_name listing) as Hs
        by (apply StronglySorted_merge_sort; apply _).
    assert (∀ x, x ∈ listing →
              entry x.1 es = Some x.2.1 ∧ ∀ h, walk x.2.1 h = h ++ concat x.2.2) as Hent.
    { intros x Hx. rewrite Hp in Hx. apply list_elem_of_fmap in Hx as ([n c] & -> & Hin).
      simpl. split; [by apply entry_Some|].
      rewrite Forall_forall in IH, Hsub.
      intros h'. apply (IH _ Hin), (Hsub _ Hin). }
    rewrite (py_sort_unique (scandir_files es)
               (filter (λ x, ¬ is_dir x.2.1) listing).*1).
    2:{ by apply sorted_names_of_listing. }
    2:{ rewrite Hp. unfold ann. by rewrite scandir_files_annotated. }
    rewrite (py_sort_unique (scandir_dirs es)
               (filter (λ x, is_dir x.2.1) listing).*1).
    2:{ by apply sorted_names_of_listing. }
    2:{ rewrite Hp. unfold ann. by rewrite scandir_dirs_annotated. }
    rewrite hash_listing by (intros x Hx; by apply Hent).
    rewrite descend_listing by done.
    by rewrite concat_app, app_assoc.
Qed.

End Reference.

(** ** Names are not hashed *)

Section Renaming.
Variable f : string → string.
Hypothesis f_increasing : ∀ a b, str_lt a b → str_lt (f a) (f b).
Implicit Types (es : list (string * node)) (h : hasher) (n : string).

Lemma increasing_le a b : str_le a b → str_le (f a) (f b).
Proof. rewrite !str_le_lt_eq. intros [?| ->]; auto. Qed.

Lemma increasing_inj a b : f a = f b → a = b.
Proof.
  intros Hf.
  destruct (str_le_total a b) as [[Hlt|]%str_le_lt_eq|[Hlt|]%str_le_lt_eq]; try done.
  - apply f_increasing in Hlt. rewrite Hf in Hlt. by apply str_lt_irrefl in Hlt.
  - apply f_increasing in Hlt. rewrite Hf in Hlt. by apply str_lt_irrefl in Hlt.
Qed.

Lemma py_sort_increasing (l : list string) : py_sort (f <$> l) = f <$> py_sort l.
Proof.
  apply py_sort_unique.
  - apply (Sorted_fmap f str_le str_le); [apply increasing_le | apply py_sort_sorted].
  - by rewrite py_sort_perm.
Qed.

Lemma rename_Dir es : rename f (Dir es) = Dir ((λ e, (f e.1, rename f e.2)) <$> es).
Proof.
  simpl. f_equal. induction es as [|[n c] es IH]; [done|].
  rewrite fmap_cons. simpl. by f_equal.
Qed.

Lemma rename_is_dir t : is_dir (rename f t) = is_dir t.
Proof. by destruct t. Qed.

Lemma scandir_renamed es :
  scandir_dirs ((λ e, (f e.1, rename f e.2)) <$> es) = f <$> scandir_dirs es
  ∧ scandir_files ((λ e, (f e.1, rename f e.2)) <$> es) = f <$> scandir_files es.
Proof.
  unfold scandir_dirs, scandir_files.
  induction es as [|[n c] es [IH1 IH2]]; [done|].
  rewrite fmap_cons, !filter_cons. cbn [fst snd]. rewrite rename_is_dir.
  destruct (is_dir c); simpl; split;
    first [exact IH1 | exact IH2 | f_equal; first [exact IH1 | exact IH2]].
Qed.

Lemma entry_renamed n es :
  entry (f n) ((λ e, (f e.1, rename f e.2)) <$> es) = rename f <$> entry n es.
Proof.
  induction es as [|[m c] es IH]; [done|].
  rewrite fmap_cons. simpl.
  destruct (decide (m = n)) as [->|Hne].
  - by rewrite decide_True.
  - rewrite decide_False; [done|]. intros Hf. by apply increasing_inj in Hf.
Qed.

Lemma walk_rename t : ∀ h, walk (rename f t) h = walk t h.
Proof.
  induction t as [c|es IH] using node_rect_entries; intros h; [done|].
  rewrite rename_Dir, !walk_Dir.
  destruct (scandir_renamed es) as [-> ->].
  rewrite !py_sort_increasing, !foldl_fmap.
  set (es' := (λ e, (f e.1, rename f e.2)) <$> es).
  rewrite (foldl_ext_in (λ a fn, hash_file es' a (f fn)) (hash_file es)).
  2:{ intros fn _ a. unfold hash_file, open_read, es'. rewrite entry_renamed.
      by destruct (entry fn es) as [[[?|]|?]|]. }
  apply foldl_ext_in. unfold es'. intros d _ a. unfold descend. rewrite entry_renamed.
  destruct (entry d es) as [c|] eqn:Hc; [|done]. simpl.
  apply entry_elem in Hc. rewrite Forall_forall in IH. apply (IH _ Hc).
Qed.

End Renaming.

(** Prefixing every name is a renaming that keeps the order. *)
Lemma prefix_increasing (c : ascii) (a b : string) :
  str_lt a b → str_lt (String c a) (String c b).
Proof. unfold str_lt, String.ltb. simpl. by rewrite ascii_compare_refl. Qed.

(** ** Trees without a readable file *)

Lemma no_readable_file_Dir (es : list (string * node)) :
  no_readable_file (Dir es) = true ↔ Forall (λ e, no_readable_file e.2 = true) es.
Proof.
  simpl. induction es as [|[n c] es IH]; simpl.
  - split; [constructor | done].
  - by rewrite andb_true_iff, IH, Forall_cons.
Qed.

Lemma walk_no_readable_file (t : node) :
  ∀ h, no_readable_file t = true → walk t h = h.
Proof.
  induction t as [c|es IH] using node_rect_entries; intros h Hno; [done|].
  apply no_readable_file_Dir in Hno.
  rewrite Forall_forall in IH, Hno.
  assert (∀ (l : list string) h, foldl (hash_file es) h l = h) as Hfiles.
  { induction l as [|fn l IHl]; intros h'; simpl; [done|].
    rewrite <- (IHl h') at 2. f_equal.
    unfold hash_file, open_read.
    destruct (entry fn es) as [[[data|]|sub]|] eqn:Hfn; try done.
    apply entry_elem, Hno in Hfn. done. }
  assert (∀ (l : list string) h, foldl (descend es) h l = h) as Hdirs.
  { induction l as [|d l IHl]; intros h'; simpl; [done|].
    rewrite <- (IHl h') at 2. f_equal.
    unfold descend. destruct (entry d es) as [c|] eqn:Hd; [|done].
    apply entry_elem in Hd. apply (IH _ Hd), (Hno _ Hd). }
  by rewrite walk_Dir, Hfiles, Hdirs.
Qed.


(** C10 — the reference behind [calculate_checksum].  For every directory
    tree (names unique within each directory) the result is the lowercase
    hexadecimal SHA-256 digest, 64 characters, of the concatenation of the
    raw contents of its readable regular files taken in sorted traversal
    order.  Names are not hashed: renaming the entries by any function that
    keeps the order of names leaves the digest as it was.  A tree without
    a readable file has the digest of the empty byte string. *)
Theorem calculate_checksum_reference :
  (∀ t, well_formed t = true →
        calculate_checksum t = reference_checksum t
        ∧ forallb SHA256.lower_hex (list_ascii_of_string (calculate_checksum t)) = true
        ∧ String.length (calculate_checksum t) = 64)
  ∧ (∀ f t, (∀ a b, str_lt a b → str_lt (f a) (f b)) →
            calculate_checksum (rename f t) = calculate_checksum t)
  ∧ (∀ t, no_readable_file t = true →
          calculate_checksum t
          = "e3b0c44298fc1c149afbf4c8996fb92427ae41e4649b934ca495991b7852b855").
Proof.
  split; [|split].
  - intros t Hwf. split; [|apply hexdigest_lower].
    unfold calculate_checksum, reference_checksum, hexdigest.
    by rewrite walk_sorted_contents.
  - intros f t Hf. unfold calculate_checksum. by rewrite walk_rename.
  - intros t Hno. unfold calculate_checksum.
    rewrite walk_no_readable_file by done. apply sha256_empty.
Qed.

Lemma calculate_checksum_reference_witness :
  (calculate_checksum checkout_a = reference_checksum checkout_a
   ∧ forallb SHA256.lower_hex (list_ascii_of_string (calculate_checksum checkout_a)) = true
   ∧ String.length (calculate_checksum checkout_a) = 64)
  ∧ calculate_checksum (rename (String "x") checkout_a) = calculate_checksum checkout_a
  ∧ calculate_checksum checkout_locked
    = "e3b0c44298fc1c149afbf4c8996fb92427ae41e4649b934ca495991b7852b855".
Proof.
  split; [|split].
  - apply (proj1 calculate_checksum_reference checkout_a). reflexivity.
  - apply (proj1 (proj2 calculate_checksum_reference) (String "x") checkout_a).
    apply prefix_increasing.
  - apply (proj2 (proj2 calculate_checksum_reference) checkout_locked). reflexivity.
Defined.

Example reference_checksum_checkout_a :
  reference_checksum checkout_a
  = "147041dc916751f5dfff722fcf3109d58028221c0c01b9067d000ee771ccfbcd".
Proof. vm_compute. reflexivity. Qed.

Example renamed_checkout_a :
  rename (String "x") checkout_a
  = Dir [ ("xsrc", Dir [ ("xmain.py", File (Some (bytes_of "print(1)")));
                         ("xlib.py", File (Some (bytes_of "x = 2"))) ]);
          ("xREADME.md", File (Some (bytes_of "# demo")));
          ("xsecret.key", File None) ].
Proof. reflexivity. Qed.

(** ** One repository *)

Ltac unfold_py :=
  unfold clone_repository, run_clone, create_archive, shutil_make_archive,
    mkdir_temp, shutil_rmtree, checksum_of, stat, path_exists, path_unlink,
    shutil_copy2, log_error, print,
    with_local, try_except, on_self, local, bind, ret, lift, gets, modify in *.

Section OneRepository.
Variable E : Externals.
Implicit Types (s : System) (name : string).

(** [backup_repository], path by path. *)
Lemma backup_repository_unfold name s :
  backup_repository E name s
  = match mkdir E (temp_path s name) with
    | Raise e => (Raise e, s)
    | Ok _ =>
      let s1 := match workspaces s !! name with
                | Some _ => s
                | None => with_workspaces (insert name (Dir [])) s
                end in
      let info0 := Info.mk name (timestamp s) "failed" None 0 None None in
      let caught info e s' :=
        (Ok (Info.set_error (Some e) info),
         with_log (Log.add_error ("Backup failed for " +:+ name +:+ ": " +:+ e)) s') in
      match subprocess_run E (gh_clone_argv name (temp_path s name)) with
      | Raise e =>
          (Ok info0, with_log (Log.add_error ("Failed to clone " +:+ name +:+ ": " +:+ e)) s1)
      | Ok _ =>
        let s2 := with_workspaces (insert name (checkout E name)) s1 in
        let a := make_archive E (file_path s (archive_base s name)) (checkout E name) in
        let s3 := match written a with
                  | Some st => with_store (insert (archive_file s name) st) s2
                  | None => s2
                  end in
        let info1 := Info.set_checksum (Some (calculate_checksum (checkout E name))) info0 in
        match outcome a with
        | Raise e => caught info1 e s3
        | Ok _ =>
          let info2 := Info.set_archive_path (Some (file_path s (archive_file s name))) info1 in
          match store s3 !! archive_file s name with
          | None =>
              caught info2 ("[Errno 2] No such file or directory: '"
                            +:+ file_path s (archive_file s name) +:+ "'") s3
          | Some st =>
            let info3 := Info.set_size_bytes (st_size st) info2 in
            let info4 := if (0 <? st_size st)%N then Info.set_status "success" info3
                         else info3 in
            match rmtree E (temp_path s name) with
            | Raise e => caught info4 e s3
            | Ok _ => (Ok info4, with_workspaces (delete name) s3)
            end
          end
        end
      end
    end.
Proof.
  unfold backup_repository. unfold_py.
  unfold workspace, archive_file, archive_base, file_path, temp_path.
  destruct (mkdir E _) as [[]|e]; [|done].
  destruct (workspaces s !! name) as [old|] eqn:Hws; simpl;
    (destruct (subprocess_run E _) as [out|e]; [|done]; simpl;
     rewrite lookup_insert_eq; simpl;
     destruct (make_archive E _ _) as [[st|] [[]|e]]; simpl; try done;
     try (destruct (store s !! _) as [st'|] eqn:Hst; simpl; [|done]);
     repeat first
       [ rewrite lookup_insert_eq
       | rewrite bool_decide_eq_true_2 by eauto
       | progress simpl
       | match goal with
         | H : store s !! _ = Some _ |- _ => rewrite H
         | |- context [(0 <? ?n)%N] => destruct (0 <? n)%N
         | |- context [rmtree E ?p] => destruct (rmtree E p) as [[]|?]
         end ];
     done).
Qed.

End OneRepository.

Section OneRepositoryFacts.
Variable E : Externals.
Implicit Types (s : System) (name : string) (info : Info.t).

Ltac by_paths H :=
  rewrite backup_repository_unfold in H; cbv zeta in H;
  repeat case_match; simplify_eq/=.

(** The only fault that leaves [backup_repository] is one of the
    [mkdir] before the [try]. *)
Lemma backup_repository_returns name s :
  mkdir E (temp_path s name) = Ok tt →
  ∃ info s', backup_repository E name s = (Ok info, s').
Proof.
  intros Hmk. rewrite backup_repository_unfold, Hmk. cbv zeta.
  repeat case_match; eauto.
Qed.

Lemma backup_repository_raises name s e s' :
  backup_repository E name s = (Raise e, s') →
  mkdir E (temp_path s name) = Raise e ∧ s' = s.
Proof. intros H. by by_paths H. Qed.

(** What a call leaves alone. *)
Lemma backup_repository_frame name s r s' :
  backup_repository E name s = (r, s') →
  same_run s s'
  ∧ sink s' = sink s ∧ stdout s' = stdout s
  ∧ Log.repositories (backup_log s') = Log.repositories (backup_log s)
  ∧ Log.timestamp (backup_log s') = Log.timestamp (backup_log s)
  ∧ Log.status (backup_log s') = Log.status (backup_log s)
  ∧ Log.summary (backup_log s') = Log.summary (backup_log s).
Proof. intros H. unfold same_run. by by_paths H. Qed.

Lemma backup_repository_store name s r s' :
  backup_repository E name s = (r, s') →
  (∀ k, k ≠ archive_file s name → store s' !! k = store s !! k)
  ∧ (∀ k, is_Some (store s !! k) → is_Some (store s' !! k)).
Proof.
  intros H.
  assert (store s' = store s
          ∨ ∃ st, store s' = <[archive_file s name := st]> (store s)) as [->| [st ->]]
    by (by_paths H; eauto).
  - done.
  - split; intros k Hk; [by rewrite lookup_insert_ne|].
    destruct (decide (archive_file s name = k)) as [->|];
      [rewrite lookup_insert_eq; eauto | by rewrite lookup_insert_ne].
Qed.

Lemma backup_repository_errors name s r s' :
  backup_repository E name s = (r, s') →
  Log.errors (backup_log s') = Log.errors (backup_log s)
  ∨ ∃ e, Log.errors (backup_log s') = Log.errors (backup_log s) ++ [e].
Proof. intros H. by_paths H; eauto. Qed.

Lemma backup_repository_name name s info s' :
  backup_repository E name s = (Ok info, s') →
  Info.name info = name
  ∧ (Info.status info = "success" ∨ Info.status info = "failed").
Proof. intros H. by_paths H; auto. Qed.

(** A record reaches "success" only past the verification. *)
Lemma backup_repository_success name s info s' :
  backup_repository E name s = (Ok info, s') →
  Info.status info = "success" →
  Info.checksum info = Some (calculate_checksum (checkout E name))
  ∧ Info.archive_path info = Some (file_path s (archive_file s name))
  ∧ ∃ st, store s' !! archive_file s name = Some st
          ∧ st_size st = Info.size_bytes info
          ∧ (0 < Info.size_bytes info)%N.
Proof.
  intros H Hs. by_paths H; try done.
  all: repeat split; try done; eexists; repeat split; try done.
  all: by apply N.ltb_lt.
Qed.

(** What a record that stays "failed" holds. *)
Lemma backup_repository_failed name s info s' :
  backup_repository E name s = (Ok info, s') →
  Info.status info = "failed" →
  Info.size_bytes info = 0%N
  ∧ match subprocess_run E (gh_clone_argv name (temp_path s name)) with
    | Raise _ => Info.checksum info = None ∧ Info.archive_path info = None
    | Ok _ => Info.checksum info = Some (calculate_checksum (checkout E name))
    end.
Proof.
  intros H Hs. by_paths H; try done.
  all: split; [|done].
  all: match goal with H : (0 <? ?n)%N = false |- _ => apply N.ltb_ge in H; lia end.
Qed.

End OneRepositoryFacts.

(** ** The run *)

Section Run.
Variable E : Externals.
Implicit Types (s : System) (name : string) (repos : list string).

Lemma get_all_repositories_unfold s :
  get_all_repositories E s
  = match listing E with
    | Ok names => (Ok names, s)
    | Raise e => (Ok [], with_log (Log.add_error ("Failed to list repositories: " +:+ e)) s)
    end.
Proof.
  unfold get_all_repositories, listing. unfold_py.
  destruct (subprocess_run E gh_list_argv) as [out|e]; [|done].
  destruct (json_loads E out) as [repos|e]; [|done].
  by destruct (listed_names repos).
Qed.

Lemma backup_one_unfold name s :
  backup_one E name s
  = match backup_repository E name
            (with_stdout (λ out, out ++ ["Backing up " +:+ name +:+ "..."]) s) with
    | (Ok info, s1) =>
        (Ok tt,
         with_stdout
           (λ out, out ++ [if is_success info
                           then "  ✓ Success: " +:+ format_thousands (Info.size_bytes info)
                                +:+ " bytes"
                           else "  ✗ Failed"])
           (with_log (Log.add_repository info) s1))
    | (Raise e, s1) => (Raise e, s1)
    end.
Proof.
  unfold backup_one. unfold_py.
  destruct (backup_repository E name _) as [[info|e] s1]; [|done].
  by destruct (is_success info).
Qed.

Lemma backup_all_repositories_unfold s :
  backup_all_repositories E s
  = match get_all_repositories E s with
    | (Raise e, s0) => (Raise e, s0)
    | (Ok repos, s0) =>
        match for_each repos (backup_one E)
                (with_stdout (λ out, out ++ ["Starting backup of " +:+ pretty (length repos)
                                             +:+ " repositories..."]) s0) with
        | (Raise e, s2) => (Raise e, s2)
        | (Ok _, s2) =>
            let success_count :=
              Z.of_nat (length (List.filter is_success (Log.repositories (backup_log s2)))) in
            let total := Z.of_nat (length repos) in
            let s3 :=
              with_log (Log.set_summary
                          (Summary.mk total success_count (total - success_count)%Z))
                (with_log (Log.set_status
                             (if decide (success_count = total) then "completed"
                              else "partial")) s2) in
            (Ok (backup_log s3), s3)
        end
    end.
Proof.
  unfold backup_all_repositories. unfold_py.
  destruct (get_all_repositories E s) as [[repos|e] s0]; [|done].
  by destruct (for_each repos (backup_one E) _) as [[[]|e] s2].
Qed.

(** One turn of the loop: what it leaves alone, and the record it adds. *)
Lemma backup_one_step name s r s' :
  backup_one E name s = (r, s') →
  same_run s s'
  ∧ (∀ k, k ≠ archive_file s name → store s' !! k = store s !! k)
  ∧ (∀ k, is_Some (store s !! k) → is_Some (store s' !! k))
  ∧ (∃ errs, Log.errors (backup_log s') = Log.errors (backup_log s) ++ errs)
  ∧ match r with
    | Ok _ =>
        ∃ info s1,
          backup_repository E name
            (with_stdout (λ out, out ++ ["Backing up " +:+ name +:+ "..."]) s) = (Ok info, s1)
          ∧ Log.repositories (backup_log s') = Log.repositories (backup_log s) ++ [info]
          ∧ store s' = store s1
          ∧ Log.errors (backup_log s') = Log.errors (backup_log s1)
    | Raise e =>
        mkdir E (temp_path s name) = Raise e
        ∧ Log.repositories (backup_log s') = Log.repositories (backup_log s)
    end.
Proof.
  rewrite backup_one_unfold.
  destruct (backup_repository E name _) as [[info|e] s1] eqn:Hrepo; intros [= <- <-].
  - destruct (backup_repository_frame _ _ _ _ _ Hrepo) as ([Hd Ht] & _ & _ & Hrecs & _).
    destruct (backup_repository_store _ _ _ _ _ Hrepo) as [Hne Hmono].
    split; [done|]. split; [done|]. split; [done|]. split.
    + destruct (backup_repository_errors _ _ _ _ _ Hrepo) as [He|[e He]];
        simpl in *; rewrite He; [exists []; by rewrite app_nil_r | eauto].
    + exists info, s1. simpl. by rewrite Hrecs.
  - apply backup_repository_raises in Hrepo as [Hmk ->]. simpl.
    repeat split; try done. exists []. by rewrite app_nil_r.
Qed.

Lemma same_run_trans s1 s2 s3 : same_run s1 s2 → same_run s2 s3 → same_run s1 s3.
Proof. unfold same_run. intros [-> ->] [-> ->]. done. Qed.

Lemma same_run_archive_file s s' name : same_run s s' → archive_file s' name = archive_file s name.
Proof. unfold archive_file, archive_base. by intros [_ ->]. Qed.

Lemma same_run_temp_path s s' name : same_run s s' → temp_path s' name = temp_path s name.
Proof. unfold temp_path. by intros [-> _]. Qed.

Lemma archived_later s s' (r : Info.t) :
  same_run s s' →
  (∀ k, is_Some (store s !! k) → is_Some (store s' !! k)) →
  archived s r → archived s' r.
Proof.
  intros Hrun Hmono (Hc & Hp & Hf & Hn). unfold archived.
  rewrite (same_run_archive_file s s') by done.
  unfold file_path. destruct Hrun as [-> _]. auto.
Qed.

(** The loop: the records it appends, one for each repository it got to,
    every successful one archived. *)
Lemma for_each_backup_one repos : ∀ s r s',
  for_each repos (backup_one E) s = (r, s') →
  same_run s s'
  ∧ (∀ k, is_Some (store s !! k) → is_Some (store s' !! k))
  ∧ (∃ errs, Log.errors (backup_log s') = Log.errors (backup_log s) ++ errs)
  ∧ ∃ records,
      Log.repositories (backup_log s') = Log.repositories (backup_log s) ++ records
      ∧ (∀ rec, rec ∈ records → Info.status rec = "success" → archived s' rec)
      ∧ match r with
        | Ok _ => Info.name <$> records = repos
        | Raise e =>
            ∃ name, name ∈ repos ∧ mkdir E (temp_path s name) = Raise e
                    ∧ length records < length repos
        end.
Proof.
  induction repos as [|name repos IH]; intros s r s'.
  - intros [= <- <-]. split; [by split|]. split; [done|].
    split; [exists []; by rewrite app_nil_r|].
    exists []. rewrite app_nil_r. split; [done|].
    split; [by intros rec ?%elem_of_nil | done].
  - cbn [for_each]. unfold bind at 1.
    destruct (backup_one E name s) as [[[]|e] s1] eqn:Hone.
    + apply backup_one_step in Hone as (Hrun1 & _ & Hmono1 & [errs1 Herr1] & Hok).
      destruct Hok as (info & s0 & Hrepo & Hrecs1 & Hst & _).
      intros Hrest. apply IH in Hrest as (Hrun2 & Hmono2 & [errs2 Herr2] & recs & Hrecs2 & Harch & Hr).
      split; [by eapply same_run_trans|]. split; [by auto|]. split.
      { exists (errs1 ++ errs2). by rewrite Herr2, Herr1, app_assoc. }
      exists (info :: recs). split; [by rewrite Hrecs2, Hrecs1, <- app_assoc|]. split.
      * intros rec [->|Hin]%elem_of_cons Hs; [|by auto].
        destruct (backup_repository_name _ _ _ _ _ Hrepo) as [Hname _].
        destruct (backup_repository_frame _ _ _ _ _ Hrepo) as (Hrun0 & _).
        destruct (backup_repository_success _ _ _ _ _ Hrepo Hs) as (Hck & Hpath & st & Hfile & _ & Hpos).
        apply (archived_later s1); [done..|].
        unfold archived. rewrite Hname, Hst, Hck.
        rewrite (same_run_archive_file s s1) by done.
        destruct Hrun1 as [Hd _]. unfold file_path. rewrite Hd.
        change (archive_file (with_stdout _ s) name) with (archive_file s name) in *.
        rewrite Hfile. repeat split; eauto.
      * destruct r as [[]|e].
        -- rewrite fmap_cons. f_equal; [|done].
           by destruct (backup_repository_name _ _ _ _ _ Hrepo).
        -- destruct Hr as (n & Hn & Hmk & Hlen). exists n. split; [by right|]. split.
           ++ by rewrite <- (same_run_temp_path s s1).
           ++ simpl. lia.
    + apply backup_one_step in Hone as (Hrun1 & _ & Hmono1 & Herr1 & Hmk & Hrecs1).
      intros [= <- <-]. split; [done|]. split; [done|]. split; [done|].
      exists []. rewrite app_nil_r. split; [done|]. split.
      * by intros rec ?%elem_of_nil.
      * exists name. split; [by left|]. split; [done|]. simpl. lia.
Qed.

End Run.

(** ** The enumerator *)

Lemma listed_names_Ok (repos : list (gmap string string)) (names : list string) :
  listed_names repos = Ok names →
  ∃ all, Forall2 (λ repo n, repo !! "name" = Some n) repos all
         ∧ names = filter (λ n, n ≠ "backup") all.
Proof.
  revert names. induction repos as [|repo repos IH]; simpl; intros names.
  - intros [= <-]. exists []. split; [constructor | done].
  - destruct (repo !! "name") as [n|] eqn:Hn; [|done].
    destruct (listed_names repos) as [rest|e]; [|done].
    destruct (IH rest eq_refl) as (all & Hall & ->).
    intros [= <-]. exists (n :: all). split; [by constructor|].
    rewrite filter_cons. repeat case_decide; done.
Qed.

(** C9 — the enumerator.  The listing command asks for at most 100
    repositories.  The call never raises: when the listing succeeds it
    returns the listed names other than "backup", in the order listed, and
    leaves the run alone; when the listing fails at any point (the command,
    the parsing of its output, a descriptor without a name) it returns the
    empty list and appends exactly one diagnostic to the errors of the
    run. *)
Theorem get_all_repositories_contract (E : Externals) (s : System) :
  option_value "--limit" gh_list_argv = Some "100"
  ∧ (∃ names s', get_all_repositories E s = (Ok names, s') ∧ "backup" ∉ names)
  ∧ match listing E with
    | Ok names =>
        get_all_repositories E s = (Ok names, s)
        ∧ ∃ out repos all,
            subprocess_run E gh_list_argv = Ok out
            ∧ json_loads E out = Ok repos
            ∧ Forall2 (λ repo n, repo !! "name" = Some n) repos all
            ∧ names = filter (λ n, n ≠ "backup") all
    | Raise e =>
        ∃ s', get_all_repositories E s = (Ok [], s')
              ∧ Log.errors (backup_log s')
                = Log.errors (backup_log s) ++ ["Failed to list repositories: " +:+ e]
              ∧ Log.repositories (backup_log s') = Log.repositories (backup_log s)
              ∧ store s' = store s
    end.
Proof.
  split; [reflexivity|].
  rewrite get_all_repositories_unfold.
  assert (∀ names, listing E = Ok names →
            ∃ out repos all,
              subprocess_run E gh_list_argv = Ok out
              ∧ json_loads E out = Ok repos
              ∧ Forall2 (λ repo n, repo !! "name" = Some n) repos all
              ∧ names = filter (λ n, n ≠ "backup") all) as Hok.
  { unfold listing. intros names.
    destruct (subprocess_run E gh_list_argv) as [out|e]; [|done].
    destruct (json_loads E out) as [repos|e] eqn:Hjson; [|done].
    intros (all & Hall & Hnames)%listed_names_Ok. exists out, repos, all. auto. }
  destruct (listing E) as [names|e].
  - destruct (Hok names eq_refl) as (out & repos & all & Hrun & Hjson & Hall & Hnames).
    split; [|split; [done | exists out, repos, all; auto]].
    exists names, s. split; [done|]. rewrite Hnames.
    intros [Hne _]%list_elem_of_filter. done.
  - split; [|by eexists].
    eexists [], _. split; [done|]. apply not_elem_of_nil.
Qed.

Example get_all_repositories_fleet :
  get_all_repositories fleet machine = (Ok ["alpha"; "beta"], machine).
Proof. vm_compute. reflexivity. Qed.

Example get_all_repositories_gh_missing :
  get_all_repositories gh_missing machine
  = (Ok [],
     with_log (Log.add_error
                 "Failed to list repositories: [Errno 2] No such file or directory: 'gh'")
       machine).
Proof. vm_compute. reflexivity. Qed.

(** ** The status and the summary of the run *)

Lemma filter_is_success_length (records : list Info.t) :
  (length (List.filter is_success records) ≤ length records)%nat
  ∧ (length (List.filter is_success records) = length records
     ↔ ∀ r, r ∈ records → Info.status r = "success").
Proof.
  induction records as [|r records [IHle IH]]; simpl.
  - split; [lia|]. split; [by intros _ r ?%elem_of_nil | done].
  - destruct (is_success r) eqn:Hr; unfold is_success in Hr;
      [apply bool_decide_eq_true in Hr | apply bool_decide_eq_false in Hr]; simpl.
    + split; [lia|]. split.
      * intros Hlen r' [->|Hin]%elem_of_cons; [done|]. apply IH; [lia | done].
      * intros Hall.
        assert (length (List.filter is_success records) = length records) as Hlen
            by (apply IH; intros r' Hin; apply Hall; by right).
        lia.
    + split; [lia|]. split; [lia|].
      intros Hall. destruct Hr. apply Hall. by left.
Qed.



Example run_gh_missing :
  let s' := (backup_all_repositories gh_missing machine).2 in
  Log.status (backup_log s') = "completed"
  ∧ Log.summary (backup_log s') = Some (Summary.mk 0 0 0)
  ∧ Log.errors (backup_log s')
    = ["Failed to list repositories: [Errno 2] No such file or directory: 'gh'"].
Proof. vm_compute. auto. Qed.

(** ** Records of the run *)

Section Records.
Variable E : Externals.
Implicit Types (s : System) (name : string) (repos : list string).

(** What the run appends to the log, whether it ends or not. *)
Lemma backup_all_repositories_records s r s' :
  backup_all_repositories E s = (r, s') →
  same_run s s'
  ∧ ∃ records,
      Log.repositories (backup_log s') = Log.repositories (backup_log s) ++ records
      ∧ (∀ rec, rec ∈ records → Info.status rec = "success" → archived s' rec)
      ∧ (∀ repos s0,
           get_all_repositories E s = (Ok repos, s0) →
           match r with
           | Ok _ => Info.name <$> records = repos
           | Raise _ => length records < length repos
           end).
Proof.
  rewrite backup_all_repositories_unfold, !get_all_repositories_unfold.
  set (s0 := match listing E with
             | Ok _ => s
             | Raise e => with_log (Log.add_error ("Failed to list repositories: " +:+ e)) s
             end).
  set (repos := match listing E with Ok names => names | Raise _ => [] end).
  assert (match listing E with
          | Ok names => (Ok names, s)
          | Raise e => (Ok [], with_log (Log.add_error ("Failed to list repositories: " +:+ e)) s)
          end = (Ok repos, s0)) as -> by (unfold repos, s0; by destruct (listing E)).
  assert (same_run s s0 ∧ Log.repositories (backup_log s0) = Log.repositories (backup_log s))
    as [Hrun0 Hrecs0] by (unfold s0; destruct (listing E); by repeat split).
  destruct (for_each repos (backup_one E) _) as [[[]|e] s2] eqn:Hloop;
    apply for_each_backup_one in Hloop as (Hrun & _ & _ & records & Hrecs & Harch & Hnames);
    cbv zeta; intros [= <- <-].
  - split; [by eapply same_run_trans|].
    exists records. split; [simpl in *; by rewrite Hrecs, Hrecs0|].
    split; [exact Harch|]. by intros repos' s0' [= <- _].
  - split; [by eapply same_run_trans|].
    exists records. split; [simpl in *; by rewrite Hrecs, Hrecs0|].
    split; [exact Harch|]. intros repos' s0' [= <- _].
    by destruct Hnames as (? & _ & _ & ?).
Qed.

End Records.

(** C2 — the invariant of a successful record.  When [backup_repository]
    finalizes a record with status "success", the checksum and the archive
    path are present, the archive is on disk at that path with the size
    the record holds, and that size is positive.  At whatever point the
    run stops, every record it appended with status "success" is complete
    and its archive is on disk. *)
Theorem success_record_invariant (E : Externals) (s : System) :
  (∀ name info s1,
      backup_repository E name s = (Ok info, s1) →
      Info.status info = "success" →
      archived s1 info
      ∧ ∃ st, store s1 !! archive_file s1 name = Some st
              ∧ st_size st = Info.size_bytes info)
  ∧ (∀ r s',
      backup_all_repositories E s = (r, s') →
      ∃ records,
        Log.repositories (backup_log s') = Log.repositories (backup_log s) ++ records
        ∧ ∀ rec, rec ∈ records → Info.status rec = "success" → archived s' rec).
Proof.
  split.
  - intros name info s1 Hrepo Hs.
    destruct (backup_repository_name _ _ _ _ _ Hrepo) as [Hname _].
    destruct (backup_repository_frame _ _ _ _ _ Hrepo) as (Hrun & _).
    destruct (backup_repository_success _ _ _ _ _ Hrepo Hs)
      as (Hck & Hpath & st & Hfile & Hsize & Hpos).
    unfold archived. rewrite Hname, (same_run_archive_file s s1), Hck, Hpath, Hfile by done.
    unfold file_path. destruct Hrun as [-> _]. repeat split; eauto.
  - intros r s' Hrun.
    apply backup_all_repositories_records in Hrun as (_ & records & Hrecs & Harch & _).
    by exists records.
Qed.

Lemma success_record_invariant_witness :
  let s' := (backup_all_repositories beta_empty_archive machine).2 in
  ∃ alpha beta,
    Log.repositories (backup_log s') = [alpha; beta]
    ∧ Info.status alpha = "success" ∧ Info.status beta = "failed"
    ∧ archived s' alpha
    ∧ archived (backup_repository fleet "alpha" machine).2 alpha.
Proof.
  intros s'.
  assert (archived (backup_repository fleet "alpha" machine).2
            (Info.mk "alpha" "20240101_000000" "success"
               (Some "147041dc916751f5dfff722fcf3109d58028221c0c01b9067d000ee771ccfbcd")
               2048 (Some "/home/ubuntu/backups/alpha_20240101_000000.tar.gz") None))
    as Hone.
  { apply (proj1 (success_record_invariant fleet machine) "alpha");
      [vm_compute; reflexivity | reflexivity]. }
  destruct (proj2 (success_record_invariant beta_empty_archive machine)
              (Ok (backup_log s')) s') as (records & Hrecs & Harch).
  { vm_compute. reflexivity. }
  exists (Info.mk "alpha" "20240101_000000" "success"
            (Some "147041dc916751f5dfff722fcf3109d58028221c0c01b9067d000ee771ccfbcd")
            2048 (Some "/home/ubuntu/backups/alpha_20240101_000000.tar.gz") None).
  exists (Info.mk "beta" "20240101_000000" "failed"
            (Some "147041dc916751f5dfff722fcf3109d58028221c0c01b9067d000ee771ccfbcd")
            0 (Some "/home/ubuntu/backups/beta_20240101_000000.tar.gz") None).
  assert (Log.repositories (backup_log s')
          = [Info.mk "alpha" "20240101_000000" "success"
               (Some "147041dc916751f5dfff722fcf3109d58028221c0c01b9067d000ee771ccfbcd")
               2048 (Some "/home/ubuntu/backups/alpha_20240101_000000.tar.gz") None;
             Info.mk "beta" "20240101_000000" "failed"
               (Some "147041dc916751f5dfff722fcf3109d58028221c0c01b9067d000ee771ccfbcd")
               0 (Some "/home/ubuntu/backups/beta_20240101_000000.tar.gz") None]) as Hlog
      by (vm_compute; reflexivity).
  split; [exact Hlog|]. split; [reflexivity|]. split; [reflexivity|].
  split; [|exact Hone].
  apply Harch; [|reflexivity].
  rewrite Hlog in Hrecs. simpl in Hrecs. rewrite <- Hrecs. left.
Defined.

(** ** Records of failed backups *)

Section Failures.
Variable E : Externals.
Implicit Types (s : System) (name : string) (info : Info.t).

Ltac by_paths H :=
  rewrite backup_repository_unfold in H; cbv zeta in H;
  repeat case_match; simplify_eq/=.

(** The outcome of each path of [backup_repository]: the status, and the
    diagnostic the path appends to the errors of the run. *)
Lemma backup_repository_outcome name s info s' :
  backup_repository E name s = (Ok info, s') →
  recorded_outcome E name s info s'.
Proof.
  intros H. unfold recorded_outcome.
  rewrite backup_repository_unfold in H. cbv zeta in H.
  destruct (mkdir E _) as [[]|?]; [|done].
  destruct (workspaces s !! name) as [old|]; simpl in H;
    (destruct (subprocess_run E _) as [out|e]; [|by simplify_eq/=];
     destruct (make_archive E _ _) as [[st|] [[]|e]]; simpl in *;
     [ rewrite lookup_insert_eq in H;
       destruct (rmtree E _) as [[]|e]; simplify_eq/=; rewrite lookup_insert_eq;
       by destruct (0 <? st_size st)%N
     | by simplify_eq/=
     | destruct (store s !! archive_file s name) as [st|] eqn:Hst;
       [ destruct (rmtree E _) as [[]|e]; simplify_eq/=; rewrite Hst;
         by destruct (0 <? st_size st)%N
       | simplify_eq/=; by rewrite Hst ]
     | by simplify_eq/= ]).
Qed.

(** The fields of the record on each path. *)
Lemma backup_repository_fields name s info s' :
  backup_repository E name s = (Ok info, s') →
  (Info.status info = "failed" → Info.size_bytes info = 0%N)
  ∧ match subprocess_run E (gh_clone_argv name (temp_path s name)) with
    | Raise _ => Info.checksum info = None ∧ Info.archive_path info = None
    | Ok _ =>
        Info.checksum info = Some (calculate_checksum (checkout E name))
        ∧ match outcome (make_archive E (file_path s (archive_base s name))
                           (checkout E name)) with
          | Raise _ => Info.archive_path info = None
          | Ok _ => Info.archive_path info = Some (file_path s (archive_file s name))
          end
    end.
Proof.
  intros H. split.
  - intros Hs. by destruct (backup_repository_failed E _ _ _ _ H Hs).
  - by_paths H; done.
Qed.

End Failures.

(** C4, as the specification states it, fails: a record whose archive
    fails the verification stays "failed" and keeps its checksum and its
    archive path. *)
Lemma failed_record_keeps_fields :
  ∃ info s',
    backup_repository beta_empty_archive "beta" machine = (Ok info, s')
    ∧ Info.status info = "failed"
    ∧ ¬ (Info.checksum info = None ∧ Info.archive_path info = None
         ∧ Info.size_bytes info = 0%N).
Proof.
  eexists _, _. split; [vm_compute; reflexivity|]. split; [reflexivity|].
  intros (Hck & _). discriminate Hck.
Qed.

(** C4, amended — the fields of a record that fails.  A failed clone, a
    fault of the archive call, a missing archive and an empty archive all
    leave the status "failed"; a record with status "failed" has size 0.
    After a failed clone the checksum and the archive path are absent.
    Once the clone succeeded the checksum is the one of the checkout; the
    archive path is absent when the archive call raised and present
    otherwise. *)
Theorem failed_record_fields (E : Externals) (name : string) (s : System)
    (info : Info.t) (s' : System) :
  backup_repository E name s = (Ok info, s') →
  (Info.status info = "failed" → Info.size_bytes info = 0%N)
  ∧ match subprocess_run E (gh_clone_argv name (temp_path s name)) with
    | Raise _ =>
        Info.status info = "failed"
        ∧ Info.checksum info = None ∧ Info.archive_path info = None
    | Ok _ =>
        Info.checksum info = Some (calculate_checksum (checkout E name))
        ∧ match outcome (make_archive E (file_path s (archive_base s name))
                           (checkout E name)) with
          | Raise _ => Info.status info = "failed" ∧ Info.archive_path info = None
          | Ok _ =>
              Info.archive_path info = Some (file_path s (archive_file s name))
              ∧ match store s' !! archive_file s name with
                | None => Info.status info = "failed"
                | Some st => st_size st = 0%N → Info.status info = "failed"
                end
          end
    end.
Proof.
  intros H.
  destruct (backup_repository_fields E _ _ _ _ H) as [Hsize Hfields].
  pose proof (backup_repository_outcome E _ _ _ _ H) as Hout.
  unfold recorded_outcome in Hout.
  split; [done|].
  destruct (subprocess_run E _) as [out|e]; [|by destruct Hout, Hfields].
  destruct Hfields as [Hck Hpath]. split; [done|].
  destruct (outcome _) as [[]|e]; [|by destruct Hout].
  split; [done|].
  destruct (store s' !! archive_file s name) as [st|]; [|by destruct Hout].
  intros Hz. destruct Hout as [-> _]. by rewrite Hz.
Qed.

Lemma failed_record_fields_witness :
  let info := Info.mk "beta" "20240101_000000" "failed"
                (Some "147041dc916751f5dfff722fcf3109d58028221c0c01b9067d000ee771ccfbcd")
                0 (Some "/home/ubuntu/backups/beta_20240101_000000.tar.gz") None in
  let s' := (backup_repository beta_empty_archive "beta" machine).2 in
  backup_repository beta_empty_archive "beta" machine = (Ok info, s')
  ∧ (Info.status info = "failed" → Info.size_bytes info = 0%N).
Proof.
  intros info s'.
  assert (backup_repository beta_empty_archive "beta" machine = (Ok info, s')) as Hrun
      by (vm_compute; reflexivity).
  split; [exact Hrun|].
  exact (proj1 (failed_record_fields beta_empty_archive "beta" machine info s' Hrun)).
Defined.

(** ** The workspace *)

(** The workspace is removed on one path only: the one on which the clone
    succeeded, the archive call returned, the archive was found and
    [shutil.rmtree] itself succeeded.  The early return after a failed
    clone and the [except] branch both leave it in place. *)
Lemma backup_repository_workspace (E : Externals) (name : string) (s : System)
    (info : Info.t) (s' : System) :
  backup_repository E name s = (Ok info, s') →
  match subprocess_run E (gh_clone_argv name (temp_path s name)) with
  | Raise _ => is_Some (workspaces s' !! name)
  | Ok _ =>
      match outcome (make_archive E (file_path s (archive_base s name)) (checkout E name)),
            store s' !! archive_file s name,
            rmtree E (temp_path s name) with
      | Ok _, Some _, Ok _ => workspaces s' !! name = None
      | _, _, _ => workspaces s' !! name = Some (checkout E name)
      end
  end.
Proof.
  intros H. rewrite backup_repository_unfold in H. cbv zeta in H.
  destruct (mkdir E _) as [[]|?]; [|done].
  destruct (workspaces s !! name) as [old|] eqn:Hold; simpl in H;
    (destruct (subprocess_run E _) as [out|e];
     [|simplify_eq/=; rewrite ?lookup_insert_eq; eauto];
     destruct (make_archive E _ _) as [[st|] [[]|e]]; simpl in *;
     [ rewrite lookup_insert_eq in H;
       destruct (rmtree E _) as [[]|e]; simplify_eq/=;
       rewrite lookup_insert_eq; [apply lookup_delete_eq | apply lookup_insert_eq]
     | simplify_eq/=; repeat case_match; apply lookup_insert_eq
     | destruct (store s !! archive_file s name) as [st|] eqn:Hst;
       [ destruct (rmtree E _) as [[]|e]; simplify_eq/=; rewrite Hst;
         [apply lookup_delete_eq | apply lookup_insert_eq]
       | simplify_eq/=; rewrite Hst; apply lookup_insert_eq ]
     | simplify_eq/=; repeat case_match; apply lookup_insert_eq ]).
Qed.

(** C3 — the workspace after a failed clone.  When the clone of beta
    fails, the run ends with the workspace of beta still on disk, while
    the workspace of alpha, whose backup succeeded, is gone. *)
Theorem workspace_left_after_failed_clone :
  let s' := (backup_all_repositories beta_unreachable machine).2 in
  (backup_all_repositories beta_unreachable machine).1 = Ok (backup_log s')
  ∧ workspaces s' !! "beta" = Some (Dir [])
  ∧ workspaces s' !! "alpha" = None.
Proof. vm_compute. auto. Qed.

(** ** Isolation of the repositories *)

Lemma list_ascii_of_string_app (a b : string) :
  list_ascii_of_string (a +:+ b) = list_ascii_of_string a ++ list_ascii_of_string b.
Proof. induction a as [|c a IH]; simpl; [done | by rewrite IH]. Qed.

Lemma string_app_inj_r (a b c : string) : a +:+ c = b +:+ c → a = b.
Proof.
  intros H. apply (f_equal list_ascii_of_string) in H.
  rewrite !list_ascii_of_string_app in H. apply app_inv_tail in H.
  rewrite <- (string_of_list_ascii_of_string a), <- (string_of_list_ascii_of_string b).
  by rewrite H.
Qed.

(** Distinct repositories have distinct archives. *)
Lemma archive_file_inj (s : System) (a b : string) :
  archive_file s a = archive_file s b → a = b.
Proof.
  unfold archive_file, archive_base. intros H.
  apply string_app_inj_r in H. by apply string_app_inj_r in H.
Qed.

Section Isolation.
Variables E E' : Externals.
Implicit Types (s : System) (name : string) (repos : list string).

Lemma same_behaviour_same_run s s' name :
  same_run s s' → same_behaviour s name E E' → same_behaviour s' name E E'.
Proof.
  unfold same_run, same_behaviour, temp_path, file_path, archive_base.
  by intros [-> ->].
Qed.

(** A repository that both outsides treat alike gets the same record and
    the same archive, whatever happened to the others. *)
Lemma backup_repository_isolated name s1 s2 r1 s1' r2 s2' :
  same_run s1 s2 →
  store s1 !! archive_file s1 name = store s2 !! archive_file s1 name →
  same_behaviour s1 name E E' →
  backup_repository E name s1 = (r1, s1') →
  backup_repository E' name s2 = (r2, s2') →
  r1 = r2 ∧ store s1' !! archive_file s1 name = store s2' !! archive_file s1 name.
Proof.
  intros [Hd Ht] Hfile (Hm & Hc & Hco & Ha & Hr).
  rewrite !backup_repository_unfold. cbv zeta.
  unfold temp_path, file_path, archive_file, archive_base in *.
  rewrite Hd, Ht, <- Hm, <- Hc, <- Hco, <- Ha, <- Hr.
  destruct (mkdir E _) as [[]|?]; [|by intros [= <- <-] [= <- <-]].
  destruct (subprocess_run E _) as [out|e].
  2:{ destruct (workspaces s1 !! name), (workspaces s2 !! name);
        by intros [= <- <-] [= <- <-]. }
  destruct (make_archive E _ _) as [[st|] [[]|e]]; simpl.
  - destruct (workspaces s1 !! name), (workspaces s2 !! name); simpl;
      rewrite !lookup_insert_eq;
      destruct (rmtree E _) as [[]|?]; intros [= <- <-] [= <- <-]; simpl;
      by rewrite !lookup_insert_eq.
  - destruct (workspaces s1 !! name), (workspaces s2 !! name); simpl;
      intros [= <- <-] [= <- <-]; simpl; by rewrite !lookup_insert_eq.
  - destruct (workspaces s1 !! name), (workspaces s2 !! name); simpl;
      rewrite <- Hfile;
      (destruct (store s1 !! _) as [st|] eqn:Hst;
       [destruct (rmtree E _) as [[]|?]|]; intros [= <- <-] [= <- <-]; simpl;
       by rewrite <- ?Hfile, ?Hst).
  - destruct (workspaces s1 !! name), (workspaces s2 !! name); simpl;
      by intros [= <- <-] [= <- <-].
Qed.

(** The loop, run against two outsides that differ at one repository. *)
Lemma for_each_isolated (R : string) repos : ∀ s1 s2 s1' s2',
  same_run s1 s2 →
  (∀ k, k ≠ archive_file s1 R → store s1 !! k = store s2 !! k) →
  (∀ S, S ∈ repos → S ≠ R → same_behaviour s1 S E E') →
  for_each repos (backup_one E) s1 = (Ok tt, s1') →
  for_each repos (backup_one E') s2 = (Ok tt, s2') →
  ∃ records1 records2,
    Log.repositories (backup_log s1') = Log.repositories (backup_log s1) ++ records1
    ∧ Log.repositories (backup_log s2') = Log.repositories (backup_log s2) ++ records2
    ∧ records_except R records1 = records_except R records2.
Proof.
  induction repos as [|name repos IH]; intros s1 s2 s1' s2' Hrun Hstore Hsame.
  - intros [= <-] [= <-]. exists [], []. by rewrite !app_nil_r.
  - cbn [for_each]. unfold bind at 1 2.
    destruct (backup_one E name s1) as [[[]|?] t1] eqn:H1; [|done].
    destruct (backup_one E' name s2) as [[[]|?] t2] eqn:H2; [|done].
    apply backup_one_step in H1 as (Hrun1 & Hne1 & _ & _ & info1 & u1 & Hrepo1 & Hrecs1 & Hst1 & _).
    apply backup_one_step in H2 as (Hrun2 & Hne2 & _ & _ & info2 & u2 & Hrepo2 & Hrecs2 & Hst2 & _).
    assert (same_run t1 t2) as Hrun'.
    { destruct Hrun as [Hd Ht], Hrun1 as [Hd1 Ht1], Hrun2 as [Hd2 Ht2].
      split; congruence. }
    assert (archive_file s2 = archive_file s1) as Hfile
        by (unfold archive_file, archive_base; by destruct Hrun as [_ ->]).
    assert (archive_file t1 = archive_file s1) as Hfile1
        by (unfold archive_file, archive_base; by destruct Hrun1 as [_ ->]).
    destruct (backup_repository_name _ _ _ _ _ Hrepo1) as [Hname1 _].
    destruct (backup_repository_name _ _ _ _ _ Hrepo2) as [Hname2 _].
    intros Hloop1 Hloop2.
    destruct (decide (name = R)) as [->|HneR].
    + destruct (IH t1 t2 s1' s2') as (recs1 & recs2 & Hr1 & Hr2 & Heq); try done.
      * intros k Hk. rewrite Hfile1 in Hk.
        rewrite Hne1, Hne2 by (by rewrite ?Hfile). by apply Hstore.
      * intros S HS HSR. apply (same_behaviour_same_run s1); [done|].
        apply Hsame; [by right | done].
      * exists (info1 :: recs1), (info2 :: recs2).
        rewrite Hr1, Hrecs1, Hr2, Hrecs2, <- !app_assoc. split; [done|]. split; [done|].
        unfold records_except in *. rewrite !filter_cons.
        rewrite !decide_False by (intros Hn; by apply Hn). done.
    + assert (info1 = info2
              ∧ store u1 !! archive_file s1 name = store u2 !! archive_file s1 name)
        as [<- Hsame_file].
      { assert (same_run
                  (with_stdout (λ out, out ++ ["Backing up " +:+ name +:+ "..."]) s1)
                  (with_stdout (λ out, out ++ ["Backing up " +:+ name +:+ "..."]) s2))
          as Hrun0 by exact Hrun.
        assert (store s1 !! archive_file s1 name = store s2 !! archive_file s1 name)
          as Hfile0
          by (apply Hstore; intros Heq; by apply archive_file_inj in Heq).
        assert (same_behaviour s1 name E E') as Hsame0 by (apply Hsame; [by left | done]).
        destruct (backup_repository_isolated name _ _ _ _ _ _
                    Hrun0 Hfile0 Hsame0 Hrepo1 Hrepo2) as [[= Hi] Hf].
        done. }
      destruct (IH t1 t2 s1' s2') as (recs1 & recs2 & Hr1 & Hr2 & Heq); try done.
      * intros k Hk. rewrite Hfile1 in Hk.
        destruct (decide (k = archive_file s1 name)) as [->|Hkn].
        -- by rewrite Hst1, Hst2.
        -- rewrite Hne1, Hne2 by (by rewrite ?Hfile). by apply Hstore.
      * intros S HS HSR. apply (same_behaviour_same_run s1); [done|].
        apply Hsame; [by right | done].
      * exists (info1 :: recs1), (info1 :: recs2).
        rewrite Hr1, Hrecs1, Hr2, Hrecs2, <- !app_assoc. split; [done|]. split; [done|].
        unfold records_except in *. rewrite !filter_cons.
        rewrite !decide_True by (by rewrite Hname1). by rewrite Heq.
Qed.

End Isolation.

Section Diagnostics.
Variable E : Externals.
Implicit Types (s : System) (name : string) (repos : list string).

Lemma workspaces_allocated_same_run s s' repos :
  same_run s s' → workspaces_allocated E s repos → workspaces_allocated E s' repos.
Proof.
  intros Hrun Hall name Hin. rewrite (same_run_temp_path s s') by done. by apply Hall.
Qed.

(** With every workspace allocated, the loop runs to its end. *)
Lemma for_each_backup_one_returns repos s :
  workspaces_allocated E s repos →
  ∃ s', for_each repos (backup_one E) s = (Ok tt, s').
Proof.
  intros Hall.
  destruct (for_each repos (backup_one E) s) as [[[]|e] s'] eqn:Hloop; [by eexists|].
  apply for_each_backup_one in Hloop as (_ & _ & _ & records & _ & _ & name & Hin & Hmk & _).
  by rewrite (Hall name Hin) in Hmk.
Qed.

(** What a failing repository leaves in its record and in the errors. *)
Lemma backup_repository_failure name s info s' :
  backup_repository E name s = (Ok info, s') →
  (∀ e, clone_fails E s name e →
        Info.status info = "failed"
        ∧ ("Failed to clone " +:+ name +:+ ": " +:+ e) ∈ Log.errors (backup_log s'))
  ∧ (∀ e, archive_fails E s name e →
          Info.status info = "failed"
          ∧ ("Backup failed for " +:+ name +:+ ": " +:+ e) ∈ Log.errors (backup_log s'))
  ∧ (archive_empty E s name → Info.status info = "failed").
Proof.
  intros H. pose proof (backup_repository_outcome E _ _ _ _ H) as Hout.
  unfold recorded_outcome in Hout.
  unfold clone_fails, archive_fails, archive_empty.
  split; [|split].
  - intros e He. rewrite He in Hout. destruct Hout as [-> ->].
    split; [done|]. apply elem_of_app. right. by left.
  - intros e [[out Hc] Ha]. rewrite Hc, Ha in Hout. destruct Hout as [-> ->].
    split; [done|]. apply elem_of_app. right. by left.
  - intros [[out Hc] (st & Ha & Hz)]. rewrite Hc, Ha in Hout. simpl in Hout.
    assert (store s' !! archive_file s name = Some st) as Hst.
    { rewrite backup_repository_unfold in H. cbv zeta in H.
      rewrite Hc, Ha in H. simpl in H.
      destruct (mkdir E _) as [[]|?]; [|done].
      destruct (workspaces s !! name); simpl in H; rewrite lookup_insert_eq in H;
        destruct (rmtree E _) as [[]|?]; simplify_eq/=; by rewrite lookup_insert_eq. }
    rewrite Hst in Hout. destruct Hout as [-> _]. by rewrite Hz.
Qed.

Lemma failure_same_run s s' name :
  same_run s s' →
  (∀ e, clone_fails E s name e → clone_fails E s' name e)
  ∧ (∀ e, archive_fails E s name e → archive_fails E s' name e)
  ∧ (archive_empty E s name → archive_empty E s' name).
Proof.
  unfold same_run, clone_fails, archive_fails, archive_empty, temp_path, file_path,
    archive_base.
  by intros [-> ->].
Qed.

Lemma for_each_failures repos : ∀ s s',
  for_each repos (backup_one E) s = (Ok tt, s') →
  ∃ records,
    Log.repositories (backup_log s') = Log.repositories (backup_log s) ++ records
    ∧ ∀ rec, rec ∈ records →
        (∀ e, clone_fails E s (Info.name rec) e →
              Info.status rec = "failed"
              ∧ ("Failed to clone " +:+ Info.name rec +:+ ": " +:+ e)
                ∈ Log.errors (backup_log s'))
        ∧ (∀ e, archive_fails E s (Info.name rec) e →
                Info.status rec = "failed"
                ∧ ("Backup failed for " +:+ Info.name rec +:+ ": " +:+ e)
                  ∈ Log.errors (backup_log s'))
        ∧ (archive_empty E s (Info.name rec) → Info.status rec = "failed").
Proof.
  induction repos as [|name repos IH]; intros s s'.
  - intros [= <-]. exists []. rewrite app_nil_r. split; [done|]. by intros rec ?%elem_of_nil.
  - cbn [for_each]. unfold bind at 1.
    destruct (backup_one E name s) as [[[]|?] t] eqn:Hone; [|done].
    intros Hloop.
    apply backup_one_step in Hone as (Hrun1 & _ & _ & _ & info & u & Hrepo & Hrecs1 & _ & Herr1).
    pose proof (for_each_backup_one E _ _ _ _ Hloop) as (_ & _ & [errs Herrs] & _).
    destruct (IH _ _ Hloop) as (records & Hrecs & Hfail).
    destruct (backup_repository_name _ _ _ _ _ Hrepo) as [Hname _].
    destruct (backup_repository_failure _ _ _ _ Hrepo) as (Hclone & Harch & Hempty).
    exists (info :: records). split; [by rewrite Hrecs, Hrecs1, <- app_assoc|].
    intros rec [->|Hin]%elem_of_cons.
    + rewrite Hname. split; [|split].
      * intros e He. destruct (Hclone e He) as [Hs Hd]. split; [done|].
        rewrite Herrs, Herr1. apply elem_of_app. by left.
      * intros e He. destruct (Harch e He) as [Hs Hd]. split; [done|].
        rewrite Herrs, Herr1. apply elem_of_app. by left.
      * done.
    + destruct (Hfail rec Hin) as (Hc & Ha & He).
      destruct (failure_same_run s t (Info.name rec) Hrun1) as (Tc & Ta & Te).
      split; [|split]; eauto.
Qed.

End Diagnostics.

(** C1, as the specification states it, fails at the verification step:
    the archive of beta comes out empty, the record of beta is finalized
    as "failed", and no diagnostic is recorded: the errors of the run stay
    empty. *)
Lemma verification_failure_without_diagnostic :
  let s' := (backup_all_repositories beta_empty_archive machine).2 in
  archive_empty beta_empty_archive machine "beta"
  ∧ (∃ rec, rec ∈ Log.repositories (backup_log s')
            ∧ Info.name rec = "beta" ∧ Info.status rec = "failed")
  ∧ ¬ (∃ diagnostic, diagnostic ∈ Log.errors (backup_log s')).
Proof.
  intros s'. split; [|split].
  - split; [by eexists|]. eexists. split; [vm_compute; reflexivity | reflexivity].
  - exists (Info.mk "beta" "20240101_000000" "failed"
              (Some "147041dc916751f5dfff722fcf3109d58028221c0c01b9067d000ee771ccfbcd")
              0 (Some "/home/ubuntu/backups/beta_20240101_000000.tar.gz") None).
    split; [|done].
    assert (Log.repositories (backup_log s')
            = [Info.mk "alpha" "20240101_000000" "success"
                 (Some "147041dc916751f5dfff722fcf3109d58028221c0c01b9067d000ee771ccfbcd")
                 2048 (Some "/home/ubuntu/backups/alpha_20240101_000000.tar.gz") None;
               Info.mk "beta" "20240101_000000" "failed"
                 (Some "147041dc916751f5dfff722fcf3109d58028221c0c01b9067d000ee771ccfbcd")
                 0 (Some "/home/ubuntu/backups/beta_20240101_000000.tar.gz") None]) as ->
        by (vm_compute; reflexivity).
    right. left.
  - assert (Log.errors (backup_log s') = []) as -> by (vm_compute; reflexivity).
    intros [d Hd]. by apply elem_of_nil in Hd.
Qed.

(** C1, amended — isolation of a failing repository.  No fault leaves
    [backup_repository] once the workspace is allocated, and each of its
    paths records what [recorded_outcome] says: a diagnostic for a failed
    clone and for a caught fault, none for an archive that fails the
    verification.  On a run whose
    workspaces can all be allocated, the run comes to its end and appends
    one record per discovered repository, in order.  For a repository
    whose clone fails, or whose archive call raises, the record is
    finalized as "failed" and a diagnostic naming the repository and the
    fault is in the errors of the run; for a repository whose archive
    comes out empty the record is finalized as "failed".  The records of
    the other repositories are the ones of the run in which that
    repository is treated in any other way, successfully for instance. *)
Theorem failure_isolation (E : Externals) (s : System) (repos : list string) (s0 : System) :
  get_all_repositories E s = (Ok repos, s0) →
  workspaces_allocated E s repos →
  (∀ name t, mkdir E (temp_path t name) = Ok tt →
             ∃ info t', backup_repository E name t = (Ok info, t'))
  ∧ (∀ name t info t', backup_repository E name t = (Ok info, t') →
                       recorded_outcome E name t info t')
  ∧ ∃ log s' records,
      backup_all_repositories E s = (Ok log, s')
      ∧ Log.repositories log = Log.repositories (backup_log s) ++ records
      ∧ Info.name <$> records = repos
      ∧ (∀ rec, rec ∈ records →
           (∀ e, clone_fails E s (Info.name rec) e →
                 Info.status rec = "failed"
                 ∧ ("Failed to clone " +:+ Info.name rec +:+ ": " +:+ e) ∈ Log.errors log)
           ∧ (∀ e, archive_fails E s (Info.name rec) e →
                   Info.status rec = "failed"
                   ∧ ("Backup failed for " +:+ Info.name rec +:+ ": " +:+ e) ∈ Log.errors log)
           ∧ (archive_empty E s (Info.name rec) → Info.status rec = "failed"))
      ∧ (∀ R E',
           listing E' = listing E →
           (∀ S, S ∈ repos → S ≠ R → same_behaviour s S E E') →
           workspaces_allocated E' s repos →
           ∃ log' s'',
             backup_all_repositories E' s = (Ok log', s'')
             ∧ records_except R (Log.repositories log')
               = records_except R (Log.repositories log)).
Proof.
  intros Hlist Hall. split; [intros name t; apply backup_repository_returns|].
  split; [intros name t info t'; apply backup_repository_outcome|].
  rewrite get_all_repositories_unfold in Hlist.
  assert (same_run s s0 ∧ Log.repositories (backup_log s0) = Log.repositories (backup_log s))
    as [Hrun0 Hrecs0] by (destruct (listing E); simplify_eq/=; by repeat split).
  set (s1 := with_stdout (λ out, out ++ ["Starting backup of " +:+ pretty (length repos)
                                          +:+ " repositories..."]) s0).
  assert (same_run s s1) as Hrun1 by exact Hrun0.
  destruct (for_each_backup_one_returns E repos s1) as [s2 Hloop];
    [by apply (workspaces_allocated_same_run E s)|].
  pose proof (for_each_backup_one E _ _ _ _ Hloop) as (Hrun2 & _ & _ & records' & Hrecs' & _ & Hnames).
  destruct (for_each_failures E _ _ _ Hloop) as (records & Hrecs & Hfail).
  assert (records' = records) as -> by (rewrite Hrecs in Hrecs'; by apply app_inv_head in Hrecs').
  assert (∀ E0, listing E0 = listing E →
            backup_all_repositories E0 s
            = match for_each repos (backup_one E0) s1 with
              | (Raise e, t) => (Raise e, t)
              | (Ok _, t) =>
                  let success_count :=
                    Z.of_nat (length (List.filter is_success (Log.repositories (backup_log t)))) in
                  let total := Z.of_nat (length repos) in
                  let t' :=
                    with_log (Log.set_summary
                                (Summary.mk total success_count (total - success_count)%Z))
                      (with_log (Log.set_status
                                   (if decide (success_count = total) then "completed"
                                    else "partial")) t) in
                  (Ok (backup_log t'), t')
              end) as Hunfold.
  { intros E0 HE0.
    rewrite backup_all_repositories_unfold, get_all_repositories_unfold, HE0.
    unfold s1. clear -Hlist. by destruct (listing E); simplify_eq/=. }
  eexists _, _, records. split; [rewrite (Hunfold E eq_refl), Hloop; reflexivity|].
  assert (Log.repositories (backup_log s1) = Log.repositories (backup_log s)) as Hrecs1
      by exact Hrecs0.
  split; [simpl; by rewrite Hrecs, Hrecs1|]. split; [done|]. split.
  - intros rec Hin. destruct (Hfail rec Hin) as (Hc & Ha & He).
    destruct (failure_same_run E s s1 (Info.name rec) Hrun1) as (Tc & Ta & Te).
    simpl. split; [|split]; eauto.
  - intros R E' HE' Hsame Hall'.
    destruct (for_each_backup_one_returns E' repos s1) as [s2' Hloop'];
      [by apply (workspaces_allocated_same_run E' s)|].
    eexists _, _. split; [rewrite (Hunfold E' HE'), Hloop'; reflexivity|].
    destruct (for_each_isolated E E' R repos s1 s1 s2 s2') as (r1 & r2 & Hr1 & Hr2 & Heq);
      try done.
    { intros S HS HSR. apply (same_behaviour_same_run E E' s); auto. }
    simpl. rewrite Hr1, Hr2. unfold records_except in *.
    by rewrite !filter_app, Heq.
Qed.

Lemma failure_isolation_witness :
  ∃ log s' log' s'',
    backup_all_repositories beta_unreachable machine = (Ok log, s')
    ∧ backup_all_repositories fleet machine = (Ok log', s'')
    ∧ records_except "beta" (Log.repositories log')
      = records_except "beta" (Log.repositories log)
    ∧ "Failed to clone beta: Command returned non-zero exit status 1." ∈ Log.errors log.
Proof.
  destruct (failure_isolation beta_unreachable machine ["alpha"; "beta"] machine)
    as (_ & _ & log & s' & records & Hrun & _ & Hnames & Hfail & Hiso).
  - vm_compute. reflexivity.
  - intros name _. reflexivity.
  - destruct (Hiso "beta" fleet) as (log' & s'' & Hrun' & Heq).
    + vm_compute. reflexivity.
    + intros S [->|[->|[]%elem_of_nil]%elem_of_cons]%elem_of_cons HS; [|done].
      repeat split; vm_compute; reflexivity.
    + intros name _. reflexivity.
    + exists log, s', log', s''.
      split; [exact Hrun|]. split; [exact Hrun'|]. split; [exact Heq|].
      destruct records as [|alpha [|beta [|]]]; try discriminate Hnames.
      injection Hnames as Halpha Hbeta.
      destruct (Hfail beta) as (Hclone & _); [right; left|].
      rewrite Hbeta in Hclone.
      apply (Hclone "Command returned non-zero exit status 1."). reflexivity.
Defined.

Example run_beta_unreachable :
  let log := backup_log (backup_all_repositories beta_unreachable machine).2 in
  Log.status log = "partial"
  ∧ Log.summary log = Some (Summary.mk 2 1 1)
  ∧ Log.errors log = ["Failed to clone beta: Command returned non-zero exit status 1."].
Proof. vm_compute. auto. Qed.

(** ** Retention *)

Section Retention.
Variable E : Externals.
Implicit Types (s t : System) (file : string).

Lemma glob_elem (suffix file : string) s :
  file ∈ glob suffix s ↔ ends_with suffix file = true ∧ is_Some (store s !! file).
Proof.
  unfold glob. rewrite list_elem_of_filter, list_elem_of_fmap.
  rewrite Is_true_true. apply and_iff_compat_l. split.
  - intros ([k st] & -> & Hin%elem_of_map_to_list). by exists st.
  - intros [st Hst]. exists (file, st). split; [done|]. by apply elem_of_map_to_list.
Qed.

Lemma glob_NoDup (suffix : string) s : NoDup (glob suffix s).
Proof. unfold glob. apply NoDup_filter, NoDup_fst_map_to_list. Qed.


Lemma prune_unfold (cutoff : Q) file t :
  prune E cutoff file t
  = match store t !! file with
    | None =>
        (Raise ("[Errno 2] No such file or directory: '" +:+ file_path t file +:+ "'"), t)
    | Some st =>
        if Qlt_le_dec (st_mtime st) cutoff then
          match unlink E (file_path t file) with
          | Ok _ =>
              (Ok tt, with_stdout (λ out, out ++ ["Removed old backup: " +:+ file])
                        (with_store (delete file) t))
          | Raise e =>
              (Ok tt, with_stdout (λ out, out ++ ["Failed to remove " +:+ file +:+ ": " +:+ e]) t)
          end
        else (Ok tt, t)
    end.
Proof.
  unfold prune. unfold_py.
  destruct (store t !! file) as [st|]; [|done].
  destruct (Qlt_le_dec _ _); [|done].
  by destruct (unlink E _) as [[]|e].
Qed.

(** The scan: every listed file is examined, whatever became of the
    files before it. *)
Lemma for_each_prune (cutoff : Q) (files : list string) : ∀ t,
  NoDup files →
  (∀ file, file ∈ files → is_Some (store t !! file)) →
  ∃ t',
    for_each files (prune E cutoff) t = (Ok tt, t')
    ∧ same_run t t'
    ∧ backup_log t' = backup_log t
    ∧ (∃ out, stdout t' = stdout t ++ out)
    ∧ (∀ file, file ∉ files → store t' !! file = store t !! file)
    ∧ (∀ file st, file ∈ files → store t !! file = Some st →
         if Qlt_le_dec (st_mtime st) cutoff then
           match unlink E (file_path t file) with
           | Ok _ => store t' !! file = None
           | Raise e =>
               store t' !! file = Some st
               ∧ ("Failed to remove " +:+ file +:+ ": " +:+ e) ∈ stdout t'
           end
         else store t' !! file = Some st).
Proof.
  induction files as [|f files IH]; intros t Hnd Hin.
  - exists t. split; [done|]. split; [by split|]. split; [done|].
    split; [exists []; by rewrite app_nil_r|]. split; [done|].
    by intros file st ?%elem_of_nil.
  - apply NoDup_cons in Hnd as [Hf Hnd].
    cbn [for_each]. unfold bind at 1. rewrite prune_unfold.
    destruct (Hin f) as [stf Hstf]; [by left|]. rewrite Hstf.
    set (t1 := if Qlt_le_dec (st_mtime stf) cutoff then
                 match unlink E (file_path t f) with
                 | Ok _ => with_stdout (λ out, out ++ ["Removed old backup: " +:+ f])
                             (with_store (delete f) t)
                 | Raise e =>
                     with_stdout (λ out, out ++ ["Failed to remove " +:+ f +:+ ": " +:+ e]) t
                 end
               else t).
    assert ((if Qlt_le_dec (st_mtime stf) cutoff then
               match unlink E (file_path t f) with
               | Ok _ => (Ok tt, with_stdout (λ out, out ++ ["Removed old backup: " +:+ f])
                                   (with_store (delete f) t))
               | Raise e =>
                   (Ok tt, with_stdout (λ out, out ++ ["Failed to remove " +:+ f +:+ ": " +:+ e]) t)
               end
             else (Ok tt, t)) = (Ok tt, t1)) as ->.
    { unfold t1. destruct (Qlt_le_dec _ _); [|done]. by destruct (unlink E _) as [[]|e]. }
    assert (same_run t t1 ∧ backup_log t1 = backup_log t
            ∧ (∃ out, stdout t1 = stdout t ++ out)
            ∧ (∀ file, file ≠ f → store t1 !! file = store t !! file)) as (Hrun1 & Hlog1 & Hout1 & Hst1).
    { unfold t1. destruct (Qlt_le_dec _ _); [destruct (unlink E _) as [[]|e]|]; simpl.
      - repeat split; eauto. intros file Hne. by rewrite lookup_delete_ne.
      - repeat split; eauto.
      - repeat split; eauto. exists []. by rewrite app_nil_r. }
    destruct (IH t1 Hnd) as (t' & Hloop & Hrun & Hlog & [out Hout] & Hother & Hfiles).
    { intros file Hfile. rewrite Hst1; [apply Hin; by right|]. by intros ->. }
    exists t'. split; [done|]. split; [by eapply same_run_trans|].
    split; [by rewrite Hlog|]. split.
    { destruct Hout1 as [out1 Hout1]. exists (out1 ++ out). by rewrite Hout, Hout1, app_assoc. }
    split.
    + intros file [Hne Hnin]%not_elem_of_cons. rewrite Hother by done. by apply Hst1.
    + intros file st [->|Hfile]%elem_of_cons Hst.
      * rewrite Hstf in Hst. injection Hst as <-. rewrite Hother by done.
        unfold t1. destruct (Qlt_le_dec _ _); [|done].
        destruct (unlink E _) as [[]|e]; simpl; [apply lookup_delete_eq|].
        split; [done|]. rewrite Hout. apply elem_of_app. left.
        simpl. apply elem_of_app. right. by left.
      * assert (file ≠ f) as Hne by (by intros ->).
        specialize (Hfiles file st Hfile). rewrite Hst1 in Hfiles by done.
        specialize (Hfiles Hst).
        assert (file_path t1 file = file_path t file) as Hp
            by (unfold file_path; by destruct Hrun1 as [-> _]).
        by rewrite Hp in Hfiles.
Qed.

End Retention.



Example cleanup_read_only_store :
  let s' := (cleanup_old_backups read_only_store 30 aged_machine).2 in
  store s' = store aged_machine
  ∧ stdout s'
    = ["Failed to remove alpha_20231122_000000.tar.gz: [Errno 13] Permission denied"].
Proof. split; vm_compute; reflexivity. Qed.

(** ** Publication *)

Section Publication.
Variable E : Externals.
Implicit Types (s t : System) (item : string).

Lemma shutil_copy2_unfold item t :
  shutil_copy2 E item t
  = match store t !! item with
    | None =>
        (Raise ("[Errno 2] No such file or directory: '" +:+ file_path t item +:+ "'"), t)
    | Some st =>
        match copy2 E (file_path t item) with
        | Ok _ => (Ok tt, with_sink (insert item st) t)
        | Raise e => (Raise e, t)
        end
    end.
Proof. unfold shutil_copy2. unfold_py. by destruct (store t !! item). Qed.

(** The copies touch the sink only, and stop at the first that fails. *)
Lemma for_each_copy2 (items : list string) : ∀ t r t',
  (∀ item, item ∈ items → is_Some (store t !! item)) →
  for_each items (shutil_copy2 E) t = (r, t') →
  same_run t t' ∧ store t' = store t ∧ backup_log t' = backup_log t
  ∧ stdout t' = stdout t
  ∧ match r with
    | Ok _ => ∀ item, item ∈ items → copy2 E (file_path t item) = Ok tt
    | Raise e => ∃ item, item ∈ items ∧ copy2 E (file_path t item) = Raise e
    end.
Proof.
  induction items as [|i items IH]; intros t r t' Hin.
  - intros [= <- <-]. repeat split. by intros item ?%elem_of_nil.
  - cbn [for_each]. unfold bind at 1. rewrite shutil_copy2_unfold.
    destruct (Hin i) as [st Hst]; [by left|]. rewrite Hst.
    destruct (copy2 E (file_path t i)) as [[]|e] eqn:Hcopy.
    + intros Hrest. apply IH in Hrest as (Hrun & Hstore & Hlog & Hout & Hr).
      2:{ intros item Hitem. simpl. apply Hin. by right. }
      split; [done|]. split; [done|]. split; [done|]. split; [done|].
      destruct r as [[]|e].
      * intros item [->|Hitem]%elem_of_cons; [done | by apply Hr].
      * destruct Hr as (item & Hitem & He). exists item. split; [by right | done].
    + intros [= <- <-]. repeat split. exists i. split; [by left | done].
Qed.

Lemma upload_commit_unfold s t :
  try_except
    (let* _ := lift (chdir E backup_repo) in
     let* _ := lift (subprocess_run E ["git"; "add"; "."]) in
     let* _ := lift (subprocess_run E ["git"; "commit"; "-m";
                                       "Automated backup " +:+ timestamp s]) in
     let* _ := lift (subprocess_run E ["git"; "push"]) in
     print "✓ Backup uploaded to GitHub")
    (λ e, print ("✗ Failed to upload backup: " +:+ e)) t
  = (Ok tt,
     with_stdout
       (λ out, out ++ [match commit_and_push E s with
                       | Ok _ => "✓ Backup uploaded to GitHub"
                       | Raise e => "✗ Failed to upload backup: " +:+ e
                       end]) t).
Proof.
  unfold commit_and_push. unfold_py.
  destruct (chdir E backup_repo) as [[]|?]; [|done].
  destruct (subprocess_run E ["git"; "add"; "."]) as [?|?]; [|done].
  destruct (subprocess_run E ["git"; "commit"; _; _]) as [?|?]; [|done].
  by destruct (subprocess_run E ["git"; "push"]) as [?|?].
Qed.

Lemma upload_to_backup_repo_unfold s :
  upload_to_backup_repo E s
  = match mkdir E (backup_repo +:+ "/backups/" +:+ timestamp s) with
    | Raise e => (Raise e, s)
    | Ok _ =>
        match for_each (map_to_list (store s)).*1 (shutil_copy2 E) s with
        | (Raise e, t) => (Raise e, t)
        | (Ok _, t) =>
            (Ok tt,
             with_stdout
               (λ out, out ++ [match commit_and_push E s with
                               | Ok _ => "✓ Backup uploaded to GitHub"
                               | Raise e => "✗ Failed to upload backup: " +:+ e
                               end]) t)
        end
    end.
Proof.
  unfold upload_to_backup_repo.
  unfold bind at 1 2 3 4. unfold gets, lift.
  destruct (mkdir E _) as [[]|e]; [|done].
  destruct (for_each _ _ s) as [[[]|e] t] eqn:Hcopy; [|done].
  apply upload_commit_unfold.
Qed.

End Publication.




(* ===================================================================== *)
(** * Further properties of the code *)
(* ===================================================================== *)

(** ** What the checksum does not see *)

Section Blind.
Implicit Types (es : list (string * node)) (h : hasher) (n : string).

Lemma py_sort_filter (P : string → Prop) `{∀ x, Decision (P x)} (l : list string) :
  py_sort (filter P l) = filter P (py_sort l).
Proof.
  apply py_sort_unique.
  - apply StronglySorted_Sorted, StronglySorted_filter.
    apply Sorted_StronglySorted; [apply _ | apply py_sort_sorted].
  - by rewrite py_sort_perm.
Qed.

Lemma foldl_filter_skip {A} (f g : A → string → A) n (l : list string) : ∀ a,
  (∀ a, f a n = a) →
  (∀ x a, x ≠ n → g a x = f a x) →
  foldl g a (filter (λ x, x ≠ n) l) = foldl f a l.
Proof.
  induction l as [|x l IH]; intros a Hn Hother; [done|].
  rewrite filter_cons. destruct (decide (x ≠ n)) as [Hx|Hx]; simpl.
  - rewrite Hother by done. by apply IH.
  - apply dec_stable in Hx as ->. rewrite Hn. by apply IH.
Qed.

Lemma scandir_without n es :
  scandir_dirs (filter (λ e, e.1 ≠ n) es) = filter (λ x, x ≠ n) (scandir_dirs es)
  ∧ scandir_files (filter (λ e, e.1 ≠ n) es) = filter (λ x, x ≠ n) (scandir_files es).
Proof.
  unfold scandir_dirs, scandir_files.
  induction es as [|[m c] es [IH1 IH2]]; [done|].
  rewrite !(filter_cons _ (m, c)). cbn [fst snd].
  destruct (decide (m ≠ n)) as [Hm|Hm]; destruct (is_dir c) eqn:Hc; simpl;
    rewrite ?filter_cons; cbn [fst snd]; rewrite ?Hc; simpl;
    rewrite ?filter_cons; repeat case_decide; try done; simpl;
    split; first [exact IH1 | exact IH2 | f_equal; first [exact IH1 | exact IH2]].
Qed.

Lemma entry_without n m es :
  m ≠ n → entry m (filter (λ e, e.1 ≠ n) es) = entry m es.
Proof.
  intros Hm. induction es as [|[k c] es IH]; [done|].
  rewrite filter_cons. cbn [fst]. simpl.
  destruct (decide (k ≠ n)) as [Hk|Hk]; simpl.
  - by rewrite IH.
  - apply dec_stable in Hk as ->. by rewrite decide_False by done.
Qed.

Lemma walk_without n c es h :
  NoDup es.*1 → (n, c) ∈ es → no_readable_file c = true →
  walk (Dir (filter (λ e, e.1 ≠ n) es)) h = walk (Dir es) h.
Proof.
  intros Hnd Hin Hno. rewrite !walk_Dir.
  destruct (scandir_without n es) as [-> ->].
  rewrite !py_sort_filter.
  assert (entry n es = Some c) as Hn by (by apply entry_Some).
  set (es' := filter (λ e, e.1 ≠ n) es).
  rewrite (foldl_filter_skip (hash_file es) (hash_file es') n
             (py_sort (scandir_files es)) h).
  - apply (foldl_filter_skip (descend es) (descend es') n).
    + intros a. unfold descend. rewrite Hn. by apply walk_no_readable_file.
    + intros d a Hd. unfold descend, es'. by rewrite entry_without.
  - intros a. unfold hash_file, open_read. rewrite Hn. by destruct c as [[?|]|?].
  - intros fn a Hfn. unfold hash_file, open_read, es'. by rewrite entry_without.
Qed.

End Blind.

(** X1 — what cannot be read is not seen.  In a directory whose names are
    unique, an entry that holds no readable file (an unreadable file, an
    empty directory, a directory of unreadable files) can be taken away
    without changing the digest: the checksum cannot tell such an entry
    from a missing one. *)
Theorem calculate_checksum_ignores_unreadable
    (es : list (string * node)) (n : string) (c : node) :
  well_formed (Dir es) = true →
  (n, c) ∈ es →
  no_readable_file c = true →
  calculate_checksum (Dir (filter (λ e, e.1 ≠ n) es)) = calculate_checksum (Dir es).
Proof.
  intros [Hnd _]%well_formed_Dir Hin Hno. unfold calculate_checksum.
  by rewrite (walk_without n c).
Qed.

Lemma calculate_checksum_ignores_unreadable_witness :
  calculate_checksum
    (Dir [ ("src", Dir [ ("main.py", File (Some (bytes_of "print(1)")));
                         ("lib.py", File (Some (bytes_of "x = 2"))) ]);
           ("README.md", File (Some (bytes_of "# demo"))) ])
  = calculate_checksum checkout_a.
Proof.
  apply (calculate_checksum_ignores_unreadable
           [ ("src", Dir [ ("main.py", File (Some (bytes_of "print(1)")));
                           ("lib.py", File (Some (bytes_of "x = 2"))) ]);
             ("README.md", File (Some (bytes_of "# demo")));
             ("secret.key", File None) ] "secret.key" (File None)).
  - reflexivity.
  - right. right. left.
  - reflexivity.
Defined.



(** ** One repository, further *)

Section OneRepositoryFurther.
Variable E : Externals.
Implicit Types (s : System) (name : string) (info : Info.t).

Ltac by_paths H :=
  rewrite backup_repository_unfold in H; cbv zeta in H;
  repeat case_match; simplify_eq/=.

Lemma app_singleton_ne {A} (l : list A) (x : A) : l ≠ l ++ [x].
Proof.
  intros H. apply (f_equal length) in H. rewrite length_app in H. simpl in H. lia.
Qed.

(** The key "error" of a record against the errors of the run. *)
Lemma backup_repository_error name s info s' :
  backup_repository E name s = (Ok info, s') →
  match Info.error info with
  | Some e =>
      Log.errors (backup_log s')
      = Log.errors (backup_log s) ++ ["Backup failed for " +:+ name +:+ ": " +:+ e]
      ∧ ∃ out, subprocess_run E (gh_clone_argv name (temp_path s name)) = Ok out
  | None =>
      match subprocess_run E (gh_clone_argv name (temp_path s name)) with
      | Ok _ => Log.errors (backup_log s') = Log.errors (backup_log s)
      | Raise e =>
          Log.errors (backup_log s')
          = Log.errors (backup_log s) ++ ["Failed to clone " +:+ name +:+ ": " +:+ e]
      end
  end.
Proof. intros H. by_paths H; eauto. Qed.

End OneRepositoryFurther.

(** X3 — the key "error" of a record.  A record carries the key "error"
    exactly when the [except] of [backup_repository] caught a fault, and
    the errors of the run then end with "Backup failed for <name>: <e>"
    for that same [e]; a failed clone leaves the record without the key
    and the errors with "Failed to clone <name>: <e>"; otherwise the
    errors are untouched.  The status is not reset by the handler: when
    the archive passed the verification and the removal of the workspace
    raises, the record is finalized as "success" and carries the error. *)
Theorem backup_repository_error_key (E : Externals) (name : string) (s : System)
    (info : Info.t) (s' : System) :
  backup_repository E name s = (Ok info, s') →
  match Info.error info with
  | Some e =>
      Log.errors (backup_log s')
      = Log.errors (backup_log s) ++ ["Backup failed for " +:+ name +:+ ": " +:+ e]
      ∧ ∃ out, subprocess_run E (gh_clone_argv name (temp_path s name)) = Ok out
  | None =>
      match subprocess_run E (gh_clone_argv name (temp_path s name)) with
      | Ok _ => Log.errors (backup_log s') = Log.errors (backup_log s)
      | Raise e =>
          Log.errors (backup_log s')
          = Log.errors (backup_log s) ++ ["Failed to clone " +:+ name +:+ ": " +:+ e]
      end
  end
  ∧ (∀ out st e,
       subprocess_run E (gh_clone_argv name (temp_path s name)) = Ok out →
       make_archive E (file_path s (archive_base s name)) (checkout E name)
       = {| written := Some st; outcome := Ok tt |} →
       (0 < st_size st)%N →
       rmtree E (temp_path s name) = Raise e →
       Info.status info = "success" ∧ Info.error info = Some e).
Proof.
  intros H. split; [by apply backup_repository_error|].
  intros out st e Hclone Harch Hpos Hrm.
  rewrite backup_repository_unfold in H. cbv zeta in H.
  rewrite Hclone, Harch, Hrm in H. simpl in H.
  apply N.ltb_lt in Hpos.
  destruct (mkdir E _) as [[]|?]; [|done].
  destruct (workspaces s !! name); simpl in H; rewrite lookup_insert_eq, Hpos in H;
    by simplify_eq/=.
Qed.

Lemma backup_repository_error_key_witness :
  let run := backup_repository rmtree_denied "alpha" machine in
  ∃ info, run.1 = Ok info
          ∧ Info.status info = "success"
          ∧ Info.error info = Some "[Errno 13] Permission denied"
          ∧ Log.errors (backup_log run.2)
            = ["Backup failed for alpha: [Errno 13] Permission denied"].
Proof.
  intros run.
  set (info := Info.mk "alpha" "20240101_000000" "success"
                 (Some "147041dc916751f5dfff722fcf3109d58028221c0c01b9067d000ee771ccfbcd")
                 2048 (Some "/home/ubuntu/backups/alpha_20240101_000000.tar.gz")
                 (Some "[Errno 13] Permission denied")).
  assert (backup_repository rmtree_denied "alpha" machine = (Ok info, run.2)) as Hrun
      by (vm_compute; reflexivity).
  exists info. split; [unfold run; by rewrite Hrun|].
  destruct (backup_repository_error_key rmtree_denied "alpha" machine info run.2 Hrun)
    as [Herr Hsucc].
  destruct (Hsucc "" {| st_size := 2048; st_mtime := 1000 |} "[Errno 13] Permission denied")
    as [Hs He]; [reflexivity | reflexivity | reflexivity | reflexivity |].
  split; [exact Hs|]. split; [exact He|].
  change (Info.error info) with (Some "[Errno 13] Permission denied") in Herr.
  destruct Herr as [Herr _]. exact Herr.
Defined.

(** X4 — the archives of the others.  Processing one repository never
    removes a file of the backup directory and changes at most one, the
    archive named after that repository and the run; distinct names give
    distinct archive names, so within a run no repository overwrites the
    archive of another.  The sink is not touched. *)
Theorem backup_repository_keeps_other_archives (E : Externals) (name : string)
    (s : System) (r : result Info.t) (s' : System) :
  backup_repository E name s = (r, s') →
  (∀ file, file ≠ archive_file s name → store s' !! file = store s !! file)
  ∧ (∀ file, is_Some (store s !! file) → is_Some (store s' !! file))
  ∧ (∀ other, other ≠ name → archive_file s other ≠ archive_file s name)
  ∧ sink s' = sink s.
Proof.
  intros H.
  destruct (backup_repository_store E _ _ _ _ H) as [Hne Hmono].
  destruct (backup_repository_frame E _ _ _ _ H) as (_ & Hsink & _).
  split; [done|]. split; [done|]. split; [|done].
  intros other Hother Heq. by apply archive_file_inj in Heq.
Qed.

Lemma backup_repository_keeps_other_archives_witness :
  let s1 := (backup_repository fleet "alpha" machine).2 in
  let s2 := (backup_repository beta_empty_archive "beta" s1).2 in
  store s2 !! "alpha_20240101_000000.tar.gz" = store s1 !! "alpha_20240101_000000.tar.gz".
Proof.
  intros s1 s2.
  apply (backup_repository_keeps_other_archives beta_empty_archive "beta" s1
           (backup_repository beta_empty_archive "beta" s1).1 s2).
  - unfold s2. by destruct (backup_repository beta_empty_archive "beta" s1).
  - vm_compute. discriminate.
Defined.

(** X5 — when the workspace is released.  After [backup_repository]
    returns, the workspace of the repository is gone exactly when the
    clone succeeded, the archive call returned, the archive was found and
    [shutil.rmtree] succeeded; on every other path a directory is left at
    [temp/<name>]. *)
Theorem backup_repository_releases_workspace (E : Externals) (name : string)
    (s : System) (info : Info.t) (s' : System) :
  backup_repository E name s = (Ok info, s') →
  workspaces s' !! name = None
  ↔ (∃ out, subprocess_run E (gh_clone_argv name (temp_path s name)) = Ok out)
    ∧ outcome (make_archive E (file_path s (archive_base s name)) (checkout E name)) = Ok tt
    ∧ is_Some (store s' !! archive_file s name)
    ∧ rmtree E (temp_path s name) = Ok tt.
Proof.
  intros H. pose proof (backup_repository_workspace E _ _ _ _ H) as Hws.
  destruct (subprocess_run E _) as [out|e].
  - destruct (outcome _) as [[]|e], (store s' !! archive_file s name) as [st|],
      (rmtree E _) as [[]|e']; rewrite Hws; split; try done; eauto;
      intros (_ & ? & [? ?] & ?); done.
  - destruct Hws as [c ->]. split; [done|]. by intros [[? ?] _].
Qed.

Lemma backup_repository_releases_workspace_witness :
  workspaces (backup_repository fleet "alpha" machine).2 !! "alpha" = None.
Proof.
  set (info := Info.mk "alpha" "20240101_000000" "success"
                 (Some "147041dc916751f5dfff722fcf3109d58028221c0c01b9067d000ee771ccfbcd")
                 2048 (Some "/home/ubuntu/backups/alpha_20240101_000000.tar.gz") None).
  assert (backup_repository fleet "alpha" machine
          = (Ok info, (backup_repository fleet "alpha" machine).2)) as Hrun
      by (vm_compute; reflexivity).
  apply (backup_repository_releases_workspace fleet "alpha" machine info _ Hrun).
  split; [by eexists|]. split; [reflexivity|]. split; [|reflexivity].
  vm_compute. eauto.
Defined.

(** ** The run, further *)

Section RunFurther.
Variable E : Externals.
Implicit Types (s : System) (name : string) (repos : list string).

Ltac by_paths H :=
  rewrite backup_repository_unfold in H; cbv zeta in H;
  repeat case_match; simplify_eq/=.

Lemma backup_repository_quiet name s info s' :
  backup_repository E name s = (Ok info, s') →
  Log.errors (backup_log s') = Log.errors (backup_log s) →
  quiet info.
Proof.
  intros H Herr. unfold quiet.
  pose proof (backup_repository_error E _ _ _ _ H) as Hkey.
  destruct (backup_repository_fields E _ _ _ _ H) as [Hsize Hfields].
  pose proof (backup_repository_outcome E _ _ _ _ H) as Hout.
  unfold recorded_outcome in Hout.
  destruct (Info.error info) as [e|].
  { destruct Hkey as [Hkey _]. rewrite Herr in Hkey. by apply app_singleton_ne in Hkey. }
  destruct (subprocess_run E _) as [out|e].
  2:{ rewrite Herr in Hkey. by apply app_singleton_ne in Hkey. }
  destruct Hfields as [Hck Hpath]. rewrite Hck.
  destruct (outcome _) as [[]|e].
  2:{ destruct Hout as [_ Hout]. rewrite Herr in Hout. by apply app_singleton_ne in Hout. }
  rewrite Hpath. eauto.
Qed.

Lemma backup_repository_workspaces name s r s' :
  backup_repository E name s = (r, s') →
  ∀ key, key ≠ name → workspaces s' !! key = workspaces s !! key.
Proof.
  intros H key Hkey. by_paths H;
    rewrite ?lookup_delete_ne, ?lookup_insert_ne by done; done.
Qed.

Lemma backup_repository_errors_length name s r s' :
  backup_repository E name s = (r, s') →
  ∃ errs, Log.errors (backup_log s') = Log.errors (backup_log s) ++ errs
          ∧ (length errs ≤ 1)%nat.
Proof.
  intros H. destruct (backup_repository_errors E _ _ _ _ H) as [->|[e ->]].
  - exists []. rewrite app_nil_r. split; [done | simpl; lia].
  - exists [e]. split; [done | simpl; lia].
Qed.

(** One turn of the loop, with everything it touches. *)
Lemma backup_one_turn name s r s' :
  backup_one E name s = (r, s') →
  same_run s s'
  ∧ Log.status (backup_log s') = Log.status (backup_log s)
  ∧ Log.summary (backup_log s') = Log.summary (backup_log s)
  ∧ sink s' = sink s
  ∧ (∀ k, k ≠ archive_file s name → store s' !! k = store s !! k)
  ∧ (∀ k, k ≠ name → workspaces s' !! k = workspaces s !! k)
  ∧ ∃ errs,
      Log.errors (backup_log s') = Log.errors (backup_log s) ++ errs
      ∧ match r with
        | Ok _ =>
            ∃ info,
              Log.repositories (backup_log s') = Log.repositories (backup_log s) ++ [info]
              ∧ Info.name info = name
              ∧ (length errs ≤ 1)%nat
              ∧ (errs = [] → quiet info)
        | Raise e =>
            mkdir E (temp_path s name) = Raise e
            ∧ Log.repositories (backup_log s') = Log.repositories (backup_log s)
            ∧ errs = []
        end.
Proof.
  rewrite backup_one_unfold.
  destruct (backup_repository E name _) as [[info|e] u] eqn:Hrepo; intros [= <- <-].
  - destruct (backup_repository_frame E _ _ _ _ Hrepo)
      as (Hrun & Hsink & _ & Hrecs & _ & Hstatus & Hsummary).
    destruct (backup_repository_store E _ _ _ _ Hrepo) as [Hne _].
    pose proof (backup_repository_workspaces _ _ _ _ Hrepo) as Hws.
    destruct (backup_repository_errors_length _ _ _ _ Hrepo) as (errs & Herrs & Hlen).
    destruct (backup_repository_name E _ _ _ _ Hrepo) as [Hname _].
    split; [exact Hrun|]. split; [exact Hstatus|]. split; [exact Hsummary|].
    split; [exact Hsink|]. split; [exact Hne|]. split; [exact Hws|].
    exists errs. split; [exact Herrs|].
    exists info. simpl. rewrite Hrecs. split; [done|]. split; [done|]. split; [done|].
    intros ->. rewrite app_nil_r in Herrs.
    by apply (backup_repository_quiet _ _ _ _ Hrepo).
  - apply backup_repository_raises in Hrepo as [Hmk ->]. simpl.
    split; [by split|]. repeat (split; [done|]).
    exists []. by rewrite app_nil_r.
Qed.

(** The loop, with everything it touches. *)
Lemma for_each_backup_one_trace repos : ∀ s r s',
  for_each repos (backup_one E) s = (r, s') →
  same_run s s'
  ∧ Log.status (backup_log s') = Log.status (backup_log s)
  ∧ Log.summary (backup_log s') = Log.summary (backup_log s)
  ∧ sink s' = sink s
  ∧ (∀ k, (∀ name, name ∈ repos → k ≠ archive_file s name) → store s' !! k = store s !! k)
  ∧ (∀ k, k ∉ repos → workspaces s' !! k = workspaces s !! k)
  ∧ ∃ records errs,
      Log.repositories (backup_log s') = Log.repositories (backup_log s) ++ records
      ∧ Log.errors (backup_log s') = Log.errors (backup_log s) ++ errs
      ∧ (length errs ≤ length records)%nat
      ∧ (errs = [] → ∀ rec, rec ∈ records → quiet rec)
      ∧ match r with
        | Ok _ => Info.name <$> records = repos
        | Raise e =>
            ∃ name rest,
              repos = (Info.name <$> records) ++ name :: rest
              ∧ mkdir E (temp_path s name) = Raise e
        end.
Proof.
  induction repos as [|name repos IH]; intros s r s'.
  - intros [= <- <-]. split; [by split|]. repeat (split; [done|]).
    exists [], []. rewrite !app_nil_r. repeat (split; [done|]).
    split; [by intros _ rec ?%elem_of_nil | done].
  - cbn [for_each]. unfold bind at 1.
    destruct (backup_one E name s) as [[[]|e] t] eqn:Hone.
    + apply backup_one_turn in Hone
        as (Hrun1 & Hst1 & Hsm1 & Hsink1 & Hstore1 & Hws1 & errs1 & Herr1 & info & Hrec1 & Hname & Hlen1 & Hq1).
      intros Hrest.
      apply IH in Hrest
        as (Hrun2 & Hst2 & Hsm2 & Hsink2 & Hstore2 & Hws2 & records & errs2 & Hrec2 & Herr2 & Hlen2 & Hq2 & Hr).
      assert (archive_file t = archive_file s) as Hfile
          by (unfold archive_file, archive_base; by destruct Hrun1 as [_ ->]).
      split; [by eapply same_run_trans|]. split; [congruence|]. split; [congruence|].
      split; [congruence|]. split.
      { intros k Hk. rewrite Hstore2, Hstore1; [done| |].
        - apply Hk. by left.
        - intros n Hn. rewrite Hfile. apply Hk. by right. }
      split.
      { intros k [Hk1 Hk2]%not_elem_of_cons. rewrite Hws2, Hws1; done. }
      exists (info :: records), (errs1 ++ errs2).
      split; [by rewrite Hrec2, Hrec1, <- app_assoc|].
      split; [by rewrite Herr2, Herr1, <- app_assoc|].
      split; [rewrite length_app; simpl; lia|]. split.
      { intros [-> ->]%app_eq_nil rec [->|Hin]%elem_of_cons; auto. }
      destruct r as [[]|e].
      * rewrite fmap_cons. by f_equal.
      * destruct Hr as (n & rest & -> & Hmk). exists n, rest.
        rewrite fmap_cons, Hname. split; [done|].
        by rewrite <- (same_run_temp_path s t).
    + apply backup_one_turn in Hone
        as (Hrun1 & Hst1 & Hsm1 & Hsink1 & Hstore1 & Hws1 & errs1 & Herr1 & Hmk & Hrec1 & ->).
      intros [= <- <-]. split; [done|]. repeat (split; [done|]).
      split.
      { intros k Hk. apply Hstore1, Hk. by left. }
      split.
      { intros k [Hk1 Hk2]%not_elem_of_cons. by apply Hws1. }
      exists [], []. rewrite !app_nil_r in *. repeat (split; [done|]).
      split; [by intros _ rec ?%elem_of_nil|].
      by exists name, repos.
Qed.

(** The whole call, once the loop is known. *)
Lemma backup_all_repositories_trace s r s' :
  backup_all_repositories E s = (r, s') →
  ∃ repos s0 r1 s2,
    get_all_repositories E s = (Ok repos, s0)
    ∧ same_run s s0
    ∧ store s0 = store s ∧ workspaces s0 = workspaces s ∧ sink s0 = sink s
    ∧ Log.repositories (backup_log s0) = Log.repositories (backup_log s)
    ∧ Log.status (backup_log s0) = Log.status (backup_log s)
    ∧ Log.summary (backup_log s0) = Log.summary (backup_log s)
    ∧ match listing E with
      | Ok names => repos = names ∧ Log.errors (backup_log s0) = Log.errors (backup_log s)
      | Raise e =>
          repos = []
          ∧ Log.errors (backup_log s0)
            = Log.errors (backup_log s) ++ ["Failed to list repositories: " +:+ e]
      end
    ∧ for_each repos (backup_one E)
        (with_stdout (λ out, out ++ ["Starting backup of " +:+ pretty (length repos)
                                     +:+ " repositories..."]) s0) = (r1, s2)
    ∧ match r1 with
      | Raise e => r = Raise e ∧ s' = s2
      | Ok _ =>
          let success_count :=
            Z.of_nat (length (List.filter is_success (Log.repositories (backup_log s2)))) in
          let total := Z.of_nat (length repos) in
          s' = with_log (Log.set_summary
                           (Summary.mk total success_count (total - success_count)%Z))
                 (with_log (Log.set_status
                              (if decide (success_count = total) then "completed"
                               else "partial")) s2)
          ∧ r = Ok (backup_log s')
      end.
Proof.
  rewrite backup_all_repositories_unfold, get_all_repositories_unfold.
  destruct (listing E) as [names|e] eqn:Hlist.
  - destruct (for_each names (backup_one E) _) as [r1 s2] eqn:Hloop.
    intros Hrun. exists names, s, r1, s2.
    split; [done|]. split; [by split|]. repeat (split; [done|]).
    destruct r1 as [[]|e]; simplify_eq/=; done.
  - destruct (for_each [] (backup_one E) _) as [r1 s2] eqn:Hloop.
    intros Hrun. eexists [], _, r1, s2.
    split; [done|]. split; [by split|]. repeat (split; [done|]).
    destruct r1 as [[]|e']; simplify_eq/=; done.
Qed.

End RunFurther.



(** X7 — the counts on an object that is used again.  [total] counts the
    repositories of this call and [success] every successful record of
    the log, the ones of earlier calls included; so when the log already
    holds a successful record and every backup of this call succeeds, the
    status is "partial" and [failed] is negative. *)
Theorem backup_all_repositories_counts (E : Externals) (s : System) (log : Log.t)
    (s' : System) :
  backup_all_repositories E s = (Ok log, s') →
  ∃ records,
    Log.repositories log = Log.repositories (backup_log s) ++ records
    ∧ Log.summary log
      = Some (Summary.mk
                (Z.of_nat (length records))
                (Z.of_nat (length (List.filter is_success (Log.repositories log))))
                (Z.of_nat (length records)
                 - Z.of_nat (length (List.filter is_success (Log.repositories log)))))
    ∧ (Log.status log = "completed"
       ↔ length (List.filter is_success (Log.repositories log)) = length records)
    ∧ ((∃ old, old ∈ Log.repositories (backup_log s) ∧ Info.status old = "success") →
       (∀ rec, rec ∈ records → Info.status rec = "success") →
       Log.status log = "partial"
       ∧ ∃ sm, Log.summary log = Some sm ∧ (Summary.failed sm < 0)%Z).
Proof.
  intros Hrun.
  apply backup_all_repositories_trace in Hrun
    as (repos & s0 & r1 & s2 & _ & _ & _ & _ & _ & Hrecs0 & _ & _ & _ & Hloop & Hr).
  destruct r1 as [[]|e1]; [|by destruct Hr as [? _]].
  cbv zeta in Hr. destruct Hr as [-> [= ->]].
  apply for_each_backup_one_trace in Hloop
    as (_ & _ & _ & _ & _ & _ & records & errs & Hrecs & _ & _ & _ & Hnames).
  simpl in Hrecs. rewrite Hrecs0 in Hrecs.
  assert (length repos = length records) as Hlen by (by rewrite <- Hnames, length_fmap).
  exists records. simpl. rewrite Hrecs, Hlen.
  split; [done|]. split; [done|]. split.
  { case_decide as Hc; split; try done; [intros _; lia | intros Hx; destruct Hc; lia]. }
  intros (old & Hold & Hsucc) Hall.
  rewrite List.filter_app, length_app.
  destruct (filter_is_success_length records) as [_ Hnew].
  apply Hnew in Hall. rewrite Hall.
  assert (0 < length (List.filter is_success (Log.repositories (backup_log s)))) as Hpos.
  { apply list_elem_of_In in Hold.
    assert (In old (List.filter is_success (Log.repositories (backup_log s)))) as Hin.
    { apply List.filter_In. split; [done|]. unfold is_success. by apply bool_decide_eq_true. }
    destruct (List.filter is_success (Log.repositories (backup_log s))); [done | simpl; lia]. }
  split.
  - case_decide as Hc; [lia | done].
  - eexists. split; [done|]. simpl. lia.
Qed.

Lemma backup_all_repositories_counts_witness :
  let first := (backup_all_repositories fleet machine).2 in
  let second := (backup_all_repositories fleet first).2 in
  Log.status (backup_log first) = "completed"
  ∧ Log.status (backup_log second) = "partial"
  ∧ Log.summary (backup_log second) = Some (Summary.mk 2 4 (-2)).
Proof.
  intros first second.
  assert (backup_all_repositories fleet first = (Ok (backup_log second), second)) as Hrun
      by (vm_compute; reflexivity).
  destruct (backup_all_repositories_counts fleet first _ _ Hrun)
    as (records & Hrecs & Hsum & _ & Hpartial).
  split; [vm_compute; reflexivity|]. split; [|vm_compute; reflexivity].
  assert (Log.repositories (backup_log second)
          = Log.repositories (backup_log first) ++ drop 2 (Log.repositories (backup_log second)))
    as Hsplit by (vm_compute; reflexivity).
  rewrite Hsplit in Hrecs at 1. apply app_inv_head in Hrecs.
  apply Hpartial.
  - exists (Info.mk "alpha" "20240101_000000" "success"
              (Some "147041dc916751f5dfff722fcf3109d58028221c0c01b9067d000ee771ccfbcd")
              2048 (Some "/home/ubuntu/backups/alpha_20240101_000000.tar.gz") None).
    split; [|reflexivity].
    assert (Log.repositories (backup_log first)
            = [Info.mk "alpha" "20240101_000000" "success"
                 (Some "147041dc916751f5dfff722fcf3109d58028221c0c01b9067d000ee771ccfbcd")
                 2048 (Some "/home/ubuntu/backups/alpha_20240101_000000.tar.gz") None;
               Info.mk "beta" "20240101_000000" "success"
                 (Some "147041dc916751f5dfff722fcf3109d58028221c0c01b9067d000ee771ccfbcd")
                 2048 (Some "/home/ubuntu/backups/beta_20240101_000000.tar.gz") None]) as ->
        by (vm_compute; reflexivity).
    left.
  - rewrite <- Hrecs.
    assert (drop 2 (Log.repositories (backup_log second))
            = [Info.mk "alpha" "20240101_000000" "success"
                 (Some "147041dc916751f5dfff722fcf3109d58028221c0c01b9067d000ee771ccfbcd")
                 2048 (Some "/home/ubuntu/backups/alpha_20240101_000000.tar.gz") None;
               Info.mk "beta" "20240101_000000" "success"
                 (Some "147041dc916751f5dfff722fcf3109d58028221c0c01b9067d000ee771ccfbcd")
                 2048 (Some "/home/ubuntu/backups/beta_20240101_000000.tar.gz") None]) as ->
        by (vm_compute; reflexivity).
    intros rec [->|[->|[]%elem_of_nil]%elem_of_cons]%elem_of_cons; reflexivity.
Defined.

Lemma listing_without_sink (E : Externals) (names : list string) :
  listing E = Ok names → "backup" ∉ names.
Proof.
  unfold listing. destruct (subprocess_run E gh_list_argv) as [out|]; [|done].
  destruct (json_loads E out) as [repos|]; [|done].
  intros (all & _ & ->)%listed_names_Ok.
  rewrite list_elem_of_filter. by intros [? _].
Qed.

(** X8 — the diagnostics of a run.  A run appends to the errors of the
    log and never removes any; it appends at most one diagnostic for the
    listing and one for each record.  When it appends none, the listing
    has succeeded and every record it made is complete: a record that
    failed without a diagnostic is that of an archive that came out
    empty. *)
Theorem backup_all_repositories_diagnostics (E : Externals) (s : System)
    (r : result Log.t) (s' : System) :
  backup_all_repositories E s = (r, s') →
  ∃ records errs,
    Log.repositories (backup_log s') = Log.repositories (backup_log s) ++ records
    ∧ Log.errors (backup_log s') = Log.errors (backup_log s) ++ errs
    ∧ (length errs ≤ 1 + length records)%nat
    ∧ (errs = [] →
       (∃ names, listing E = Ok names)
       ∧ ∀ rec, rec ∈ records →
           Info.error rec = None
           ∧ is_Some (Info.checksum rec)
           ∧ is_Some (Info.archive_path rec)
           ∧ (Info.status rec = "failed" → Info.size_bytes rec = 0%N)).
Proof.
  intros Hrun.
  apply backup_all_repositories_trace in Hrun
    as (repos & s0 & r1 & s2 & _ & _ & _ & _ & _ & Hrecs0 & _ & _ & Hlist & Hloop & Hr).
  apply for_each_backup_one_trace in Hloop
    as (_ & _ & _ & _ & _ & _ & records & errs & Hrecs & Herrs & Hlen & Hquiet & _).
  simpl in Hrecs, Herrs.
  assert (Log.repositories (backup_log s') = Log.repositories (backup_log s2)
          ∧ Log.errors (backup_log s') = Log.errors (backup_log s2)) as [-> ->].
  { destruct r1 as [[]|e1]; [|by destruct Hr as [_ ->]].
    cbv zeta in Hr. by destruct Hr as [-> _]. }
  rewrite Hrecs, Herrs, Hrecs0. exists records.
  destruct (listing E) as [names|e].
  - destruct Hlist as [_ ->]. exists errs.
    split; [done|]. split; [done|]. split; [lia|].
    intros Hnone. split; [by exists names|]. intros rec Hrec. by apply Hquiet.
  - destruct Hlist as [_ ->]. exists (("Failed to list repositories: " +:+ e) :: errs).
    split; [done|]. split; [by rewrite <- app_assoc|]. split; [simpl; lia | done].
Qed.

Lemma backup_all_repositories_diagnostics_witness :
  let s' := (backup_all_repositories beta_empty_archive machine).2 in
  Log.errors (backup_log s') = []
  ∧ ∀ rec, rec ∈ Log.repositories (backup_log s') →
      Info.error rec = None ∧ (Info.status rec = "failed" → Info.size_bytes rec = 0%N).
Proof.
  intros s'.
  assert (backup_all_repositories beta_empty_archive machine = (Ok (backup_log s'), s'))
    as Hrun by (vm_compute; reflexivity).
  destruct (backup_all_repositories_diagnostics beta_empty_archive machine _ _ Hrun)
    as (records & errs & Hrecs & Herrs & _ & Hquiet).
  assert (Log.errors (backup_log s') = []) as Hnone by (vm_compute; reflexivity).
  split; [exact Hnone|].
  rewrite Hnone in Herrs. symmetry in Herrs. apply app_eq_nil in Herrs as [_ ->].
  destruct (Hquiet eq_refl) as [_ Hall].
  rewrite Hrecs. intros rec Hrec.
  destruct (Hall rec Hrec) as (He & _ & _ & Hsize). by split.
Defined.

(** X9 — the sink repository is left alone by a run.  Whatever the
    listing returns, no record of the run is named "backup", no workspace
    is made for that name, and no archive of that name is written. *)
Theorem backup_all_repositories_skips_sink (E : Externals) (s : System)
    (r : result Log.t) (s' : System) :
  backup_all_repositories E s = (r, s') →
  store s' !! archive_file s "backup" = store s !! archive_file s "backup"
  ∧ workspaces s' !! "backup" = workspaces s !! "backup"
  ∧ ∃ records,
      Log.repositories (backup_log s') = Log.repositories (backup_log s) ++ records
      ∧ ∀ rec, rec ∈ records → Info.name rec ≠ "backup".
Proof.
  intros Hrun.
  apply backup_all_repositories_trace in Hrun
    as (repos & s0 & r1 & s2 & _ & Hrun0 & Hst0 & Hws0 & _ & Hrecs0 & _ & _ & Hlist & Hloop & Hr).
  assert ("backup" ∉ repos) as Hsink.
  { destruct (listing E) as [names|e] eqn:Hl.
    - destruct Hlist as [-> _]. by apply (listing_without_sink E).
    - destruct Hlist as [-> _]. apply not_elem_of_nil. }
  apply for_each_backup_one_trace in Hloop
    as (_ & _ & _ & _ & Hst & Hws & records & errs & Hrecs & _ & _ & _ & Hnames).
  simpl in Hst, Hws, Hrecs.
  assert (store s' = store s2 ∧ workspaces s' = workspaces s2
          ∧ Log.repositories (backup_log s') = Log.repositories (backup_log s2))
    as (-> & -> & ->).
  { destruct r1 as [[]|e1]; [|by destruct Hr as [_ ->]].
    cbv zeta in Hr. by destruct Hr as [-> _]. }
  split; [|split].
  - rewrite <- Hst0. apply Hst. intros name Hname Heq.
    change (archive_file (with_stdout _ s0) name) with (archive_file s0 name) in Heq.
    rewrite (same_run_archive_file s s0) in Heq by done.
    apply archive_file_inj in Heq. by subst.
  - rewrite <- Hws0. by apply Hws.
  - exists records. split; [by rewrite Hrecs, Hrecs0|].
    intros rec Hrec Hname. apply Hsink.
    assert ("backup" ∈ Info.name <$> records) as Hin.
    { apply list_elem_of_fmap. by exists rec. }
    destruct r1 as [[]|e1].
    + by rewrite <- Hnames.
    + destruct Hnames as (name & rest & -> & _). apply elem_of_app. by left.
Qed.

Lemma backup_all_repositories_skips_sink_witness :
  let s' := (backup_all_repositories fleet machine).2 in
  listing fleet = Ok ["alpha"; "beta"]
  ∧ store s' !! "backup_20240101_000000.tar.gz" = None
  ∧ workspaces s' !! "backup" = None.
Proof.
  intros s'.
  assert (backup_all_repositories fleet machine = (Ok (backup_log s'), s'))
    as Hrun by (vm_compute; reflexivity).
  destruct (backup_all_repositories_skips_sink fleet machine _ _ Hrun) as (Hst & Hws & _).
  split; [vm_compute; reflexivity|]. split; [exact Hst | exact Hws].
Defined.

(** ** Retention, further *)

Section RetentionFurther.
Variable E : Externals.
Implicit Types (s t : System) (file : string).

Lemma for_each_prune_frame (cutoff : Q) (files : list string) : ∀ t r t',
  for_each files (prune E cutoff) t = (r, t') →
  sink t' = sink t ∧ workspaces t' = workspaces t.
Proof.
  induction files as [|f files IH]; intros t r t'.
  - by intros [= <- <-].
  - cbn [for_each]. unfold bind at 1. rewrite prune_unfold.
    destruct (store t !! f) as [st|]; [|by intros [= <- <-]].
    destruct (Qlt_le_dec _ _); [destruct (unlink E _) as [[]|e]|];
      intros Hrest; apply IH in Hrest as [-> ->]; done.
Qed.

(** What [cleanup_old_backups] leaves of the backup directory. *)
Lemma cleanup_old_backups_store (retention_days : Z) s :
  ∃ s',
    cleanup_old_backups E retention_days s = (Ok tt, s')
    ∧ same_run s s'
    ∧ backup_log s' = backup_log s
    ∧ sink s' = sink s
    ∧ workspaces s' = workspaces s
    ∧ (∃ out, stdout s' = stdout s ++ out)
    ∧ ∀ file,
        store s' !! file
        = match store s !! file with
          | None => None
          | Some st =>
              if ends_with ".tar.gz" file then
                if Qlt_le_dec (st_mtime st)
                     (utcnow_timestamp E - inject_Z (retention_days * 86400))
                then match unlink E (file_path s file) with
                     | Ok _ => None
                     | Raise _ => Some st
                     end
                else Some st
              else Some st
          end.
Proof.
  unfold cleanup_old_backups. unfold bind, gets.
  set (cutoff := (utcnow_timestamp E - inject_Z (retention_days * 86400))%Q).
  destruct (for_each_prune E cutoff (glob ".tar.gz" s) s) as
    (s' & Hloop & Hrun & Hlog & Hout & Hother & Hfiles).
  { apply glob_NoDup. }
  { by intros file [_ ?]%glob_elem. }
  destruct (for_each_prune_frame _ _ _ _ _ Hloop) as [Hsink Hws].
  exists s'. do 6 (split; [done|]).
  intros file. destruct (store s !! file) as [st|] eqn:Hst.
  - destruct (ends_with ".tar.gz" file) eqn:Hname.
    + assert (file ∈ glob ".tar.gz" s) as Hin by (apply glob_elem; eauto).
      specialize (Hfiles file st Hin Hst).
      destruct (Qlt_le_dec (st_mtime st) cutoff); [|done].
      destruct (unlink E (file_path s file)) as [[]|e]; [done | by destruct Hfiles].
    + rewrite Hother; [done|]. intros [Hn _]%glob_elem. congruence.
  - rewrite Hother; [done|]. intros [_ [? ?]]%glob_elem. congruence.
Qed.

End RetentionFurther.

(** X10 — pruning twice.  [cleanup_old_backups] only removes files: what
    it leaves is part of what was there, file by file as it was.  Run
    again at the same time it removes nothing more: the archives that are
    left are fresh, or their removal fails again. *)
Theorem cleanup_old_backups_idempotent (E : Externals) (retention_days : Z)
    (s s' s'' : System) :
  cleanup_old_backups E retention_days s = (Ok tt, s') →
  cleanup_old_backups E retention_days s' = (Ok tt, s'') →
  store s' ⊆ store s ∧ store s'' = store s'.
Proof.
  intros H1 H2.
  destruct (cleanup_old_backups_store E retention_days s)
    as (t1 & Ht1 & Hrun & _ & _ & _ & _ & Hs1).
  rewrite H1 in Ht1. injection Ht1 as <-.
  destruct (cleanup_old_backups_store E retention_days s')
    as (t2 & Ht2 & _ & _ & _ & _ & _ & Hs2).
  rewrite H2 in Ht2. injection Ht2 as <-.
  split.
  - apply map_subseteq_spec. intros file st. rewrite Hs1.
    destruct (store s !! file) as [st0|]; [|done].
    destruct (ends_with _ _); [|done].
    destruct (Qlt_le_dec _ _); [|done].
    by destruct (unlink E _).
  - apply map_eq. intros file. rewrite Hs2.
    assert (file_path s' file = file_path s file) as ->
        by (unfold file_path; by destruct Hrun as [-> _]).
    rewrite Hs1. destruct (store s !! file) as [st0|]; [|done].
    destruct (ends_with _ _); [|done].
    destruct (Qlt_le_dec _ _) as [Hlt|Hge].
    + destruct (unlink E _) as [[]|e] eqn:Hun; [done|].
      by destruct (Qlt_le_dec _ _).
    + destruct (Qlt_le_dec _ _); [lra | done].
Qed.

Lemma cleanup_old_backups_idempotent_witness :
  let s' := (cleanup_old_backups (fleet_at (days 100)) 30 aged_machine).2 in
  let s'' := (cleanup_old_backups (fleet_at (days 100)) 30 s').2 in
  store s' ⊆ store aged_machine ∧ store s'' = store s'.
Proof.
  intros s' s''.
  apply (cleanup_old_backups_idempotent (fleet_at (days 100)) 30);
    vm_compute; reflexivity.
Defined.

(** X11 — a longer retention removes no more.  Of two prunings of the
    same directory at the same time, the one with the longer retention
    period keeps every file the other keeps. *)
Theorem cleanup_old_backups_monotone (E : Externals) (short long : Z)
    (s s1 s2 : System) :
  (short ≤ long)%Z →
  cleanup_old_backups E short s = (Ok tt, s1) →
  cleanup_old_backups E long s = (Ok tt, s2) →
  store s1 ⊆ store s2.
Proof.
  intros Hle H1 H2.
  destruct (cleanup_old_backups_store E short s)
    as (t1 & Ht1 & _ & _ & _ & _ & _ & Hs1).
  rewrite H1 in Ht1. injection Ht1 as <-.
  destruct (cleanup_old_backups_store E long s)
    as (t2 & Ht2 & _ & _ & _ & _ & _ & Hs2).
  rewrite H2 in Ht2. injection Ht2 as <-.
  assert (inject_Z (short * 86400) <= inject_Z (long * 86400))%Q as Hq.
  { rewrite <- Zle_Qle. lia. }
  apply map_subseteq_spec. intros file st. rewrite Hs1, Hs2.
  destruct (store s !! file) as [st0|]; [|done].
  destruct (ends_with _ _); [|done].
  destruct (Qlt_le_dec _ _) as [Hlt|Hge].
  - destruct (unlink E _) as [[]|e]; [done|].
    intros ?. by destruct (Qlt_le_dec _ _).
  - intros ?. destruct (Qlt_le_dec _ _) as [Hlt'|]; [lra | done].
Qed.

Lemma cleanup_old_backups_monotone_witness :
  let s1 := (cleanup_old_backups (fleet_at (days 100)) 5 aged_machine).2 in
  let s2 := (cleanup_old_backups (fleet_at (days 100)) 30 aged_machine).2 in
  store s1 ⊆ store s2
  ∧ store s1 !! "alpha_20231222_000000.tar.gz" = None
  ∧ is_Some (store s2 !! "alpha_20231222_000000.tar.gz").
Proof.
  intros s1 s2. split.
  - apply (cleanup_old_backups_monotone (fleet_at (days 100)) 5 30 aged_machine);
      [lia | vm_compute; reflexivity | vm_compute; reflexivity].
  - split; [vm_compute; reflexivity|]. eexists. vm_compute. reflexivity.
Defined.

(** ** Publication, further *)

Section PublicationFurther.
Variable E : Externals.
Implicit Types (s t : System) (item : string).

(** What the copies leave in the sink. *)
Lemma for_each_copy2_sink (items : list string) : ∀ t r t',
  (∀ item, item ∈ items → is_Some (store t !! item)) →
  for_each items (shutil_copy2 E) t = (r, t') →
  workspaces t' = workspaces t
  ∧ (∀ k, sink t' !! k = sink t !! k
          ∨ (k ∈ items ∧ is_Some (store t !! k) ∧ sink t' !! k = store t !! k))
  ∧ match r with
    | Ok _ => ∀ k, k ∈ items → sink t' !! k = store t !! k
    | Raise _ => True
    end.
Proof.
  induction items as [|i items IH]; intros t r t' Hin.
  - intros [= <- <-]. split; [done|]. split; [by left|]. by intros k ?%elem_of_nil.
  - cbn [for_each]. unfold bind at 1. rewrite shutil_copy2_unfold.
    destruct (Hin i) as [st Hst]; [by left|]. rewrite Hst.
    destruct (copy2 E (file_path t i)) as [[]|e] eqn:Hcopy.
    + intros Hrest. apply IH in Hrest as (Hws & Hsink & Hr).
      2:{ intros item Hitem. simpl. apply Hin. by right. }
      simpl in Hws, Hsink, Hr.
      split; [done|]. split.
      * intros k. destruct (Hsink k) as [Hk|(Hk & Hs & Hc)].
        -- destruct (decide (k = i)) as [->|Hne].
           ++ right. split; [by left|]. split; [by rewrite Hst|].
              by rewrite Hk, lookup_insert_eq.
           ++ left. by rewrite Hk, lookup_insert_ne.
        -- right. split; [by right | done].
      * destruct r as [[]|e]; [|done].
        intros k [->|Hk]%elem_of_cons; [|by apply Hr].
        destruct (Hsink i) as [Hi|(_ & _ & Hi)]; [|done].
        by rewrite Hi, lookup_insert_eq.
    + intros [= <- <-]. split; [done|]. split; [by left | done].
Qed.

End PublicationFurther.



(** ** The log file and the entry point *)

(** The name of a log file is not that of an archive. *)
Lemma log_file_name_not_archive (s : System) :
  ends_with ".tar.gz" (log_file_name s) = false.
Proof.
  unfold log_file_name. unfold ends_with. apply bool_decide_eq_false. intros [k Hk].
  rewrite !list_ascii_of_string_app in Hk.
  apply (f_equal last) in Hk. rewrite !last_app in Hk. simpl in Hk. discriminate.
Qed.

Lemma with_stdout_compose (f g : list string → list string) (s : System) :
  with_stdout f (with_stdout g s) = with_stdout (λ out, f (g out)) s.
Proof. reflexivity. Qed.

Lemma stdout_with_stdout (f : list string → list string) (s : System) :
  stdout (with_stdout f s) = f (stdout s).
Proof. reflexivity. Qed.

Lemma with_stdout_ext (f g : list string → list string) (s : System) :
  f (stdout s) = g (stdout s) → with_stdout f s = with_stdout g s.
Proof. unfold with_stdout. by intros ->. Qed.

Section Entry.
Variables (E : Externals) (H : Host).
Implicit Types (s t : System).

Lemma save_backup_log_unfold s :
  save_backup_log H s
  = match json_dump H (file_path s (log_file_name s)) (backup_log s) with
    | Dumped_file st =>
        (Ok tt,
         with_stdout (λ out, out ++ [nl +:+ "Backup log saved: "
                                     +:+ file_path s (log_file_name s)])
           (with_store (insert (log_file_name s) st) s))
    | Dumped_fault e (Some st) => (Raise e, with_store (insert (log_file_name s) st) s)
    | Dumped_fault e None => (Raise e, s)
    end.
Proof.
  unfold save_backup_log, log_file_name. unfold_py.
  by destruct (json_dump H _ _) as [st|e [st|]].
Qed.

Lemma for_each_print {A} (f : A → string) (l : list A) : ∀ s,
  for_each l (λ x, print (f x)) s = (Ok tt, with_stdout (λ out, out ++ (f <$> l)) s).
Proof.
  induction l as [|x l IH]; intros s.
  - simpl. unfold ret, with_stdout. rewrite app_nil_r. by destruct s.
  - cbn [for_each]. unfold bind at 1. unfold print at 1, modify.
    rewrite IH. f_equal. rewrite with_stdout_compose. apply with_stdout_ext.
    by rewrite fmap_cons, <- app_assoc.
Qed.

(** The lines of the summary block. *)
Lemma print_summary_unfold (result : Log.t) s :
  print_summary result s
  = match Log.summary result with
    | None =>
        (Raise "'summary'",
         with_stdout (λ out, out ++ [nl +:+ rule; "BACKUP SUMMARY"; rule]) s)
    | Some sm =>
        (Ok tt,
         with_stdout
           (λ out, out
              ++ [nl +:+ rule; "BACKUP SUMMARY"; rule;
                  "Total repositories: " +:+ pretty (Summary.total sm);
                  "Successful backups: " +:+ pretty (Summary.success sm);
                  "Failed backups: " +:+ pretty (Summary.failed sm);
                  "Status: " +:+ str_upper (Log.status result)]
              ++ match Log.errors result with
                 | [] => []
                 | _ => (nl +:+ "Errors: " +:+ pretty (length (Log.errors result)))
                        :: ((λ error, "  - " +:+ error) <$> take 5 (Log.errors result))
                 end
              ++ [nl +:+ "✓ Backup process completed"]) s)
    end.
Proof.
  unfold print_summary.
  destruct (Log.summary result) as [sm|].
  - unfold bind. unfold print at 1 2 3 4 5 6 7, modify, lift. cbv beta iota.
    destruct (Log.errors result) as [|e errs].
    + unfold ret, print, modify. cbv beta iota. f_equal.
      rewrite !with_stdout_compose. apply with_stdout_ext.
      rewrite <- !app_assoc. reflexivity.
    + unfold print at 1, modify. cbv beta iota. rewrite for_each_print.
      unfold print, modify. f_equal.
      rewrite !with_stdout_compose. apply with_stdout_ext.
      rewrite <- !app_assoc. reflexivity.
  - unfold bind. unfold print, modify, lift. cbv beta iota. f_equal.
    rewrite !with_stdout_compose. apply with_stdout_ext.
    rewrite <- !app_assoc. reflexivity.
Qed.

End Entry.

Section EntryPoint.
Variables (E : Externals) (H : Host).
Implicit Types (s t : System).

(** The stages of [main]: the object is made, the run is done, the log is
    written, the old archives are pruned, the backup directory is
    published, the summary is printed; a fault of a stage ends the
    program there. *)
Lemma main_stages s (r : result unit) s' :
  main E H s = (r, s') →
  match mkdir E "/home/ubuntu/backups" with
  | Raise e => r = Raise e
  | Ok _ =>
      ∃ s2 r3 s3,
        backup_dir s2 = "/home/ubuntu/backups"
        ∧ timestamp s2 = strftime_now H
        ∧ backup_log s2 = Log.mk (isoformat_now H) [] "in_progress" [] None
        ∧ store s2 = store s ∧ workspaces s2 = workspaces s ∧ sink s2 = sink s
        ∧ backup_all_repositories E s2 = (r3, s3)
        ∧ match r3 with
          | Raise e => r = Raise e ∧ s' = s3
          | Ok result =>
              match json_dump H (file_path s3 (log_file_name s3)) (backup_log s3) with
              | Dumped_fault e _ => r = Raise e
              | Dumped_file st =>
                  ∃ s5 r6 s6,
                    cleanup_old_backups E 30
                      (with_stdout (λ out, out ++ [nl +:+ "Backup log saved: "
                                                   +:+ file_path s3 (log_file_name s3)])
                         (with_store (insert (log_file_name s3) st) s3))
                    = (Ok tt, s5)
                    ∧ upload_to_backup_repo E s5 = (r6, s6)
                    ∧ match r6 with
                      | Raise e => r = Raise e ∧ s' = s6
                      | Ok _ => print_summary result s6 = (r, s')
                      end
              end
          end
  end.
Proof.
  unfold main, bind, print, modify. cbv beta iota.
  unfold BackupSystem_init.
  destruct (mkdir E "/home/ubuntu/backups") as [[]|e]; [|by intros [= <- _]].
  match goal with |- context [backup_all_repositories E ?t] => set (s2 := t) end.
  destruct (backup_all_repositories E s2) as [[result|e] s3] eqn:Hrun.
  2:{ intros [= <- <-]. exists s2, (Raise e), s3. by repeat (split; [done|]). }
  rewrite save_backup_log_unfold.
  intros Hrest. exists s2, (Ok result), s3. do 7 (split; [done|]).
  destruct (json_dump H _ _) as [st|e [st|]]; [|by injection Hrest as <- _..].
  destruct (cleanup_old_backups_store E 30
              (with_stdout (λ out, out ++ [nl +:+ "Backup log saved: "
                                           +:+ file_path s3 (log_file_name s3)])
                 (with_store (insert (log_file_name s3) st) s3)))
    as (s5 & Hclean & _).
  rewrite Hclean in Hrest.
  destruct (upload_to_backup_repo E s5) as [[[]|e] s6] eqn:Hup.
  - exists s5, (Ok tt), s6. by repeat (split; [done|]).
  - injection Hrest as <- <-. exists s5, (Raise e), s6. by repeat (split; [done|]).
Qed.

(** A run that returns: the log returned is the log of the object, and
    it has its summary. *)
Lemma backup_all_repositories_returns_log s (log : Log.t) s' :
  backup_all_repositories E s = (Ok log, s') →
  log = backup_log s' ∧ same_run s s' ∧ is_Some (Log.summary log).
Proof.
  intros Hrun.
  apply backup_all_repositories_trace in Hrun
    as (repos & s0 & r1 & s2 & _ & Hrun0 & _ & _ & _ & _ & _ & _ & _ & Hloop & Hr).
  destruct r1 as [[]|e1]; [|by destruct Hr as [? _]].
  cbv zeta in Hr. destruct Hr as [-> [= ->]].
  apply for_each_backup_one_trace in Hloop as (Hrun2 & _).
  split; [done|]. split; [|by eexists].
  eapply same_run_trans; [exact Hrun0|]. exact Hrun2.
Qed.

(** A run on an object that holds no record yet. *)
Lemma backup_all_repositories_fresh s (log : Log.t) s' :
  Log.repositories (backup_log s) = [] →
  backup_all_repositories E s = (Ok log, s') →
  (length (List.filter is_success (Log.repositories log))
   ≤ length (Log.repositories log))%nat
  ∧ Log.summary log
    = Some (Summary.mk
              (Z.of_nat (length (Log.repositories log)))
              (Z.of_nat (length (List.filter is_success (Log.repositories log))))
              (Z.of_nat (length (Log.repositories log)
                         - length (List.filter is_success (Log.repositories log)))))
  ∧ Log.status log
    = (if decide (length (List.filter is_success (Log.repositories log))
                  = length (Log.repositories log))
       then "completed" else "partial")
  ∧ match listing E with
    | Ok _ => True
    | Raise e =>
        Log.repositories log = []
        ∧ Log.errors log
          = Log.errors (backup_log s) ++ ["Failed to list repositories: " +:+ e]
    end.
Proof.
  intros Hfresh Hrun.
  apply backup_all_repositories_trace in Hrun
    as (repos & s0 & r1 & s2 & _ & _ & _ & _ & _ & Hrecs0 & _ & _ & Hlist & Hloop & Hr).
  destruct r1 as [[]|e1]; [|by destruct Hr as [? _]].
  cbv zeta in Hr. destruct Hr as [-> [= ->]].
  apply for_each_backup_one_trace in Hloop
    as (_ & _ & _ & _ & _ & _ & records & errs & Hrecs & Herrs & Hlen & _ & Hnames).
  simpl in Hrecs, Herrs. rewrite Hrecs0, Hfresh in Hrecs. simpl in Hrecs.
  assert (length repos = length records) as Hrepos by (by rewrite <- Hnames, length_fmap).
  destruct (filter_is_success_length records) as [Hle _].
  simpl. rewrite Hrecs, Hrepos.
  split; [done|]. split; [by rewrite Nat2Z.inj_sub|]. split.
  { repeat case_decide; try done; lia. }
  destruct (listing E) as [names|e]; [done|].
  destruct Hlist as [-> Herr0]. simpl in Hrepos.
  destruct records; [|done]. split; [done|].
  destruct errs; [|simpl in Hlen; lia].
  by rewrite Herrs, Herr0, app_nil_r.
Qed.

Lemma upload_to_backup_repo_returns s s' :
  upload_to_backup_repo E s = (Ok tt, s') →
  backup_log s' = backup_log s
  ∧ store s' = store s
  ∧ (∀ k st, store s !! k = Some st → sink s' !! k = Some st)
  ∧ ∃ line, stdout s' = stdout s ++ [line].
Proof.
  rewrite upload_to_backup_repo_unfold.
  destruct (mkdir E _) as [[]|e]; [|done].
  assert (∀ item, item ∈ (map_to_list (store s)).*1 ↔ is_Some (store s !! item)) as Hitems.
  { intros item. rewrite list_elem_of_fmap. split.
    - intros ([k st] & -> & Hin%elem_of_map_to_list). by exists st.
    - intros [st Hst]. exists (item, st). split; [done|]. by apply elem_of_map_to_list. }
  destruct (for_each _ _ s) as [[[]|e] t] eqn:Hcopy; [|done].
  pose proof Hcopy as Hcopy'.
  apply for_each_copy2 in Hcopy as (_ & Hstore & Hlog & Hout & _);
    [|intros item; apply Hitems].
  apply for_each_copy2_sink in Hcopy' as (_ & _ & Hr);
    [|intros item; apply Hitems].
  intros [= <-]. simpl. split; [done|]. split; [done|]. split.
  - intros k st Hk. rewrite Hr; [done|]. apply Hitems. by rewrite Hk.
  - rewrite Hout. by eexists.
Qed.


(** A program that comes to its end. *)
Lemma main_returns s s' :
  main E H s = (Ok tt, s') →
  ∃ s2 s3 st s5 s6,
    mkdir E "/home/ubuntu/backups" = Ok tt
    ∧ backup_log s2 = Log.mk (isoformat_now H) [] "in_progress" [] None
    ∧ backup_all_repositories E s2 = (Ok (backup_log s3), s3)
    ∧ backup_dir s3 = "/home/ubuntu/backups"
    ∧ timestamp s3 = strftime_now H
    ∧ json_dump H (file_path s3 (log_file_name s3)) (backup_log s3) = Dumped_file st
    ∧ backup_log s5 = backup_log s3
    ∧ store s5 !! log_file_name s3 = Some st
    ∧ upload_to_backup_repo E s5 = (Ok tt, s6)
    ∧ print_summary (backup_log s3) s6 = (Ok tt, s')
    ∧ backup_log s' = backup_log s3
    ∧ store s' !! log_file_name s3 = Some st
    ∧ sink s' !! log_file_name s3 = Some st
    ∧ store s' ⊆ sink s'.
Proof.
  intros Hmain. apply main_stages in Hmain.
  destruct (mkdir E "/home/ubuntu/backups") as [[]|e]; [|done].
  destruct Hmain as (s2 & r3 & s3 & Hdir & Hts & Hlog & _ & _ & _ & Hrun & Hrest).
  destruct r3 as [result|e]; [|by destruct Hrest].
  destruct (backup_all_repositories_returns_log _ _ _ Hrun) as (-> & [Hd3 Ht3] & Hsum).
  destruct (json_dump H _ _) as [st|e partial] eqn:Hdump; [|done].
  destruct Hrest as (s5 & r6 & s6 & Hclean & Hup & Hrest).
  destruct r6 as [[]|e]; [|by destruct Hrest].
  destruct (cleanup_old_backups_store E 30
              (with_stdout (λ out, out ++ [nl +:+ "Backup log saved: "
                                           +:+ file_path s3 (log_file_name s3)])
                 (with_store (insert (log_file_name s3) st) s3)))
    as (t5 & Hclean' & _ & Hlog5 & _ & _ & _ & Hstore5).
  rewrite Hclean in Hclean'. injection Hclean' as <-.
  specialize (Hstore5 (log_file_name s3)). simpl in Hlog5.
  change (store (with_stdout _ (with_store _ s3))) with (<[log_file_name s3 := st]> (store s3))
    in Hstore5.
  rewrite lookup_insert_eq, log_file_name_not_archive in Hstore5.
  destruct (upload_to_backup_repo_returns _ _ Hup) as (Hlog6 & Hstore6 & Hsink6 & _).
  assert (backup_log s' = backup_log s6 ∧ store s' = store s6 ∧ sink s' = sink s6)
    as (Hlog' & Hstore' & Hsink').
  { rewrite print_summary_unfold in Hrest. destruct Hsum as [sm Hsm].
    rewrite Hsm in Hrest. by injection Hrest as <-. }
  exists s2, s3, st, s5, s6.
  split; [done|]. split; [done|]. split; [done|].
  split; [by rewrite Hd3|]. split; [by rewrite Ht3|].
  split; [done|]. split; [done|]. split; [done|]. split; [done|]. split; [done|].
  split; [by rewrite Hlog', Hlog6|].
  split; [by rewrite Hstore', Hstore6|].
  split; [rewrite Hsink'; by apply Hsink6|].
  apply map_subseteq_spec. intros k stk. rewrite Hstore', Hstore6, Hsink'. apply Hsink6.
Qed.

End EntryPoint.

(** X13 — the log file outlives every pruning.  [save_backup_log] writes
    the log of the object, as it is at the call, to the file
    backup_log_<timestamp>.json of the backup directory, over a file of
    that name if there is one, and changes no other file and not the log
    itself.  The name does not end in ".tar.gz": no later
    [cleanup_old_backups], whatever its retention period, removes the
    file. *)
Theorem save_backup_log_outlives_cleanup (E : Externals) (H : Host)
    (retention_days : Z) (s s1 s2 : System) :
  save_backup_log H s = (Ok tt, s1) →
  cleanup_old_backups E retention_days s1 = (Ok tt, s2) →
  ∃ st,
    json_dump H (file_path s (log_file_name s)) (backup_log s) = Dumped_file st
    ∧ store s1 = <[log_file_name s := st]> (store s)
    ∧ backup_log s1 = backup_log s
    ∧ store s2 !! log_file_name s = Some st.
Proof.
  rewrite save_backup_log_unfold.
  destruct (json_dump H _ _) as [st|e [?|]]; [|done..].
  intros [= <-] Hclean. exists st.
  split; [done|]. split; [done|]. split; [done|].
  destruct (cleanup_old_backups_store E retention_days
              (with_stdout (λ out, out ++ [nl +:+ "Backup log saved: "
                                           +:+ file_path s (log_file_name s)])
                 (with_store (insert (log_file_name s) st) s)))
    as (t & Ht & _ & _ & _ & _ & _ & Hstore).
  rewrite Hclean in Ht. injection Ht as <-.
  rewrite Hstore.
  change (store (with_stdout _ (with_store _ s))) with (<[log_file_name s := st]> (store s)).
  by rewrite lookup_insert_eq, log_file_name_not_archive.
Qed.

Lemma save_backup_log_outlives_cleanup_witness :
  let s1 := (save_backup_log host aged_machine).2 in
  let s2 := (cleanup_old_backups (fleet_at (days 1000)) 0 s1).2 in
  store s2 !! "alpha_20231122_000000.tar.gz" = None
  ∧ store s2 !! "alpha_20231222_000000.tar.gz" = None
  ∧ store s2 !! "backup_log_20240101_000000.json"
    = Some {| st_size := 700; st_mtime := days 100 |}.
Proof.
  intros s1 s2.
  assert (save_backup_log host aged_machine = (Ok tt, s1)) as Hsave
      by (vm_compute; reflexivity).
  assert (cleanup_old_backups (fleet_at (days 1000)) 0 s1 = (Ok tt, s2)) as Hclean
      by (vm_compute; reflexivity).
  destruct (save_backup_log_outlives_cleanup _ _ _ _ _ _ Hsave Hclean)
    as (st & Hdump & _ & _ & Hkept).
  split; [vm_compute; reflexivity|]. split; [vm_compute; reflexivity|].
  injection Hdump as <-. exact Hkept.
Defined.





(** X16 — the log that is written and published.  When [main] returns,
    the file backup_log_<timestamp>.json of the backup directory holds
    the log of the run as it is at the end of the program: nothing after
    the run changes the log.  The pruning has kept the file, and the
    publication has copied it to the sink, as it has every file that is
    in the backup directory at the end. *)
Theorem main_publishes_log (E : Externals) (H : Host) (s s' : System) :
  main E H s = (Ok tt, s') →
  ∃ st,
    json_dump H ("/home/ubuntu/backups/backup_log_" +:+ strftime_now H +:+ ".json")
      (backup_log s') = Dumped_file st
    ∧ store s' !! ("backup_log_" +:+ strftime_now H +:+ ".json") = Some st
    ∧ sink s' !! ("backup_log_" +:+ strftime_now H +:+ ".json") = Some st
    ∧ store s' ⊆ sink s'
    ∧ Log.timestamp (backup_log s') = isoformat_now H
    ∧ is_Some (Log.summary (backup_log s')).
Proof.
  intros Hmain. apply main_returns in Hmain
    as (s2 & s3 & st & s5 & s6 & _ & Hlog2 & Hrun & Hd3 & Ht3 & Hdump & _ & _ & _ & _
        & Hlog' & Hstore' & Hsink' & Hall).
  unfold file_path, log_file_name in *. rewrite Hd3, Ht3 in *. rewrite <- Hlog' in Hdump.
  exists st. split; [exact Hdump|]. split; [done|]. split; [done|]. split; [done|].
  rewrite Hlog'.
  destruct (backup_all_repositories_returns_log _ _ _ _ Hrun) as (_ & _ & Hsum).
  split; [|done].
  apply backup_all_repositories_trace in Hrun
    as (repos & s0 & r1 & t2 & Hlist & _ & _ & _ & _ & _ & _ & _ & _ & Hloop & Hr).
  destruct r1 as [[]|e1]; [|by destruct Hr as [? _]].
  cbv zeta in Hr. destruct Hr as [Hs3 _].
  assert (Log.timestamp (backup_log s3) = Log.timestamp (backup_log t2)) as ->
      by (by rewrite Hs3).
  assert (∀ repos t r t', for_each repos (backup_one E) t = (r, t') →
            Log.timestamp (backup_log t') = Log.timestamp (backup_log t)) as Hstamp.
  { clear. induction repos as [|name repos IH]; intros t r t'.
    - by intros [= <- <-].
    - cbn [for_each]. unfold bind at 1. rewrite backup_one_unfold.
      destruct (backup_repository E name _) as [[info|e] t0] eqn:Hrepo;
        apply backup_repository_frame in Hrepo as (_ & _ & _ & _ & Hrepo & _).
      + intros Hrest. by rewrite (IH _ _ _ Hrest).
      + by intros [= <- <-]. }
  rewrite (Hstamp _ _ _ _ Hloop). simpl.
  rewrite get_all_repositories_unfold in Hlist.
  destruct (listing E); injection Hlist as <- <-; simpl; by rewrite Hlog2.
Qed.

Lemma main_publishes_log_witness :
  let s' := (main fleet host machine).2 in
  store s' !! "backup_log_20240101_000000.json"
  = Some {| st_size := 700; st_mtime := days 100 |}
  ∧ sink s' !! "backup_log_20240101_000000.json"
    = Some {| st_size := 700; st_mtime := days 100 |}
  ∧ Log.timestamp (backup_log s') = "2024-01-01T00:00:00".
Proof.
  intros s'.
  assert (main fleet host machine = (Ok tt, s')) as Hmain by (vm_compute; reflexivity).
  destruct (main_publishes_log fleet host machine s' Hmain)
    as (st & Hdump & Hstore & Hsink & _ & Hstamp & _).
  injection Hdump as <-.
  split; [exact Hstore|]. split; [exact Hsink | exact Hstamp].
Defined.

(** X17 — the summary that is printed.  When [main] returns, its output
    ends with the summary block of the log of the run: the number of
    records, the number of successful ones, their difference, which is
    not negative, the status in capitals, COMPLETED exactly when every
    record is successful, then, if the run has diagnostics, their number
    and the first five of them, and the line of completion. *)
Theorem main_report (E : Externals) (H : Host) (s s' : System) :
  main E H s = (Ok tt, s') →
  let log := backup_log s' in
  let total := length (Log.repositories log) in
  let good := length (List.filter is_success (Log.repositories log)) in
  (good ≤ total)%nat
  ∧ ∃ out,
      stdout s'
      = out
        ++ [nl +:+ rule; "BACKUP SUMMARY"; rule;
            "Total repositories: " +:+ pretty (Z.of_nat total);
            "Successful backups: " +:+ pretty (Z.of_nat good);
            "Failed backups: " +:+ pretty (Z.of_nat (total - good));
            "Status: " +:+ (if decide (good = total) then "COMPLETED" else "PARTIAL")]
        ++ match Log.errors log with
           | [] => []
           | _ => (nl +:+ "Errors: " +:+ pretty (length (Log.errors log)))
                  :: ((λ error, "  - " +:+ error) <$> take 5 (Log.errors log))
           end
        ++ [nl +:+ "✓ Backup process completed"].
Proof.
  intros Hmain. apply main_returns in Hmain
    as (s2 & s3 & st & s5 & s6 & _ & Hlog2 & Hrun & _ & _ & _ & _ & _ & _ & Hprint
        & Hlog' & _).
  cbv zeta. rewrite Hlog'.
  apply backup_all_repositories_fresh in Hrun as (Hle & Hsum & Hstatus & _);
    [|by rewrite Hlog2].
  split; [exact Hle|].
  rewrite print_summary_unfold, Hsum in Hprint. injection Hprint as <-.
  exists (stdout s6). rewrite stdout_with_stdout. cbv beta.
  cbn [Summary.total Summary.success Summary.failed].
  rewrite Hstatus. by case_decide.
Qed.

Lemma main_report_witness :
  let s' := (main beta_unreachable host machine).2 in
  ∃ out,
    stdout s'
    = out
      ++ [nl +:+ rule; "BACKUP SUMMARY"; rule;
          "Total repositories: 2"; "Successful backups: 1"; "Failed backups: 1";
          "Status: PARTIAL";
          nl +:+ "Errors: 1";
          "  - Failed to clone beta: Command returned non-zero exit status 1.";
          nl +:+ "✓ Backup process completed"].
Proof.
  intros s'.
  assert (main beta_unreachable host machine = (Ok tt, s')) as Hmain
      by (vm_compute; reflexivity).
  destruct (main_report beta_unreachable host machine s' Hmain) as (_ & out & Hout).
  exists out. rewrite Hout. reflexivity.
Defined.

(** X18 — a listing that fails is reported as a completed run.  When
    the repositories cannot be listed and [main] returns, no repository
    has been saved, and the summary it prints reads 0 repositories
    and status COMPLETED, followed by the one diagnostic of the
    listing. *)
Theorem failed_listing_reported_completed (E : Externals) (H : Host)
    (s s' : System) (e : string) :
  listing E = Raise e →
  main E H s = (Ok tt, s') →
  Log.repositories (backup_log s') = []
  ∧ Log.status (backup_log s') = "completed"
  ∧ ∃ out,
      stdout s'
      = out
        ++ [nl +:+ rule; "BACKUP SUMMARY"; rule;
            "Total repositories: 0"; "Successful backups: 0"; "Failed backups: 0";
            "Status: COMPLETED";
            nl +:+ "Errors: 1";
            "  - Failed to list repositories: " +:+ e;
            nl +:+ "✓ Backup process completed"].
Proof.
  intros Hlisting Hmain. apply main_returns in Hmain
    as (s2 & s3 & st & s5 & s6 & _ & Hlog2 & Hrun & _ & _ & _ & _ & _ & _ & Hprint
        & Hlog' & _).
  rewrite Hlog'.
  apply backup_all_repositories_fresh in Hrun as (_ & Hsum & Hstatus & Hfailed);
    [|by rewrite Hlog2].
  rewrite Hlisting in Hfailed. destruct Hfailed as [Hrecs Herrs].
  rewrite Hlog2 in Herrs. rewrite Hrecs in Hsum, Hstatus.
  split; [exact Hrecs|]. split; [exact Hstatus|].
  rewrite print_summary_unfold, Hsum in Hprint. injection Hprint as <-.
  exists (stdout s6). rewrite stdout_with_stdout. cbv beta.
  by rewrite Hstatus, Herrs.
Qed.

Lemma failed_listing_reported_completed_witness :
  let s' := (main gh_missing host machine).2 in
  Log.repositories (backup_log s') = []
  ∧ Log.status (backup_log s') = "completed"
  ∧ ∃ out,
      stdout s'
      = out
        ++ [nl +:+ rule; "BACKUP SUMMARY"; rule;
            "Total repositories: 0"; "Successful backups: 0"; "Failed backups: 0";
            "Status: COMPLETED";
            nl +:+ "Errors: 1";
            "  - Failed to list repositories: "
            +:+ "[Errno 2] No such file or directory: 'gh'";
            nl +:+ "✓ Backup process completed"].
Proof.
  intros s'.
  apply (failed_listing_reported_completed gh_missing host machine s').
  - reflexivity.
  - vm_compute. reflexivity.
Defined.
